(** * Venn-diagram spatial calculator: embedding and verification

    A shallow embedding of [spatial_calculator.py] (class
    [VennSpatialCalculator] and its two convenience functions).

    Number model.  Python [float] values are read as real numbers ([R]):
    [math.pi] is [PI], [math.acos] is [acos], [math.sqrt] is [sqrt], and the
    decimal literals of the source are the rationals they denote.  Python
    [int] values are [Z]; [int(x)] truncates towards zero.

    Doubles differ from the reals in two ways that matter to the
    statements below, and each has an embedding of its own.  A square that
    leaves the range of doubles raises [OverflowError]: module [Overflow]
    has the geometry kernel, the lens dimensions and the solver with that
    exception, and the statements about them are made there, for radii up
    to [10^150], where the two embeddings agree.  Rounding decides which
    lattice points on a boundary a packer keeps, and a large centre absorbs
    the lattice offsets: module [Binary64] has [_hexagonal_pack] over
    binary64 floats, and the statements about the packers on the real
    reading ask for magnitudes ([moderate]) and a margin to the boundary
    ([well_inside]) for which the rounded arithmetic decides as the exact
    one does.  The rounding of [math.acos] is not modelled; statements
    that compare a lens area with a tolerance are made for radii up to 100,
    where the rounding error of the kernel is many orders below the
    tolerance.

    Exceptions.  A float division whose divisor is not a literal, [math.sqrt],
    [math.acos], a square ([**]) and the read of an unassigned local are
    fallible in Python; the functions that use them return a [result].
    Division by a non-zero literal or by [math.pi] cannot fail and is
    written with [/].

    Sets are [gset Z]; the order in which [list(s)] enumerates a set is not
    fixed by Python, so [pack_elements] takes it as a parameter.  A position
    map (a [dict]) is a [gmap Z ndarray].  The [verbose] printing of the
    class has no effect on any returned value and is left out.

    The file has four parts: the embedding, function by function in the
    order of the source; the definitions the statements need (the wording
    of the specification, regions and boundaries); the verification of the
    specification, component by component; and further properties of the
    code. *)

From Stdlib Require Import Floats Reals Lra Lia ZArith.
From stdpp Require Import gmap list sorting pretty strings.

#[local] Set Warnings "-clear-no-such-hyp".
#[local] Set Warnings "-inexact-float".

Open Scope R_scope.

(** ** Python runtime *)

Inductive exn :=
  | ZeroDivisionError | ValueError | UnboundLocalError | OverflowError.

Inductive result (A : Type) :=
  | Ok (a : A)
  | Raise (e : exn).
Arguments Ok {A} a.
Arguments Raise {A} e.

#[export] Instance result_ret : MRet result := @Ok.
#[export] Instance result_bind : MBind result := λ A B f r,
  match r with
  | Ok a => f a
  | Raise e => Raise e
  end.

Module Py.

(** [x / y] on floats. *)
Definition truediv (x y : R) : result R :=
  if Req_dec_T y 0 then Raise ZeroDivisionError else Ok (x / y).

Definition math_sqrt (x : R) : result R :=
  if Rlt_dec x 0 then Raise ValueError else Ok (sqrt x).

Definition math_acos (x : R) : result R :=
  if Rle_dec (-1) x
  then if Rle_dec x 1 then Ok (acos x) else Raise ValueError
  else Raise ValueError.

(** The magnitude from which a result is rounded to infinity: half an ulp
    above the largest double, [2^1024 - 2^970]. *)
Definition float_overflow : R := IZR (2 ^ 1024 - 2 ^ 970).

(** [x ** 2] on floats: [OverflowError] when the square is out of range. *)
Definition pow2 (x : R) : result R :=
  if Rge_dec (x ^ 2) float_overflow then Raise OverflowError else Ok (x ^ 2).

(** [int(x)]: truncation towards zero. *)
Definition int (x : R) : Z :=
  if Rle_dec 0 x then Zfloor x else Zceil x.

(** [max(a, b)]: the first argument unless the second is larger. *)
Definition max (a b : R) : R :=
  if Rgt_dec b a then b else a.

(** [range(a, b)]. *)
Definition range (a b : Z) : list Z := seqZ a (b - a).

(** [enumerate(l)]. *)
Definition enumerate {A} (l : list A) : list (nat * A) :=
  zip (seq 0 (length l)) l.

(** [sorted(l)] on integers. *)
Definition sorted (l : list Z) : list Z := merge_sort Z.le l.

End Py.

(** ** numpy vectors of three floats *)

Definition ndarray : Type := R * R * R.

Definition np_add (u v : ndarray) : ndarray :=
  let '(ux, uy, uz) := u in
  let '(vx, vy, vz) := v in
  (ux + vx, uy + vy, uz + vz).

Definition np_sub (u v : ndarray) : ndarray :=
  let '(ux, uy, uz) := u in
  let '(vx, vy, vz) := v in
  (ux - vx, uy - vy, uz - vz).

Definition np_div (u : ndarray) (k : R) : ndarray :=
  let '(ux, uy, uz) := u in
  (ux / k, uy / k, uz / k).

Definition linalg_norm (u : ndarray) : R :=
  let '(ux, uy, uz) := u in
  sqrt (ux ^ 2 + uy ^ 2 + uz ^ 2).

(** ** Data model *)

Record crescent_radii_dict := {
  a_only : R;
  b_only : R
}.

Record VennLayout := {
  union_size : Z;
  intersection_size : Z;
  a_only_size : Z;
  b_only_size : Z;
  circle_radius : R;
  circle_separation : R;
  circle_a_center : ndarray;
  circle_b_center : ndarray;
  tier : string;
  lens_font_size : Z;
  lens_element_size : R;
  lens_padding : R;
  lens_area : R;
  lens_width : R;
  lens_height : R;
  crescent_font_size : Z;
  crescent_element_size : R;
  crescent_padding : R;
  crescent_radii : crescent_radii_dict;
  is_valid : bool;
  warnings : list string
}.

(** The dictionary of base constants carried by a tier. *)
Record tier_params := {
  tier_radius : R;
  tier_font : Z;
  tier_padding : R
}.

(** The dictionary returned by [_calculate_lens_parameters]. *)
Record lens_params := {
  lp_font_size : Z;
  lp_element_size : R;
  lp_padding : R;
  lp_circle_separation : R;
  lp_area : R;
  lp_width : R;
  lp_height : R
}.

(** The dictionary returned by [_calculate_crescent_parameters]. *)
Record crescent_params := {
  cp_font_size : Z;
  cp_element_size : R;
  cp_padding : R;
  cp_radii : crescent_radii_dict
}.

(** ** Class constants *)

Definition PACKING_EFFICIENCY : R := 0.75.
Definition FONT_TO_MANIM_CONVERSION : R := 95.
Definition SAFETY_MARGIN : R := 1.15.

(** A threshold of the tier table: an integer or [float('inf')]. *)
Inductive threshold :=
  | Finite (n : Z)
  | Inf.

Definition TIER_THRESHOLDS : list (threshold * string * tier_params) :=
  [ (Finite 15, "comfortable",
      {| tier_radius := 2.2; tier_font := 38; tier_padding := 0.35 |});
    (Finite 25, "moderate",
      {| tier_radius := 2.0; tier_font := 32; tier_padding := 0.28 |});
    (Finite 40, "tight",
      {| tier_radius := 1.8; tier_font := 28; tier_padding := 0.22 |});
    (Finite 60, "very_tight",
      {| tier_radius := 1.5; tier_font := 24; tier_padding := 0.18 |});
    (Inf, "warning",
      {| tier_radius := 1.2; tier_font := 20; tier_padding := 0.15 |}) ].

(** [union_size <= threshold]. *)
Definition le_threshold (n : Z) (t : threshold) : bool :=
  match t with
  | Finite k => (n <=? k)%Z
  | Inf => true
  end.

(** ** Tiering policy *)

Fixpoint select_tier_loop (union_size : Z)
    (table : list (threshold * string * tier_params))
    : option (string * tier_params) :=
  match table with
  | [] => None
  | (t, name, params) :: rest =>
      if le_threshold union_size t then Some (name, params)
      else select_tier_loop union_size rest
  end.

Definition _select_tier (union_size : Z) : string * tier_params :=
  match select_tier_loop union_size TIER_THRESHOLDS with
  | Some r => r
  | None =>
      ("warning",
       {| tier_radius := 1.2; tier_font := 20; tier_padding := 0.15 |})
  end.

(** ** Geometry kernel *)

(** The body of the [try] block of [_calculate_lens_area]. *)
Definition lens_area_try (R_ d : R) : result R :=
  q ← Py.truediv d (2 * R_);
  a ← Py.math_acos q;
  let part1 := 2 * R_ ^ 2 * a in
  s ← Py.math_sqrt (4 * R_ ^ 2 - d ^ 2);
  let part2 := (d / 2) * s in
  Ok (Py.max 0 (part1 - part2)).

Definition _calculate_lens_area (R_ d : R) : R :=
  if Rge_dec d (2 * R_) then 0
  else if Rle_dec d 0 then PI * R_ ^ 2
  else
    match lens_area_try R_ d with
    | Ok v => v
    | Raise _ => 0
    end.

Definition _calculate_lens_dimensions (R_ d : R) : result (R * R) :=
  if Rge_dec d (2 * R_) then Ok (0, 0)
  else
    s ← Py.math_sqrt (R_ ^ 2 - (d / 2) ^ 2);
    let height := 2 * s in
    let width := 2 * R_ - d in
    Ok (width, height).

(** ** Separation solver *)

(** The [for] loop of [_solve_lens_separation] with [n] iterations left.
    [d_mid] is the local variable of that name, unassigned ([None]) until
    the first iteration has run. *)
Fixpoint bisection_loop (R_ required_area tolerance : R) (n : nat)
    (d_min d_max : R) (d_mid : option R) : result R :=
  match n with
  | O =>
      match d_mid with
      | Some d => Ok d
      | None => Raise UnboundLocalError
      end
  | S n' =>
      let d_mid := (d_min + d_max) / 2 in
      let area_mid := _calculate_lens_area R_ d_mid in
      if Rlt_dec (Rabs (area_mid - required_area)) tolerance then Ok d_mid
      else if Rgt_dec area_mid required_area
      then bisection_loop R_ required_area tolerance n' d_mid d_max (Some d_mid)
      else bisection_loop R_ required_area tolerance n' d_min d_mid (Some d_mid)
  end.

Definition _solve_lens_separation (R_ required_area tolerance : R)
    (max_iterations : Z) : result R :=
  let d_min := 0 in
  let d_max := 2 * R_ in
  let max_possible := PI * R_ ^ 2 in
  if Rgt_dec required_area (max_possible * 0.95) then Ok (d_min * 1.1)
  else
    bisection_loop R_ required_area tolerance (Z.to_nat max_iterations)
      d_min d_max None.

(** The default arguments of [_solve_lens_separation]. *)
Definition default_tolerance : R := 0.005.
Definition default_max_iterations : Z := 100.

(** The midpoints the loop evaluates, in order: the trace of the [for]
    loop above, used to state how many iterations ran. *)
Fixpoint bisection_midpoints (R_ required_area tolerance : R) (n : nat)
    (d_min d_max : R) : list R :=
  match n with
  | O => []
  | S n' =>
      let d_mid := (d_min + d_max) / 2 in
      let area_mid := _calculate_lens_area R_ d_mid in
      if Rlt_dec (Rabs (area_mid - required_area)) tolerance then [d_mid]
      else if Rgt_dec area_mid required_area
      then d_mid :: bisection_midpoints R_ required_area tolerance n' d_mid d_max
      else d_mid :: bisection_midpoints R_ required_area tolerance n' d_min d_mid
  end.

(** ** Geometry kernel and solver: the range of [float]

    [R**2] and [d**2] are the operations of the kernel and of the solver
    that raise on a large argument: the square of a float beyond the range
    of doubles is an [OverflowError].  (A product or a sum that leaves the
    range gives an infinity and no exception.)  The module has the two
    functions, and [_calculate_lens_dimensions], with that exception in its
    place: raised to the caller from the [d <= 0] branch of the kernel,
    from the first line of the solver and from the height of the lens,
    swallowed by the bare [except] inside the [try] block.  For a radius up
    to [10^150] no square leaves the range and the functions are the ones
    above; the layout only calls them with the radii of the tier table. *)

Module Overflow.

(** The body of the [try] block of [_calculate_lens_area]. *)
Definition lens_area_try (R_ d : R) : result R :=
  r2 ← Py.pow2 R_;
  q ← Py.truediv d (2 * R_);
  a ← Py.math_acos q;
  let part1 := 2 * r2 * a in
  r2' ← Py.pow2 R_;
  d2 ← Py.pow2 d;
  s ← Py.math_sqrt (4 * r2' - d2);
  let part2 := (d / 2) * s in
  Ok (Py.max 0 (part1 - part2)).

Definition _calculate_lens_area (R_ d : R) : result R :=
  if Rge_dec d (2 * R_) then Ok 0
  else if Rle_dec d 0 then r2 ← Py.pow2 R_; Ok (PI * r2)
  else
    match lens_area_try R_ d with
    | Ok v => Ok v
    | Raise _ => Ok 0
    end.

Definition _calculate_lens_dimensions (R_ d : R) : result (R * R) :=
  if Rge_dec d (2 * R_) then Ok (0, 0)
  else
    r2 ← Py.pow2 R_;
    h2 ← Py.pow2 (d / 2);
    s ← Py.math_sqrt (r2 - h2);
    let height := 2 * s in
    let width := 2 * R_ - d in
    Ok (width, height).

Fixpoint bisection_loop (R_ required_area tolerance : R) (n : nat)
    (d_min d_max : R) (d_mid : option R) : result R :=
  match n with
  | O =>
      match d_mid with
      | Some d => Ok d
      | None => Raise UnboundLocalError
      end
  | S n' =>
      let d_mid := (d_min + d_max) / 2 in
      area_mid ← _calculate_lens_area R_ d_mid;
      if Rlt_dec (Rabs (area_mid - required_area)) tolerance then Ok d_mid
      else if Rgt_dec area_mid required_area
      then bisection_loop R_ required_area tolerance n' d_mid d_max (Some d_mid)
      else bisection_loop R_ required_area tolerance n' d_min d_mid (Some d_mid)
  end.

Definition _solve_lens_separation (R_ required_area tolerance : R)
    (max_iterations : Z) : result R :=
  let d_min := 0 in
  let d_max := 2 * R_ in
  r2 ← Py.pow2 R_;
  let max_possible := PI * r2 in
  if Rgt_dec required_area (max_possible * 0.95) then Ok (d_min * 1.1)
  else
    bisection_loop R_ required_area tolerance (Z.to_nat max_iterations)
      d_min d_max None.

End Overflow.

(** ** Region sizer *)

Definition _calculate_lens_parameters (intersection_size : Z)
    (base_radius : R) (base_font : Z) (base_padding : R)
    : result lens_params :=
  let element_size := IZR base_font / FONT_TO_MANIM_CONVERSION in
  let element_footprint := (element_size + base_padding) ^ 2 in
  let required_area :=
    if decide (intersection_size > 0)%Z
    then (IZR intersection_size * element_footprint) / PACKING_EFFICIENCY
         * SAFETY_MARGIN
    else 0.1 in
  circle_sep ← _solve_lens_separation base_radius required_area
                  default_tolerance default_max_iterations;
  let actual_area := _calculate_lens_area base_radius circle_sep in
  wh ← _calculate_lens_dimensions base_radius circle_sep;
  let '(width, height) := wh in
  Ok {| lp_font_size := base_font;
        lp_element_size := element_size;
        lp_padding := base_padding;
        lp_circle_separation := circle_sep;
        lp_area := actual_area;
        lp_width := width;
        lp_height := height |}.

(** The closure [calc_radius]; it reads [element_footprint] from the
    enclosing scope at call time, so the footprint is an argument here. *)
Definition calc_radius (element_footprint : R) (n_elements : Z) : result R :=
  if decide (n_elements = 0)%Z then Ok 0.1
  else
    let required_area :=
      (IZR n_elements * element_footprint) / PACKING_EFFICIENCY in
    Py.math_sqrt (required_area / PI).

Definition _calculate_crescent_parameters (a_only_size b_only_size : Z)
    (base_radius : R) (base_font : Z) (base_padding : R)
    : result crescent_params :=
  let element_size := IZR base_font / FONT_TO_MANIM_CONVERSION in
  let element_footprint := (element_size + base_padding) ^ 2 in
  r_a ← calc_radius element_footprint a_only_size;
  r_b ← calc_radius element_footprint b_only_size;
  let max_crescent_radius := base_radius * 0.65 in
  if Rgt_dec (Py.max r_a r_b) max_crescent_radius
  then
    q ← Py.truediv max_crescent_radius (Py.max r_a r_b);
    let scale_factor := q * 0.9 in
    let crescent_font := Py.int (IZR base_font * scale_factor) in
    let crescent_padding := base_padding * scale_factor in
    let crescent_element_size :=
      IZR crescent_font / FONT_TO_MANIM_CONVERSION in
    let crescent_element_footprint :=
      (crescent_element_size + crescent_padding) ^ 2 in
    r_a ← calc_radius crescent_element_footprint a_only_size;
    r_b ← calc_radius crescent_element_footprint b_only_size;
    Ok {| cp_font_size := crescent_font;
          cp_element_size := crescent_element_size;
          cp_padding := crescent_padding;
          cp_radii := {| a_only := r_a; b_only := r_b |} |}
  else
    Ok {| cp_font_size := base_font;
          cp_element_size := element_size;
          cp_padding := base_padding;
          cp_radii := {| a_only := r_a; b_only := r_b |} |}.

(** ** Layout *)

(** The f-string of the validation step. *)
Definition font_warning (lens crescents : Z) : string :=
  "Different font sizes: lens=" +:+ pretty lens
    +:+ ", crescents=" +:+ pretty crescents.

Definition calculate_layout (set_a set_b : gset Z) : result VennLayout :=
  let union := set_a ∪ set_b in
  let intersection := set_a ∩ set_b in
  let a_only_set := set_a ∖ set_b in
  let b_only_set := set_b ∖ set_a in
  let union_sz := Z.of_nat (size union) in
  let intersection_sz := Z.of_nat (size intersection) in
  let a_only_sz := Z.of_nat (size a_only_set) in
  let b_only_sz := Z.of_nat (size b_only_set) in
  let '(tier_name, params) := _select_tier union_sz in
  lens ← _calculate_lens_parameters intersection_sz
            (tier_radius params) (tier_font params) (tier_padding params);
  crescent ← _calculate_crescent_parameters a_only_sz b_only_sz
            (tier_radius params) (tier_font params) (tier_padding params);
  let circle_sep := lp_circle_separation lens in
  let a_center : ndarray := (- circle_sep / 2, 0, 0) in
  let b_center : ndarray := (circle_sep / 2, 0, 0) in
  let warns :=
    if decide (lp_font_size lens ≠ cp_font_size crescent)
    then [font_warning (lp_font_size lens) (cp_font_size crescent)]
    else [] in
  Ok {| union_size := union_sz;
        intersection_size := intersection_sz;
        a_only_size := a_only_sz;
        b_only_size := b_only_sz;
        circle_radius := tier_radius params;
        circle_separation := circle_sep;
        circle_a_center := a_center;
        circle_b_center := b_center;
        tier := tier_name;
        lens_font_size := lp_font_size lens;
        lens_element_size := lp_element_size lens;
        lens_padding := lp_padding lens;
        lens_area := lp_area lens;
        lens_width := lp_width lens;
        lens_height := lp_height lens;
        crescent_font_size := cp_font_size crescent;
        crescent_element_size := cp_element_size crescent;
        crescent_padding := cp_padding crescent;
        crescent_radii := cp_radii crescent;
        is_valid := true;
        warnings := warns |}.

(** ** Packing engine *)

(** [positions_list.sort(key=lambda x: x[0])]: a stable sort on the
    distance.  The output of a stable sort is determined by its input, so
    the insertion sort below returns the list Python's sort returns. *)
Fixpoint insert_by_dist (p : R * ndarray) (l : list (R * ndarray))
    : list (R * ndarray) :=
  match l with
  | [] => [p]
  | q :: l' =>
      if Rle_dec p.1 q.1 then p :: q :: l' else q :: insert_by_dist p l'
  end.

Definition sort_by_dist (l : list (R * ndarray)) : list (R * ndarray) :=
  foldr insert_by_dist [] l.

(** The final [for i, elem in enumerate(elements)] loop, shared by both
    packers. *)
Definition assign_step (positions_list : list (R * ndarray))
    (center : ndarray) (positions : gmap Z ndarray) (ie : nat * Z)
    : gmap Z ndarray :=
  let '(i, elem) := ie in
  match positions_list !! i with
  | Some dp => <[elem := dp.2]> positions
  | None => <[elem := center]> positions
  end.

Definition assign_positions (elements : list Z)
    (positions_list : list (R * ndarray)) (center : ndarray)
    : gmap Z ndarray :=
  foldl (assign_step positions_list center) ∅ (Py.enumerate elements).

(** The lattice point of a (row, col) pair, relative to the centre. *)
Definition lattice_xy (hex_spacing_x hex_spacing_y : R) (row col : Z)
    : R * R :=
  let x := IZR col * hex_spacing_x in
  let y := IZR row * hex_spacing_y in
  let x := if decide (row `mod` 2 ≠ 0)%Z then x + hex_spacing_x / 2 else x in
  (x, y).

(** The candidates of [_hexagonal_pack] before sorting. *)
Definition hexagonal_candidates (center : ndarray)
    (radius elem_size padding : R) : result (list (R * ndarray)) :=
  let spacing := elem_size + padding in
  let hex_spacing_x := spacing in
  let hex_spacing_y := spacing * 0.866 in
  qx ← Py.truediv (2 * radius) hex_spacing_x;
  let cols := (Py.int qx + 1)%Z in
  qy ← Py.truediv (2 * radius) hex_spacing_y;
  let rows := (Py.int qy + 1)%Z in
  Ok (row ← Py.range (- rows) (rows + 1);
      col ← Py.range (- cols) (cols + 1);
      let '(x, y) := lattice_xy hex_spacing_x hex_spacing_y row col in
      let pos := np_add center (x, y, 0) in
      let dist := linalg_norm (np_sub pos center) in
      if Rle_dec dist radius then [(dist, pos)] else []).

Definition _hexagonal_pack (elements : list Z) (center : ndarray)
    (radius elem_size padding : R) : result (gmap Z ndarray) :=
  positions_list ← hexagonal_candidates center radius elem_size padding;
  Ok (assign_positions elements (sort_by_dist positions_list) center).

(** The candidates of [_elliptical_pack] before sorting. *)
Definition elliptical_candidates (center : ndarray)
    (width height elem_size padding : R) : result (list (R * ndarray)) :=
  let spacing := elem_size + padding in
  let hex_spacing_x := spacing in
  let hex_spacing_y := spacing * 0.866 in
  qx ← Py.truediv width hex_spacing_x;
  let cols := (Py.int qx + 2)%Z in
  qy ← Py.truediv height hex_spacing_y;
  let rows := (Py.int qy + 2)%Z in
  Ok (row ← Py.range (- rows) (rows + 1);
      col ← Py.range (- cols) (cols + 1);
      let '(x, y) := lattice_xy hex_spacing_x hex_spacing_y row col in
      let pos := np_add center (x, y, 0) in
      let norm_x := if Rgt_dec width 0 then 2 * x / width else 0 in
      let norm_y := if Rgt_dec height 0 then 2 * y / height else 0 in
      if Rle_dec (norm_x ^ 2 + norm_y ^ 2) 1
      then [(linalg_norm (np_sub pos center), pos)]
      else []).

Definition _elliptical_pack (elements : list Z) (center : ndarray)
    (width height elem_size padding : R) : result (gmap Z ndarray) :=
  positions_list ←
    elliptical_candidates center width height elem_size padding;
  Ok (assign_positions elements (sort_by_dist positions_list) center).

Section pack_elements.

(** [list(s)]: the elements of a set in the order Python iterates it. *)
Variable py_list : gset Z → list Z.

Definition pack_elements (elements : list Z) (set_a set_b : gset Z)
    (layout : VennLayout) : result (gmap Z ndarray) :=
  let intersection := set_a ∩ set_b in
  let a_only_set := set_a ∖ set_b in
  let b_only_set := set_b ∖ set_a in
  let positions : gmap Z ndarray := ∅ in
  positions ←
    (if decide (a_only_set ≠ ∅)
     then
       let a_center :=
         np_add (circle_a_center layout)
                (- circle_radius layout * 0.35, 0, 0) in
       packed ← _hexagonal_pack (Py.sorted (py_list a_only_set)) a_center
                  (a_only (crescent_radii layout))
                  (crescent_element_size layout)
                  (crescent_padding layout);
       Ok (packed ∪ positions)
     else Ok positions);
  positions ←
    (if decide (intersection ≠ ∅)
     then
       let lens_center :=
         np_div (np_add (circle_a_center layout) (circle_b_center layout))
                2 in
       packed ← _elliptical_pack (Py.sorted (py_list intersection))
                  lens_center
                  (lens_width layout) (lens_height layout)
                  (lens_element_size layout) (lens_padding layout);
       Ok (packed ∪ positions)
     else Ok positions);
  positions ←
    (if decide (b_only_set ≠ ∅)
     then
       let b_center :=
         np_add (circle_b_center layout)
                (circle_radius layout * 0.35, 0, 0) in
       packed ← _hexagonal_pack (Py.sorted (py_list b_only_set)) b_center
                  (b_only (crescent_radii layout))
                  (crescent_element_size layout)
                  (crescent_padding layout);
       Ok (packed ∪ positions)
     else Ok positions);
  Ok positions.

End pack_elements.

(** ** Packing engine: [_hexagonal_pack] in binary64

    The same function with [float] read as IEEE binary64 (Rocq's primitive
    floats): addition, subtraction, multiplication, division and square
    root are correctly rounded, as in Python and numpy.  The norm of a
    three-vector is the square root of the sum of its squares, added from
    left to right. *)

Module Binary64.

#[local] Open Scope float_scope.

Definition ndarray : Type := float * float * float.

Definition np_add (u v : ndarray) : ndarray :=
  let '(ux, uy, uz) := u in
  let '(vx, vy, vz) := v in
  (ux + vx, uy + vy, uz + vz).

Definition np_sub (u v : ndarray) : ndarray :=
  let '(ux, uy, uz) := u in
  let '(vx, vy, vz) := v in
  (ux - vx, uy - vy, uz - vz).

Definition linalg_norm (u : ndarray) : float :=
  let '(ux, uy, uz) := u in
  PrimFloat.sqrt (ux * ux + uy * uy + uz * uz).

(** The float of a Python int, rounded to nearest. *)
Definition of_int (z : Z) : float :=
  SF2Prim (binary_normalize prec emax z 0 false).

(** [int(x)]: truncation towards zero; infinities and NaN raise. *)
Definition int (x : float) : result Z :=
  match Prim2SF x with
  | S754_zero _ => Ok 0%Z
  | S754_finite sign m e =>
      let a := match e with
               | Zneg _ => Z.shiftr (Zpos m) (- e)
               | _ => Z.shiftl (Zpos m) e
               end in
      Ok (if sign then (- a)%Z else a)
  | S754_infinity _ => Raise OverflowError
  | S754_nan => Raise ValueError
  end.

(** [x / y] on floats. *)
Definition truediv (x y : float) : result float :=
  if y =? 0 then Raise ZeroDivisionError else Ok (x / y).

Fixpoint insert_by_dist (p : float * ndarray) (l : list (float * ndarray))
    : list (float * ndarray) :=
  match l with
  | [] => [p]
  | q :: l' =>
      if p.1 <=? q.1 then p :: q :: l' else q :: insert_by_dist p l'
  end.

Definition sort_by_dist (l : list (float * ndarray))
    : list (float * ndarray) :=
  foldr insert_by_dist [] l.

Definition assign_step (positions_list : list (float * ndarray))
    (center : ndarray) (positions : gmap Z ndarray) (ie : nat * Z)
    : gmap Z ndarray :=
  let '(i, elem) := ie in
  match positions_list !! i with
  | Some dp => <[elem := dp.2]> positions
  | None => <[elem := center]> positions
  end.

Definition assign_positions (elements : list Z)
    (positions_list : list (float * ndarray)) (center : ndarray)
    : gmap Z ndarray :=
  foldl (assign_step positions_list center) ∅ (Py.enumerate elements).

Definition lattice_xy (hex_spacing_x hex_spacing_y : float) (row col : Z)
    : float * float :=
  let x := of_int col * hex_spacing_x in
  let y := of_int row * hex_spacing_y in
  let x := if decide (row `mod` 2 ≠ 0)%Z then x + hex_spacing_x / 2 else x in
  (x, y).

Definition hexagonal_candidates (center : ndarray)
    (radius elem_size padding : float) : result (list (float * ndarray)) :=
  let spacing := elem_size + padding in
  let hex_spacing_x := spacing in
  let hex_spacing_y := spacing * 0.866 in
  qx ← truediv (2 * radius) hex_spacing_x;
  cx ← int qx;
  let cols := (cx + 1)%Z in
  qy ← truediv (2 * radius) hex_spacing_y;
  cy ← int qy;
  let rows := (cy + 1)%Z in
  Ok (row ← Py.range (- rows) (rows + 1);
      col ← Py.range (- cols) (cols + 1);
      let '(x, y) := lattice_xy hex_spacing_x hex_spacing_y row col in
      let pos := np_add center (x, y, 0) in
      let dist := linalg_norm (np_sub pos center) in
      if dist <=? radius then [(dist, pos)] else []).

Definition _hexagonal_pack (elements : list Z) (center : ndarray)
    (radius elem_size padding : float) : result (gmap Z ndarray) :=
  positions_list ← hexagonal_candidates center radius elem_size padding;
  Ok (assign_positions elements (sort_by_dist positions_list) center).

End Binary64.

(** ** Convenience functions *)

Definition calculate_venn_layout (set_a set_b : gset Z) : result VennLayout :=
  calculate_layout set_a set_b.

Definition pack_venn_elements (py_list : gset Z → list Z)
    (elements : list Z) (set_a set_b : gset Z) (layout : VennLayout)
    : result (gmap Z ndarray) :=
  pack_elements py_list elements set_a set_b layout.

(** * Definitions used in the statements *)

(** ** The specification's wording *)

(** The thresholds as the specification words them. *)
Definition tier_name_spec (n : Z) : string :=
  if decide (n ≤ 15)%Z then "comfortable"
  else if decide (n ≤ 25)%Z then "moderate"
  else if decide (n ≤ 40)%Z then "tight"
  else if decide (n ≤ 60)%Z then "very_tight"
  else "warning".

(** The closed form of the lens area given in the specification. *)
Definition lens_formula (R_ d : R) : R :=
  2 * R_ ^ 2 * acos (d / (2 * R_)) - (d / 2) * sqrt (4 * R_ ^ 2 - d ^ 2).

(** The boundary of a region: a circle for a crescent, an ellipse for the
    lens. *)
Inductive boundary :=
  | Circle (radius : R)
  | Ellipse (width height : R).

(** The packer called for a boundary, and the candidates it sorts. *)
Definition pack (b : boundary) (elements : list Z) (center : ndarray)
    (elem_size padding : R) : result (gmap Z ndarray) :=
  match b with
  | Circle radius => _hexagonal_pack elements center radius elem_size padding
  | Ellipse width height =>
      _elliptical_pack elements center width height elem_size padding
  end.

Definition candidates (b : boundary) (center : ndarray)
    (elem_size padding : R) : result (list (R * ndarray)) :=
  match b with
  | Circle radius => hexagonal_candidates center radius elem_size padding
  | Ellipse width height =>
      elliptical_candidates center width height elem_size padding
  end.

Definition in_circle (center : ndarray) (radius : R) (p : ndarray) : Prop :=
  linalg_norm (np_sub p center) <= radius.

Definition in_ellipse (center : ndarray) (width height : R) (p : ndarray)
    : Prop :=
  let '(x, y, _) := np_sub p center in
  (2 * x / width) ^ 2 + (2 * y / height) ^ 2 <= 1.

(** A point inside or on the boundary. *)
Definition inside (b : boundary) (center p : ndarray) : Prop :=
  match b with
  | Circle radius => in_circle center radius p
  | Ellipse width height => in_ellipse center width height p
  end.

(** An ellipse needs a positive width and height; for other values
    [_elliptical_pack] leaves the corresponding axis unconstrained. *)
Definition boundary_wf (b : boundary) : Prop :=
  match b with
  | Circle radius => True
  | Ellipse width height => 0 < width ∧ 0 < height
  end.

(** The [eps] of the minimum-separation property: rows are
    [0.866] spacings apart, a little under [sqrt 3 / 2], so neighbours in
    adjacent rows are [sqrt 0.999956] spacings apart. *)
Definition separation_slack (elem_size padding : R) : R :=
  0.00003 * (elem_size + padding).

(** The relative margin by which a lattice point has to clear the
    boundary to count towards the capacity of a region. *)
Definition boundary_margin : R := 0.000001.

(** A lattice point, given by its (row, col) pair, inside the boundary
    shrunk by [boundary_margin]. *)
Definition well_inside (b : boundary) (s : R) (rc : Z * Z) : Prop :=
  let '(x, y) := lattice_xy s (s * 0.866) rc.1 rc.2 in
  match b with
  | Circle radius => sqrt (x ^ 2 + y ^ 2) <= radius * (1 - boundary_margin)
  | Ellipse width height =>
      (2 * x / width) ^ 2 + (2 * y / height) ^ 2 <= 1 - boundary_margin
  end.

(** Magnitudes for which the arithmetic of the packers stays in range and
    the centre does not absorb the lattice offsets: a spacing between
    [10^-100] and [10^100], centre coordinates of at most [10^6] spacings,
    and a boundary of at most 1000 spacings (for the ellipse, also at least
    a thousandth of a spacing). *)
Definition moderate (b : boundary) (center : ndarray) (s : R) : Prop :=
  / 10 ^ 100 <= s <= 10 ^ 100
  ∧ Rabs center.1.1 <= 10 ^ 6 * s
  ∧ Rabs center.1.2 <= 10 ^ 6 * s
  ∧ match b with
    | Circle radius => Rabs radius <= 1000 * s
    | Ellipse width height =>
        s / 1000 <= width <= 1000 * s ∧ s / 1000 <= height <= 1000 * s
    end.

(** The three regions of the diagram, with the arguments [pack_elements]
    passes to the packer for each. *)
Inductive region := AOnly | Lens | BOnly.

Definition region_set (k : region) (set_a set_b : gset Z) : gset Z :=
  match k with
  | AOnly => set_a ∖ set_b
  | Lens => set_a ∩ set_b
  | BOnly => set_b ∖ set_a
  end.

Definition region_center (k : region) (layout : VennLayout) : ndarray :=
  match k with
  | AOnly =>
      np_add (circle_a_center layout) (- circle_radius layout * 0.35, 0, 0)
  | Lens =>
      np_div (np_add (circle_a_center layout) (circle_b_center layout)) 2
  | BOnly =>
      np_add (circle_b_center layout) (circle_radius layout * 0.35, 0, 0)
  end.

Definition region_boundary (k : region) (layout : VennLayout) : boundary :=
  match k with
  | AOnly => Circle (a_only (crescent_radii layout))
  | Lens => Ellipse (lens_width layout) (lens_height layout)
  | BOnly => Circle (b_only (crescent_radii layout))
  end.

Definition region_elem_size (k : region) (layout : VennLayout) : R :=
  match k with
  | Lens => lens_element_size layout
  | _ => crescent_element_size layout
  end.

Definition region_padding (k : region) (layout : VennLayout) : R :=
  match k with
  | Lens => lens_padding layout
  | _ => crescent_padding layout
  end.

Definition region_candidates (k : region) (layout : VennLayout)
    : result (list (R * ndarray)) :=
  candidates (region_boundary k layout) (region_center k layout)
    (region_elem_size k layout) (region_padding k layout).

(** The position the assignment loop gives to the element of rank [i]: the
    [i]-th entry of the sorted candidates, or the centre once they have run
    out. *)
Definition candidate_at (positions_list : list (R * ndarray))
    (center : ndarray) (i : nat) : ndarray :=
  match positions_list !! i with
  | Some dp => dp.2
  | None => center
  end.

(** ** Quantities of the further properties *)

(** The lens area [_calculate_lens_parameters] asks the solver for: the
    local [required_area]. *)
Definition lens_required_area (intersection_size : Z) (base_font : Z)
    (base_padding : R) : R :=
  if decide (intersection_size > 0)%Z
  then IZR intersection_size
       * (IZR base_font / FONT_TO_MANIM_CONVERSION + base_padding) ^ 2
       / PACKING_EFFICIENCY * SAFETY_MARGIN
  else 0.1.

(** A layout written out field by field, for [pack_elements] on layouts
    that [calculate_layout] does not produce: two circles of radius 2 one
    unit apart, crescents of radius 1 with padding 0 and the given element
    size. *)
Definition sample_layout (crescent_element_size : R)
    : VennLayout :=
  {| union_size := 2; intersection_size := 0;
     a_only_size := 2; b_only_size := 0;
     circle_radius := 2; circle_separation := 1;
     circle_a_center := (-0.5, 0, 0); circle_b_center := (0.5, 0, 0);
     tier := "comfortable";
     lens_font_size := 38; lens_element_size := 0.75; lens_padding := 0.25;
     lens_area := 5; lens_width := 3; lens_height := 3;
     crescent_font_size := 38;
     crescent_element_size := crescent_element_size;
     crescent_padding := 0;
     crescent_radii := {| a_only := 1; b_only := 1 |};
     is_valid := true; warnings := [] |}.

(** ** Auxiliary definitions of the proofs *)

(** With [t] the half-angle [acos (d / 2R)] the closed form is
    [2 R² (t - sin t cos t)]; [lens_G] is the angular factor and [lens_H]
    the auxiliary function whose monotonicity bounds the slope in [d]. *)
Definition lens_G (t : R) : R := t - sin t * cos t.
Definition lens_H (t : R) : R := lens_G t + 2 * cos t.

(** The horizontal offset of a row, in units of the spacing. *)
Definition row_offset (row : Z) : R :=
  if decide (row `mod` 2 ≠ 0)%Z then 1 / 2 else 0.

(** The lattice point of a (row, col) pair. *)
Definition lattice_point (center : ndarray) (s : R) (row col : Z) : ndarray :=
  let '(x, y) := lattice_xy s (s * 0.866) row col in
  np_add center (x, y, 0).

(** The double loop of both packers, with the boundary test as a
    parameter. *)
Definition lattice_candidates (center : ndarray) (s : R) (rows cols : Z)
    (keep : R → R → Prop) (keep_dec : ∀ x y, {keep x y} + {¬ keep x y})
    : list (R * ndarray) :=
  row ← Py.range (- rows) (rows + 1);
  col ← Py.range (- cols) (cols + 1);
  let '(x, y) := lattice_xy s (s * 0.866) row col in
  if keep_dec x y
  then [(linalg_norm (np_sub (np_add center (x, y, 0)) center),
         np_add center (x, y, 0))]
  else [].

(** One of the three [if region: positions.update(...)] blocks of
    [pack_elements]. *)
Definition region_step (py_list : gset Z → list Z) (k : region)
    (set_a set_b : gset Z) (layout : VennLayout)
    (positions : gmap Z ndarray) : result (gmap Z ndarray) :=
  if decide (region_set k set_a set_b ≠ ∅)
  then
    packed ← pack (region_boundary k layout)
                (Py.sorted (py_list (region_set k set_a set_b)))
                (region_center k layout)
                (region_elem_size k layout) (region_padding k layout);
    Ok (packed ∪ positions)
  else Ok positions.

(** * Verification *)

#[local] Arguments assign_step : simpl never.

(** ** The Python runtime model *)

Lemma py_max_Rmax (a b : R) : Py.max a b = Rmax a b.
Proof.
  unfold Py.max, Rmax.
  destruct (Rgt_dec b a), (Rle_dec a b); try reflexivity; lra.
Qed.

Lemma truediv_ok (x y : R) : y <> 0 -> Py.truediv x y = Ok (x / y).
Proof.
  intros Hy. unfold Py.truediv. destruct (Req_dec_T y 0); [contradiction | reflexivity].
Qed.

Lemma math_sqrt_ok (x : R) : 0 <= x -> Py.math_sqrt x = Ok (sqrt x).
Proof.
  intros Hx. unfold Py.math_sqrt. destruct (Rlt_dec x 0); [lra | reflexivity].
Qed.

Lemma math_acos_ok (x : R) : -1 <= x <= 1 -> Py.math_acos x = Ok (acos x).
Proof.
  intros [Hl Hu]. unfold Py.math_acos.
  destruct (Rle_dec (-1) x); [| contradiction].
  destruct (Rle_dec x 1); [reflexivity | contradiction].
Qed.

Lemma pow2_ok (x : R) :
  x ^ 2 < Py.float_overflow → Py.pow2 x = Ok (x ^ 2).
Proof.
  intros Hx. unfold Py.pow2.
  destruct (Rge_dec (x ^ 2) Py.float_overflow); [lra | reflexivity].
Qed.

Lemma pow2_overflow (x : R) :
  Py.float_overflow <= x ^ 2 → Py.pow2 x = Raise OverflowError.
Proof.
  intros Hx. unfold Py.pow2.
  destruct (Rge_dec (x ^ 2) Py.float_overflow); [reflexivity | lra].
Qed.

(** Squares of numbers up to [2 * 10^150] are in range; the square of
    [10^200] is not. *)
Lemma float_overflow_above : 4 * (10 ^ 150) ^ 2 < Py.float_overflow.
Proof.
  unfold Py.float_overflow.
  rewrite !pow_IZR, <- mult_IZR.
  apply IZR_lt. vm_compute. reflexivity.
Qed.

Lemma float_overflow_below : Py.float_overflow <= (10 ^ 200) ^ 2.
Proof.
  unfold Py.float_overflow.
  rewrite !pow_IZR.
  apply IZR_le. vm_compute. discriminate.
Qed.

Lemma square_in_range (R_ x : R) :
  0 < R_ → R_ <= 10 ^ 150 → - (2 * R_) <= x <= 2 * R_ →
  x ^ 2 < Py.float_overflow.
Proof.
  intros HR Hbound Hx.
  pose proof float_overflow_above as Hmax.
  assert (Hp : 0 < 10 ^ 150) by (apply pow_lt; lra).
  assert (Hx2 : x ^ 2 <= (2 * R_) ^ 2).
  { destruct (Rle_dec 0 x).
    - apply pow_incr. lra.
    - replace (x ^ 2) with ((- x) ^ 2) by ring. apply pow_incr. lra. }
  assert (HR2 : R_ ^ 2 <= (10 ^ 150) ^ 2) by (apply pow_incr; lra).
  lra.
Qed.

Lemma int_nonneg (x : R) : 0 <= x -> (0 <= Py.int x)%Z.
Proof.
  intros Hx. unfold Py.int. destruct (Rle_dec 0 x); [| contradiction].
  apply (Zfloor_lub 0). exact Hx.
Qed.

(** ** Tiering policy *)

Lemma select_tier_cases (n : Z) :
  ((n ≤ 15)%Z ∧ _select_tier n =
     ("comfortable", {| tier_radius := 2.2; tier_font := 38; tier_padding := 0.35 |}))
  ∨ ((15 < n ≤ 25)%Z ∧ _select_tier n =
     ("moderate", {| tier_radius := 2.0; tier_font := 32; tier_padding := 0.28 |}))
  ∨ ((25 < n ≤ 40)%Z ∧ _select_tier n =
     ("tight", {| tier_radius := 1.8; tier_font := 28; tier_padding := 0.22 |}))
  ∨ ((40 < n ≤ 60)%Z ∧ _select_tier n =
     ("very_tight", {| tier_radius := 1.5; tier_font := 24; tier_padding := 0.18 |}))
  ∨ ((60 < n)%Z ∧ _select_tier n =
     ("warning", {| tier_radius := 1.2; tier_font := 20; tier_padding := 0.15 |})).
Proof.
  unfold _select_tier, TIER_THRESHOLDS, select_tier_loop, le_threshold.
  destruct (Z.leb_spec n 15); [left; split; [lia | reflexivity] | right].
  destruct (Z.leb_spec n 25); [left; split; [lia | reflexivity] | right].
  destruct (Z.leb_spec n 40); [left; split; [lia | reflexivity] | right].
  destruct (Z.leb_spec n 60); [left; split; [lia | reflexivity] | right].
  split; [lia | reflexivity].
Qed.

(** Case analysis on the row of the table that [_select_tier n] returns. *)
Ltac tier_cases n :=
  destruct (select_tier_cases n)
    as [[? ->] | [[? ->] | [[? ->] | [[? ->] | [? ->]]]]].

(** Every tier carries positive base constants. *)
Lemma select_tier_positive (n : Z) :
  0 < tier_radius (_select_tier n).2
  ∧ (0 < tier_font (_select_tier n).2)%Z
  ∧ 0 < tier_padding (_select_tier n).2.
Proof.
  tier_cases n; simpl; (split; [lra | split; [lia | lra]]).
Qed.

(** C9.  The tier is decided by the union size alone through the thresholds
    15, 25, 40, 60 (first match wins, "warning" beyond), and a larger union
    never gets a larger radius, font or padding. *)
Theorem select_tier_thresholds_monotone (m n : Z) :
  (m ≤ n)%Z →
  (_select_tier n).1 = tier_name_spec n
  ∧ tier_radius (_select_tier n).2 <= tier_radius (_select_tier m).2
  ∧ (tier_font (_select_tier n).2 ≤ tier_font (_select_tier m).2)%Z
  ∧ tier_padding (_select_tier n).2 <= tier_padding (_select_tier m).2.
Proof.
  intros Hmn. split.
  - unfold tier_name_spec.
    tier_cases n; repeat case_decide; try lia; reflexivity.
  - tier_cases n; tier_cases m;
      simpl; try lia; (split; [lra | split; [lia | lra]]).
Qed.

Lemma select_tier_thresholds_monotone_witness :
  (10 ≤ 30)%Z
  ∧ (_select_tier 30).1 = tier_name_spec 30
  ∧ tier_radius (_select_tier 30).2 <= tier_radius (_select_tier 10).2
  ∧ (tier_font (_select_tier 30).2 ≤ tier_font (_select_tier 10).2)%Z
  ∧ tier_padding (_select_tier 30).2 <= tier_padding (_select_tier 10).2.
Proof.
  split; [lia | apply (select_tier_thresholds_monotone 10 30); lia].
Defined.

(** ** Geometry kernel *)

Lemma lens_G_deriv (t : R) : derivable_pt_lim lens_G t (2 * (sin t * sin t)).
Proof.
  replace (2 * (sin t * sin t)) with (1 - (cos t * cos t + sin t * (- sin t))).
  - apply (derivable_pt_lim_minus id (sin * cos)%F).
    + apply derivable_pt_lim_id.
    + apply derivable_pt_lim_mult.
      * apply derivable_pt_lim_sin.
      * apply derivable_pt_lim_cos.
  - pose proof (sin2_cos2 t) as H. unfold Rsqr in H. lra.
Qed.

Lemma lens_H_deriv (t : R) :
  derivable_pt_lim lens_H t (2 * (sin t * sin t) + 2 * (- sin t)).
Proof.
  apply (derivable_pt_lim_plus lens_G (fun t => 2 * cos t)).
  - apply lens_G_deriv.
  - apply (derivable_pt_lim_scal cos 2 t (- sin t)).
    apply derivable_pt_lim_cos.
Qed.

Lemma lens_G_increasing (s t : R) :
  0 <= s -> s < t -> t <= PI -> lens_G s < lens_G t.
Proof.
  intros Hs Hst Ht.
  destruct (MVT_cor2 lens_G (fun x => 2 * (sin x * sin x)) s t Hst) as (c & Hc & Hin).
  { intros x _. apply lens_G_deriv. }
  assert (0 < sin c) by (apply sin_gt_0; lra).
  assert (0 < 2 * (sin c * sin c)) by nra.
  assert (0 < 2 * (sin c * sin c) * (t - s)) by (apply Rmult_lt_0_compat; lra).
  lra.
Qed.

Lemma lens_H_decreasing (s t : R) :
  0 <= s -> s <= t -> t <= PI -> lens_H t <= lens_H s.
Proof.
  intros Hs Hst Ht.
  destruct (Rle_lt_or_eq_dec s t Hst) as [Hlt | ->]; [| lra].
  destruct (MVT_cor2 lens_H (fun x => 2 * (sin x * sin x) + 2 * (- sin x)) s t Hlt)
    as (c & Hc & Hin).
  { intros x _. apply lens_H_deriv. }
  assert (0 <= sin c) by (apply sin_ge_0; lra).
  assert (sin c <= 1) by (apply SIN_bound).
  assert (2 * (sin c * sin c) + 2 * (- sin c) <= 0) by nra.
  assert ((2 * (sin c * sin c) + 2 * (- sin c)) * (t - s) <= 0) by nra.
  lra.
Qed.

Lemma acos_decreasing (x y : R) :
  -1 <= x -> x < y -> y <= 1 -> acos y < acos x.
Proof.
  intros Hx Hxy Hy.
  apply cos_decreasing_0.
  - apply acos_bound.
  - apply acos_bound.
  - apply acos_bound.
  - apply acos_bound.
  - rewrite !cos_acos by lra. exact Hxy.
Qed.


Lemma ratio_bounds (R_ d : R) :
  0 < R_ -> 0 <= d <= 2 * R_ -> 0 <= d / (2 * R_) <= 1.
Proof.
  intros HR [Hd0 Hd2]. split.
  - apply Rmult_le_pos; [lra |]. left. apply Rinv_0_lt_compat. lra.
  - apply (Rmult_le_reg_r (2 * R_)); [lra |]. field_simplify; lra.
Qed.

Lemma ratio_lt_compat (R_ d1 d2 : R) :
  0 < R_ -> d1 < d2 -> d1 / (2 * R_) < d2 / (2 * R_).
Proof.
  intros HR Hd. apply Rmult_lt_compat_r; [| exact Hd].
  apply Rinv_0_lt_compat. lra.
Qed.

Lemma sqrt_chord (R_ d : R) :
  0 < R_ -> 0 <= d <= 2 * R_ ->
  sqrt (4 * R_ ^ 2 - d ^ 2) = 2 * R_ * sin (acos (d / (2 * R_))).
Proof.
  intros HR Hd.
  pose proof (ratio_bounds R_ d HR Hd) as Hq.
  rewrite sin_acos by lra.
  replace (4 * R_ ^ 2 - d ^ 2)
    with ((2 * R_) ^ 2 * (1 - (d / (2 * R_))²)).
  - rewrite sqrt_mult_alt by (apply pow2_ge_0).
    rewrite sqrt_pow2 by lra. reflexivity.
  - unfold Rsqr. field. lra.
Qed.

Lemma lens_formula_G (R_ d : R) :
  0 < R_ -> 0 <= d <= 2 * R_ ->
  lens_formula R_ d = 2 * R_ ^ 2 * lens_G (acos (d / (2 * R_))).
Proof.
  intros HR Hd. unfold lens_formula, lens_G.
  rewrite (sqrt_chord R_ d HR Hd).
  pose proof (ratio_bounds R_ d HR Hd) as Hq.
  set (t := acos (d / (2 * R_))).
  assert (Hcos : cos t = d / (2 * R_)) by (apply cos_acos; lra).
  rewrite Hcos. field. lra.
Qed.

Lemma lens_formula_decreasing (R_ d1 d2 : R) :
  0 < R_ -> 0 <= d1 -> d1 < d2 -> d2 <= 2 * R_ ->
  lens_formula R_ d2 < lens_formula R_ d1.
Proof.
  intros HR H1 H12 H2.
  rewrite !lens_formula_G by lra.
  pose proof (ratio_bounds R_ d1 HR ltac:(lra)) as Hq1.
  pose proof (ratio_bounds R_ d2 HR ltac:(lra)) as Hq2.
  pose proof (ratio_lt_compat R_ d1 d2 HR H12) as Hq.
  apply Rmult_lt_compat_l; [nra |].
  apply lens_G_increasing.
  - apply acos_bound.
  - apply acos_decreasing; lra.
  - apply acos_bound.
Qed.

Lemma lens_formula_0 (R_ : R) : 0 < R_ -> lens_formula R_ 0 = PI * R_ ^ 2.
Proof.
  intros HR. rewrite lens_formula_G by lra.
  replace (0 / (2 * R_)) with 0 by (field; lra).
  rewrite acos_0. unfold lens_G. rewrite sin_PI2, cos_PI2. field.
Qed.

Lemma lens_formula_2R (R_ : R) : 0 < R_ -> lens_formula R_ (2 * R_) = 0.
Proof.
  intros HR. rewrite lens_formula_G by lra.
  replace (2 * R_ / (2 * R_)) with 1 by (field; lra).
  rewrite acos_1. unfold lens_G. rewrite sin_0. ring.
Qed.

Lemma lens_formula_pos (R_ d : R) :
  0 < R_ -> 0 <= d < 2 * R_ -> 0 < lens_formula R_ d.
Proof.
  intros HR Hd. rewrite <- (lens_formula_2R R_ HR).
  apply lens_formula_decreasing; lra.
Qed.

Lemma lens_formula_lt_disc (R_ d : R) :
  0 < R_ -> 0 < d <= 2 * R_ -> lens_formula R_ d < PI * R_ ^ 2.
Proof.
  intros HR Hd. rewrite <- (lens_formula_0 R_ HR).
  apply lens_formula_decreasing; lra.
Qed.

Lemma lens_area_try_ok (R_ d : R) :
  0 < R_ -> 0 < d < 2 * R_ ->
  lens_area_try R_ d = Ok (Py.max 0 (lens_formula R_ d)).
Proof.
  intros HR Hd. unfold lens_area_try.
  pose proof (ratio_bounds R_ d HR ltac:(lra)) as Hq.
  rewrite truediv_ok by lra. simpl.
  rewrite math_acos_ok by lra. simpl.
  rewrite math_sqrt_ok by nra. simpl.
  reflexivity.
Qed.

Lemma calculate_lens_area_interior (R_ d : R) :
  0 < R_ -> 0 < d < 2 * R_ ->
  _calculate_lens_area R_ d = Rmax 0 (lens_formula R_ d).
Proof.
  intros HR Hd. unfold _calculate_lens_area.
  destruct (Rge_dec d (2 * R_)); [lra |].
  destruct (Rle_dec d 0); [lra |].
  rewrite lens_area_try_ok by assumption.
  apply py_max_Rmax.
Qed.

Lemma calculate_lens_area_disjoint (R_ d : R) :
  d >= 2 * R_ -> _calculate_lens_area R_ d = 0.
Proof.
  intros Hd. unfold _calculate_lens_area.
  destruct (Rge_dec d (2 * R_)); [reflexivity | contradiction].
Qed.

Lemma calculate_lens_area_concentric (R_ d : R) :
  0 < R_ -> d <= 0 -> _calculate_lens_area R_ d = PI * R_ ^ 2.
Proof.
  intros HR Hd. unfold _calculate_lens_area.
  destruct (Rge_dec d (2 * R_)); [lra |].
  destruct (Rle_dec d 0); [reflexivity | contradiction].
Qed.

Lemma calculate_lens_area_formula (R_ d : R) :
  0 < R_ -> 0 <= d <= 2 * R_ ->
  _calculate_lens_area R_ d = lens_formula R_ d.
Proof.
  intros HR [Hd0 Hd2].
  destruct (Rle_lt_or_eq_dec _ _ Hd0) as [Hpos | <-].
  - destruct (Rle_lt_or_eq_dec _ _ Hd2) as [Hlt | ->].
    + rewrite calculate_lens_area_interior by lra.
      apply Rmax_right. left. apply lens_formula_pos; lra.
    + rewrite calculate_lens_area_disjoint by lra.
      symmetry. apply lens_formula_2R. exact HR.
  - rewrite calculate_lens_area_concentric by lra.
    symmetry. apply lens_formula_0. exact HR.
Qed.

Lemma lens_formula_lipschitz (R_ d1 d2 : R) :
  0 < R_ -> 0 <= d1 -> d1 <= d2 -> d2 <= 2 * R_ ->
  lens_formula R_ d1 - lens_formula R_ d2 <= 2 * R_ * (d2 - d1).
Proof.
  intros HR H1 H12 H2.
  rewrite !lens_formula_G by lra.
  pose proof (ratio_bounds R_ d1 HR ltac:(lra)) as Hq1.
  pose proof (ratio_bounds R_ d2 HR ltac:(lra)) as Hq2.
  set (t1 := acos (d1 / (2 * R_))).
  set (t2 := acos (d2 / (2 * R_))).
  assert (Hc1 : cos t1 = d1 / (2 * R_)) by (apply cos_acos; lra).
  assert (Hc2 : cos t2 = d2 / (2 * R_)) by (apply cos_acos; lra).
  assert (Ht : t2 <= t1).
  { destruct (Rle_lt_or_eq_dec _ _ H12) as [Hlt | ->]; [| unfold t1, t2; lra].
    left. apply acos_decreasing; [lra | | lra].
    apply ratio_lt_compat; assumption. }
  pose proof (lens_H_decreasing t2 t1 (proj1 (acos_bound _)) Ht
                (proj2 (acos_bound _))) as HH.
  unfold lens_H in HH. rewrite Hc1, Hc2 in HH.
  assert (Hd1 : d1 = 2 * R_ * (d1 / (2 * R_))) by (field; lra).
  assert (Hd2 : d2 = 2 * R_ * (d2 / (2 * R_))) by (field; lra).
  assert (HG : lens_G t1 - lens_G t2 <= 2 * (d2 / (2 * R_) - d1 / (2 * R_))) by lra.
  assert (0 < 2 * R_ ^ 2) by nra.
  replace (2 * R_ * (d2 - d1))
    with (2 * R_ ^ 2 * (2 * (d2 / (2 * R_) - d1 / (2 * R_)))) by (field; lra).
  nra.
Qed.



Lemma lens_area_nonincreasing (R_ d1 d2 : R) :
  0 < R_ -> 0 <= d1 -> d1 <= d2 -> d2 <= 2 * R_ ->
  _calculate_lens_area R_ d2 <= _calculate_lens_area R_ d1.
Proof.
  intros HR H1 H12 H2.
  rewrite !calculate_lens_area_formula by lra.
  destruct (Rle_lt_or_eq_dec _ _ H12) as [Hlt | ->]; [| lra].
  left. apply lens_formula_decreasing; lra.
Qed.

Lemma lens_area_lipschitz (R_ d1 d2 : R) :
  0 < R_ -> 0 <= d1 <= 2 * R_ -> 0 <= d2 <= 2 * R_ ->
  Rabs (_calculate_lens_area R_ d1 - _calculate_lens_area R_ d2)
    <= 2 * R_ * Rabs (d1 - d2).
Proof.
  intros HR H1 H2.
  destruct (Rle_dec d1 d2) as [Hle | Hgt].
  - pose proof (lens_area_nonincreasing R_ d1 d2 HR ltac:(lra) Hle ltac:(lra)).
    pose proof (lens_formula_lipschitz R_ d1 d2 HR ltac:(lra) Hle ltac:(lra)).
    rewrite <- !calculate_lens_area_formula in * by lra.
    rewrite Rabs_pos_eq by lra.
    rewrite Rabs_left1 by lra. lra.
  - pose proof (lens_area_nonincreasing R_ d2 d1 HR ltac:(lra) ltac:(lra) ltac:(lra)).
    pose proof (lens_formula_lipschitz R_ d2 d1 HR ltac:(lra) ltac:(lra) ltac:(lra)).
    rewrite <- !calculate_lens_area_formula in * by lra.
    rewrite Rabs_left1 by lra.
    rewrite Rabs_pos_eq by lra. lra.
Qed.

(** For a radius up to [10^150] the squares of the kernel are in range and
    the kernel with the overflow of [**] is the kernel above. *)
Lemma lens_area_try_in_range (R_ d : R) :
  0 < R_ → R_ <= 10 ^ 150 → 0 < d < 2 * R_ →
  Overflow.lens_area_try R_ d = lens_area_try R_ d.
Proof.
  intros HR Hbound Hd. unfold Overflow.lens_area_try, lens_area_try.
  rewrite !(pow2_ok R_) by (apply (square_in_range R_); lra).
  rewrite (pow2_ok d) by (apply (square_in_range R_); lra).
  reflexivity.
Qed.

Lemma calculate_lens_area_in_range (R_ d : R) :
  0 < R_ → R_ <= 10 ^ 150 →
  Overflow._calculate_lens_area R_ d = Ok (_calculate_lens_area R_ d).
Proof.
  intros HR Hbound. unfold Overflow._calculate_lens_area, _calculate_lens_area.
  destruct (Rge_dec d (2 * R_)); [reflexivity |].
  destruct (Rle_dec d 0).
  - rewrite pow2_ok by (apply (square_in_range R_); lra). reflexivity.
  - rewrite lens_area_try_in_range by lra.
    destruct (lens_area_try R_ d); reflexivity.
Qed.

(** C4 (amended).  For a radius in [(0, 10^150]] the lens area is 0 from
    separation [2R] on, [PI * R ^ 2] up to separation 0, and in between the
    closed form [2 R² acos (d / 2R) - (d / 2) sqrt (4 R² - d²)] clamped at
    0; in particular it is [PI * R ^ 2] at 0 and 0 at [2R].  No branch
    raises. *)
Theorem lens_area_piecewise (R_ d : R) :
  0 < R_ → R_ <= 10 ^ 150 →
  (d >= 2 * R_ → Overflow._calculate_lens_area R_ d = Ok 0)
  ∧ (d <= 0 → Overflow._calculate_lens_area R_ d = Ok (PI * R_ ^ 2))
  ∧ (0 < d < 2 * R_ →
     Overflow._calculate_lens_area R_ d = Ok (Rmax 0 (lens_formula R_ d)))
  ∧ Overflow._calculate_lens_area R_ 0 = Ok (PI * R_ ^ 2)
  ∧ Overflow._calculate_lens_area R_ (2 * R_) = Ok 0.
Proof.
  intros HR Hbound. rewrite !calculate_lens_area_in_range by assumption.
  split; [intros Hd; rewrite calculate_lens_area_disjoint by exact Hd;
          reflexivity |].
  split; [intros Hd; rewrite calculate_lens_area_concentric by assumption;
          reflexivity |].
  split; [intros Hd; rewrite calculate_lens_area_interior by assumption;
          reflexivity |].
  split.
  - rewrite calculate_lens_area_concentric by lra. reflexivity.
  - rewrite calculate_lens_area_disjoint by lra. reflexivity.
Qed.

Lemma lens_area_piecewise_witness :
  0 < 2 ∧ 2 <= 10 ^ 150
  ∧ Overflow._calculate_lens_area 2 5 = Ok 0
  ∧ Overflow._calculate_lens_area 2 (-1) = Ok (PI * 2 ^ 2)
  ∧ Overflow._calculate_lens_area 2 1 = Ok (Rmax 0 (lens_formula 2 1))
  ∧ Overflow._calculate_lens_area 2 0 = Ok (PI * 2 ^ 2)
  ∧ Overflow._calculate_lens_area 2 (2 * 2) = Ok 0.
Proof.
  assert (Hbound : 2 <= 10 ^ 150).
  { apply Rle_trans with (10 ^ 1); [lra |].
    apply Rle_pow; [lra | lia]. }
  split; [lra |]. split; [exact Hbound |].
  split; [apply (lens_area_piecewise 2 5); [lra | exact Hbound | lra] |].
  split; [apply (lens_area_piecewise 2 (-1)); [lra | exact Hbound | lra] |].
  split; [apply (lens_area_piecewise 2 1); [lra | exact Hbound | lra] |].
  apply (lens_area_piecewise 2 1); [lra | exact Hbound].
Defined.

(** C4 as stated, for every positive radius, fails: at [R = 10^200] the
    square is out of range.  With [d = 0] the [OverflowError] reaches the
    caller instead of [PI * R ^ 2]; with [d = 1] the bare [except] turns it
    into the value 0 although the closed form is positive. *)
Lemma lens_area_overflows :
  0 < 10 ^ 200
  ∧ Overflow._calculate_lens_area (10 ^ 200) 0 = Raise OverflowError
  ∧ Overflow._calculate_lens_area (10 ^ 200) 1 = Ok 0
  ∧ 0 < Rmax 0 (lens_formula (10 ^ 200) 1).
Proof.
  assert (HR : 0 < 10 ^ 200) by (apply pow_lt; lra).
  assert (Hbig : 1 < 10 ^ 200).
  { apply Rlt_le_trans with (10 ^ 1); [lra |].
    apply Rle_pow; [lra | lia]. }
  split; [exact HR |].
  unfold Overflow._calculate_lens_area, Overflow.lens_area_try.
  rewrite !pow2_overflow by exact float_overflow_below.
  split.
  - destruct (Rge_dec 0 (2 * 10 ^ 200)); [lra |].
    destruct (Rle_dec 0 0); [reflexivity | lra].
  - split.
    + destruct (Rge_dec 1 (2 * 10 ^ 200)); [lra |].
      destruct (Rle_dec 1 0); [lra | reflexivity].
    + apply Rlt_le_trans with (lens_formula (10 ^ 200) 1); [| apply Rmax_r].
      apply lens_formula_pos; lra.
Qed.

(** ** Separation solver *)

Section bisection.

Variables R_ required_area tolerance : R.

Lemma bisection_loop_last (n : nat) (d_min d_max : R) (d_mid : option R) :
  bisection_loop R_ required_area tolerance n d_min d_max d_mid =
  match last (bisection_midpoints R_ required_area tolerance n d_min d_max),
        d_mid with
  | Some d, _ => Ok d
  | None, Some d => Ok d
  | None, None => Raise UnboundLocalError
  end.
Proof.
  revert d_min d_max d_mid.
  induction n as [| n IH]; intros d_min d_max d_mid; simpl.
  - destruct d_mid; reflexivity.
  - destruct (Rlt_dec _ tolerance); [reflexivity |].
    destruct (Rgt_dec _ required_area); rewrite IH, last_cons;
      destruct (last _); reflexivity.
Qed.


Lemma bisection_midpoints_nonempty (n : nat) (d_min d_max : R) :
  (1 ≤ n)%nat →
  (1 ≤ length (bisection_midpoints R_ required_area tolerance n d_min d_max))%nat.
Proof.
  destruct n as [| n]; [lia |]. intros _. simpl.
  destruct (Rlt_dec _ tolerance); [simpl; lia |].
  destruct (Rgt_dec _ required_area); simpl; lia.
Qed.



End bisection.

(** The bisection invariant: the separation [d0] whose area is the target
    stays between the bounds, so the returned midpoint either meets the
    tolerance or is within the final interval width of [d0]. *)
Lemma bisection_loop_converges (R_ d0 tolerance : R) (n : nat) :
  0 < R_ → 0 < tolerance →
  ∀ (d_min d_max : R) (d_mid : option R),
    0 <= d_min → d_min <= d0 → d0 <= d_max → d_max <= 2 * R_ →
    match d_mid with
    | Some d => d_min <= d <= d_max
    | None => (1 ≤ n)%nat
    end →
    ∃ d', bisection_loop R_ (_calculate_lens_area R_ d0) tolerance n
            d_min d_max d_mid = Ok d'
          ∧ d_min <= d' <= d_max
          ∧ (Rabs (_calculate_lens_area R_ d' - _calculate_lens_area R_ d0)
               < tolerance
             ∨ Rabs (d' - d0) <= (d_max - d_min) / 2 ^ n).
Proof.
  intros HR Htol.
  induction n as [| n IH]; intros d_min d_max d_mid H0 Hlo Hhi H2 Hmid.
  - destruct d_mid as [d |]; [| lia].
    exists d. split; [reflexivity |]. split; [exact Hmid |]. right.
    simpl. unfold Rabs. destruct (Rcase_abs (d - d0)); lra.
  - simpl.
    set (m := (d_min + d_max) / 2).
    assert (Hm : d_min <= m <= d_max) by (unfold m; lra).
    assert (H2n : 0 < 2 ^ n) by (apply pow_lt; lra).
    destruct (Rlt_dec _ tolerance) as [Hmet | Hnot].
    + exists m. split; [reflexivity |]. split; [exact Hm |]. left. exact Hmet.
    + destruct (Rgt_dec _ _) as [Hgt | Hngt].
      * assert (Hmd : m < d0).
        { destruct (Rlt_dec m d0) as [? | Hge]; [assumption | exfalso].
          pose proof (lens_area_nonincreasing R_ d0 m HR ltac:(lra) ltac:(lra)
                        ltac:(lra)). lra. }
        destruct (IH m d_max (Some m)) as (d' & Hd' & Hin & Hres); try lra.
        exists d'. split; [exact Hd' |]. split; [lra |].
        destruct Hres as [? | Hres]; [left; assumption | right].
        replace ((d_max - d_min) / (2 * 2 ^ n)) with ((d_max - m) / 2 ^ n)
          by (unfold m; field; lra).
        exact Hres.
      * assert (Hmd : d0 <= m).
        { destruct (Rle_dec d0 m) as [? | Hlt]; [assumption | exfalso].
          pose proof (lens_area_nonincreasing R_ m d0 HR ltac:(lra) ltac:(lra)
                        ltac:(lra)) as Hmono.
          apply Hnot.
          replace (_calculate_lens_area R_ m) with (_calculate_lens_area R_ d0)
            by lra.
          rewrite Rminus_diag, Rabs_R0. exact Htol. }
        destruct (IH d_min m (Some m)) as (d' & Hd' & Hin & Hres); try lra.
        exists d'. split; [exact Hd' |]. split; [lra |].
        destruct Hres as [? | Hres]; [left; assumption | right].
        replace ((d_max - d_min) / (2 * 2 ^ n)) with ((m - d_min) / 2 ^ n)
          by (unfold m; field; lra).
        exact Hres.
Qed.

Lemma solve_lens_separation_guard (R_ required_area tolerance : R)
    (max_iterations : Z) :
  required_area > PI * R_ ^ 2 * 0.95 →
  _solve_lens_separation R_ required_area tolerance max_iterations = Ok 0.
Proof.
  intros Hreq. unfold _solve_lens_separation.
  destruct (Rgt_dec _ _); [| contradiction].
  f_equal. lra.
Qed.

Lemma solve_lens_separation_bisect (R_ required_area tolerance : R)
    (max_iterations : Z) :
  ¬ required_area > PI * R_ ^ 2 * 0.95 →
  _solve_lens_separation R_ required_area tolerance max_iterations =
  bisection_loop R_ required_area tolerance (Z.to_nat max_iterations)
    0 (2 * R_) None.
Proof.
  intros Hreq. unfold _solve_lens_separation.
  destruct (Rgt_dec _ _); [contradiction | reflexivity].
Qed.

Lemma bisection_midpoints_interior (R_ required_area tolerance : R) (n : nat)
    (d_min d_max : R) :
  d_min < d_max →
  Forall (λ d, d_min < d < d_max)
    (bisection_midpoints R_ required_area tolerance n d_min d_max).
Proof.
  revert d_min d_max.
  induction n as [| n IH]; intros d_min d_max Hlt; simpl; [constructor |].
  destruct (Rlt_dec _ tolerance).
  - constructor; [lra | constructor].
  - destruct (Rgt_dec _ required_area); constructor; try lra.
    + eapply Forall_impl; [apply IH; lra |]. simpl. intros x [? ?]; split; lra.
    + eapply Forall_impl; [apply IH; lra |]. simpl. intros x [? ?]; split; lra.
Qed.

(** When the guard does not fire the solver returns a separation strictly
    between 0 and [2R], so the lens is neither empty nor the whole disc. *)
Lemma solve_lens_separation_interior (R_ required_area tolerance : R)
    (max_iterations : Z) :
  0 < R_ → (0 < max_iterations)%Z →
  required_area <= PI * R_ ^ 2 * 0.95 →
  ∃ d, _solve_lens_separation R_ required_area tolerance max_iterations = Ok d
       ∧ 0 < d < 2 * R_.
Proof.
  intros HR Hn Hfit.
  rewrite solve_lens_separation_bisect by lra.
  rewrite bisection_loop_last.
  pose proof (bisection_midpoints_nonempty R_ required_area tolerance
                (Z.to_nat max_iterations) 0 (2 * R_) ltac:(lia)) as Hne.
  pose proof (bisection_midpoints_interior R_ required_area tolerance
                (Z.to_nat max_iterations) 0 (2 * R_) ltac:(lra)) as Hall.
  destruct (last _) as [d |] eqn:Hlast.
  - exists d. split; [reflexivity |].
    apply last_Some_elem_of in Hlast.
    rewrite Forall_forall in Hall. apply Hall, Hlast.
  - apply last_None in Hlast. rewrite Hlast in Hne. simpl in Hne. lia.
Qed.

(** The separation the solver returns is below [2R]: the two circles of a
    computed layout always overlap. *)
Lemma solve_lens_separation_overlap (R_ required_area tolerance : R)
    (max_iterations : Z) :
  0 < R_ → (0 < max_iterations)%Z →
  ∃ d, _solve_lens_separation R_ required_area tolerance max_iterations = Ok d
       ∧ 0 <= d < 2 * R_.
Proof.
  intros HR Hn.
  destruct (Rgt_dec required_area (PI * R_ ^ 2 * 0.95)) as [Hbig | Hfit].
  - exists 0. split; [apply solve_lens_separation_guard; exact Hbig | lra].
  - destruct (solve_lens_separation_interior R_ required_area tolerance
                max_iterations HR Hn ltac:(lra)) as (d & Hd & Hin).
    exists d. split; [exact Hd | lra].
Qed.














(** ** Region sizer *)

Lemma calculate_lens_dimensions_ok (R_ d : R) :
  0 < R_ → 0 <= d <= 2 * R_ →
  ∃ w h, _calculate_lens_dimensions R_ d = Ok (w, h) ∧ 0 <= w ∧ 0 <= h.
Proof.
  intros HR Hd. unfold _calculate_lens_dimensions.
  destruct (Rge_dec d (2 * R_)).
  - exists 0, 0. split; [reflexivity | lra].
  - assert (Hh : 0 <= R_ ^ 2 - (d / 2) ^ 2).
    { replace (R_ ^ 2 - (d / 2) ^ 2) with ((R_ - d / 2) * (R_ + d / 2)) by ring.
      apply Rmult_le_pos; lra. }
    rewrite math_sqrt_ok by exact Hh. simpl.
    eexists _, _. split; [reflexivity |]. split; [lra |].
    apply Rmult_le_pos; [lra | apply sqrt_pos].
Qed.

Lemma calculate_lens_parameters_ok (intersection_size : Z)
    (base_radius : R) (base_font : Z) (base_padding : R) :
  0 < base_radius →
  ∃ lp, _calculate_lens_parameters intersection_size base_radius base_font
          base_padding = Ok lp
        ∧ lp_font_size lp = base_font
        ∧ lp_element_size lp = IZR base_font / FONT_TO_MANIM_CONVERSION
        ∧ lp_padding lp = base_padding
        ∧ 0 <= lp_circle_separation lp <= 2 * base_radius.
Proof.
  intros HR. unfold _calculate_lens_parameters.
  match goal with
  | |- context [_solve_lens_separation ?r ?a ?t ?n] =>
      destruct (solve_lens_separation_overlap r a t n HR) as (d & -> & Hd)
  end.
  { unfold default_max_iterations. lia. }
  simpl.
  destruct (calculate_lens_dimensions_ok base_radius d HR ltac:(lra))
    as (w & h & -> & Hw & Hh).
  simpl. eexists. split; [reflexivity |]. simpl. repeat split; lra.
Qed.

Lemma calculate_lens_parameters_area (intersection_size : Z)
    (base_radius : R) (base_font : Z) (base_padding : R) (lp : lens_params) :
  _calculate_lens_parameters intersection_size base_radius base_font
    base_padding = Ok lp →
  _solve_lens_separation base_radius
    (if decide (intersection_size > 0)%Z
     then IZR intersection_size
          * (IZR base_font / FONT_TO_MANIM_CONVERSION + base_padding) ^ 2
          / PACKING_EFFICIENCY * SAFETY_MARGIN
     else 0.1)
    default_tolerance default_max_iterations = Ok (lp_circle_separation lp)
  ∧ lp_area lp = _calculate_lens_area base_radius (lp_circle_separation lp).
Proof.
  unfold _calculate_lens_parameters.
  destruct (_solve_lens_separation _ _ _ _) as [d | ?]; simpl; [| discriminate].
  destruct (_calculate_lens_dimensions _ _) as [[w h] | ?]; simpl;
    [| discriminate].
  intros [= <-]. simpl. split; reflexivity.
Qed.

Lemma calc_radius_ok (element_footprint : R) (n_elements : Z) :
  0 <= element_footprint → (0 ≤ n_elements)%Z →
  ∃ r, calc_radius element_footprint n_elements = Ok r ∧ 0 <= r.
Proof.
  intros Hfp Hn. unfold calc_radius.
  destruct (decide (n_elements = 0)%Z).
  - exists 0.1. split; [reflexivity | lra].
  - assert (Hn' : 0 <= IZR n_elements) by (apply IZR_le; exact Hn).
    assert (Harea :
      0 <= IZR n_elements * element_footprint / PACKING_EFFICIENCY / PI).
    { pose proof PI_RGT_0. unfold PACKING_EFFICIENCY.
      apply Rmult_le_pos; [| left; apply Rinv_0_lt_compat; lra].
      apply Rmult_le_pos; [| left; apply Rinv_0_lt_compat; lra].
      apply Rmult_le_pos; assumption. }
    rewrite math_sqrt_ok by exact Harea.
    eexists. split; [reflexivity | apply sqrt_pos].
Qed.

Lemma calculate_crescent_parameters_ok (a_only_size b_only_size : Z)
    (base_radius : R) (base_font : Z) (base_padding : R) :
  (0 ≤ a_only_size)%Z → (0 ≤ b_only_size)%Z →
  0 < base_radius → (0 < base_font)%Z → 0 < base_padding →
  ∃ cp, _calculate_crescent_parameters a_only_size b_only_size base_radius
          base_font base_padding = Ok cp
        ∧ 0 <= cp_element_size cp ∧ 0 < cp_padding cp.
Proof.
  intros Ha Hb HR Hfont Hpad. unfold _calculate_crescent_parameters.
  assert (Hfont' : 0 < IZR base_font) by (apply IZR_lt; exact Hfont).
  assert (Hes : 0 < IZR base_font / FONT_TO_MANIM_CONVERSION).
  { apply Rdiv_lt_0_compat; [exact Hfont' | unfold FONT_TO_MANIM_CONVERSION; lra]. }
  match goal with
  | |- context [calc_radius ?fp a_only_size] =>
      destruct (calc_radius_ok fp a_only_size (pow2_ge_0 _) Ha)
        as (r_a & -> & Hra);
      destruct (calc_radius_ok fp b_only_size (pow2_ge_0 _) Hb)
        as (r_b & -> & Hrb)
  end.
  simpl.
  destruct (Rgt_dec (Py.max r_a r_b) (base_radius * 0.65)) as [Hbig | Hfit].
  - assert (Hmax : 0 < Py.max r_a r_b) by lra.
    rewrite truediv_ok by lra. simpl.
    set (scale_factor := base_radius * 0.65 / Py.max r_a r_b * 0.9).
    assert (Hscale : 0 < scale_factor).
    { unfold scale_factor. apply Rmult_lt_0_compat; [| lra].
      apply Rdiv_lt_0_compat; lra. }
    assert (Hcf : (0 ≤ Py.int (IZR base_font * scale_factor))%Z).
    { apply int_nonneg. apply Rmult_le_pos; lra. }
    match goal with
    | |- context [calc_radius ?fp a_only_size] =>
        destruct (calc_radius_ok fp a_only_size (pow2_ge_0 _) Ha)
          as (r_a' & -> & _);
        destruct (calc_radius_ok fp b_only_size (pow2_ge_0 _) Hb)
          as (r_b' & -> & _)
    end.
    simpl. eexists. split; [reflexivity |]. simpl. split.
    + apply Rmult_le_pos; [apply IZR_le; exact Hcf |].
      left. apply Rinv_0_lt_compat. unfold FONT_TO_MANIM_CONVERSION. lra.
    + apply Rmult_lt_0_compat; assumption.
  - eexists. split; [reflexivity |]. simpl. split; lra.
Qed.

Lemma int_le (x : R) : 0 <= x → IZR (Py.int x) <= x.
Proof.
  intros Hx. unfold Py.int. destruct (Rle_dec 0 x); [| contradiction].
  apply Zfloor_bound.
Qed.

Lemma calc_radius_eq (element_footprint : R) (n_elements : Z) :
  0 <= element_footprint → (0 ≤ n_elements)%Z →
  calc_radius element_footprint n_elements =
  Ok (if decide (n_elements = 0)%Z then 0.1
      else sqrt (IZR n_elements * element_footprint / PACKING_EFFICIENCY / PI)).
Proof.
  intros Hfp Hn. unfold calc_radius.
  destruct (decide (n_elements = 0)%Z); [reflexivity |].
  apply math_sqrt_ok.
  assert (Hn' : 0 <= IZR n_elements) by (apply IZR_le; exact Hn).
  pose proof PI_RGT_0. unfold PACKING_EFFICIENCY.
  apply Rmult_le_pos; [| left; apply Rinv_0_lt_compat; lra].
  apply Rmult_le_pos; [| left; apply Rinv_0_lt_compat; lra].
  apply Rmult_le_pos; assumption.
Qed.

(** Shrinking the footprint by the square of a factor shrinks the radius of
    a non-empty crescent by the factor. *)
Lemma calc_radius_scale (fp fp' s : R) (n : Z) (r r' : R) :
  0 <= s → 0 <= fp → 0 <= fp' → fp' <= s ^ 2 * fp → (0 < n)%Z →
  calc_radius fp n = Ok r → calc_radius fp' n = Ok r' →
  r' <= s * r.
Proof.
  intros Hs Hfp Hfp' Hle Hn.
  assert (Hn' : 0 < IZR n) by (apply IZR_lt; exact Hn).
  rewrite !calc_radius_eq by (assumption || lia).
  destruct (decide (n = 0)%Z); [lia |].
  intros [= <-] [= <-].
  pose proof PI_RGT_0 as Hpi.
  set (k := IZR n / PACKING_EFFICIENCY / PI).
  assert (Hk : 0 < k).
  { unfold k, PACKING_EFFICIENCY.
    apply Rdiv_lt_0_compat; [apply Rdiv_lt_0_compat; lra | exact Hpi]. }
  replace (IZR n * fp' / PACKING_EFFICIENCY / PI) with (k * fp')
    by (unfold k, PACKING_EFFICIENCY; field; lra).
  replace (IZR n * fp / PACKING_EFFICIENCY / PI) with (k * fp)
    by (unfold k, PACKING_EFFICIENCY; field; lra).
  rewrite <- (sqrt_pow2 s Hs) at 1.
  rewrite <- sqrt_mult_alt by apply pow2_ge_0.
  apply sqrt_le_1_alt. nra.
Qed.

Lemma crescent_parameters_fit_aux (a_only_size b_only_size : Z)
    (base_radius : R) (base_font : Z) (base_padding : R) :
  (0 ≤ a_only_size)%Z → (0 ≤ b_only_size)%Z →
  0.1 <= base_radius * 0.65 → (0 ≤ base_font)%Z → 0 <= base_padding →
  ∃ cp,
    _calculate_crescent_parameters a_only_size b_only_size base_radius
      base_font base_padding = Ok cp
    ∧ 0 <= a_only (cp_radii cp) <= base_radius * 0.65
    ∧ 0 <= b_only (cp_radii cp) <= base_radius * 0.65
    ∧ (0 ≤ cp_font_size cp)%Z
    ∧ 0 <= cp_padding cp
    ∧ cp_element_size cp = IZR (cp_font_size cp) / FONT_TO_MANIM_CONVERSION
    ∧ (cp_font_size cp = base_font ∧ cp_padding cp = base_padding
       ∨ IZR (cp_font_size cp) <= 0.9 * IZR base_font
         ∧ cp_padding cp <= 0.9 * base_padding).
Proof.
  intros Ha Hb HR Hfont Hpad. unfold _calculate_crescent_parameters.
  assert (Hfont' : 0 <= IZR base_font) by (apply IZR_le; exact Hfont).
  set (es := IZR base_font / FONT_TO_MANIM_CONVERSION).
  assert (Hes : 0 <= es).
  { unfold es, FONT_TO_MANIM_CONVERSION. apply Rmult_le_pos; [exact Hfont' |].
    left. apply Rinv_0_lt_compat. lra. }
  set (fp := (es + base_padding) ^ 2).
  destruct (calc_radius_ok fp a_only_size (pow2_ge_0 _) Ha)
    as (r_a & Hra & Hra0).
  destruct (calc_radius_ok fp b_only_size (pow2_ge_0 _) Hb)
    as (r_b & Hrb & Hrb0).
  rewrite Hra, Hrb. cbn [mbind result_bind].
  rewrite !py_max_Rmax.
  pose proof (Rmax_l r_a r_b) as Hla. pose proof (Rmax_r r_a r_b) as Hlb.
  set (M := Rmax r_a r_b) in *.
  destruct (Rgt_dec M (base_radius * 0.65)) as [Hbig | Hfit].
  - rewrite truediv_ok by lra. cbn [mbind result_bind].
    set (s := base_radius * 0.65 / M * 0.9).
    assert (HM : 0 < M) by lra.
    assert (Hq : 0 < base_radius * 0.65 / M < 1).
    { split; [apply Rdiv_lt_0_compat; lra |].
      apply (Rmult_lt_reg_r M); [exact HM |].
      replace (base_radius * 0.65 / M * M) with (base_radius * 0.65)
        by (field; lra).
      lra. }
    assert (Hs : 0 < s <= 0.9) by (unfold s; lra).
    assert (HsM : s * M <= base_radius * 0.65).
    { unfold s.
      replace (base_radius * 0.65 / M * 0.9 * M)
        with (base_radius * 0.65 * 0.9) by (field; lra).
      lra. }
    assert (Hfs : 0 <= IZR base_font * s) by (apply Rmult_le_pos; lra).
    pose proof (int_nonneg _ Hfs) as Hcf0.
    pose proof (int_le _ Hfs) as Hcf.
    set (cf := Py.int (IZR base_font * s)) in *.
    assert (Hcf0' : 0 <= IZR cf) by (apply IZR_le; exact Hcf0).
    set (es' := IZR cf / FONT_TO_MANIM_CONVERSION).
    assert (Hes' : 0 <= es' <= s * es).
    { unfold es', es, FONT_TO_MANIM_CONVERSION. lra. }
    assert (Hps : 0 <= base_padding * s) by (apply Rmult_le_pos; lra).
    set (fp' := (es' + base_padding * s) ^ 2).
    assert (Hfp' : fp' <= s ^ 2 * fp).
    { unfold fp', fp. nra. }
    destruct (calc_radius_ok fp' a_only_size (pow2_ge_0 _) Ha)
      as (r_a' & Hra' & Hra0').
    destruct (calc_radius_ok fp' b_only_size (pow2_ge_0 _) Hb)
      as (r_b' & Hrb' & Hrb0').
    rewrite Hra', Hrb'. cbn [mbind result_bind].
    eexists. split; [reflexivity |]. simpl.
    assert (Hbound : ∀ n r r', (0 ≤ n)%Z →
      calc_radius fp n = Ok r → calc_radius fp' n = Ok r' → r <= M →
      r' <= base_radius * 0.65).
    { intros n r r' Hn Hr Hr' HrM.
      destruct (decide (n = 0)%Z) as [-> | Hnz].
      - unfold calc_radius in Hr'. simpl in Hr'. injection Hr' as <-. lra.
      - pose proof (calc_radius_scale fp fp' s n r r' ltac:(lra)
                      (pow2_ge_0 _) (pow2_ge_0 _) Hfp' ltac:(lia) Hr Hr') as Hle.
        assert (s * r <= s * M) by (apply Rmult_le_compat_l; lra).
        lra. }
    split; [split; [exact Hra0' |] |].
    { exact (Hbound a_only_size r_a r_a' Ha Hra Hra' Hla). }
    split; [split; [exact Hrb0' |] |].
    { exact (Hbound b_only_size r_b r_b' Hb Hrb Hrb' Hlb). }
    split; [exact Hcf0 |]. split; [exact Hps |].
    split; [reflexivity |].
    right. split; [nra | nra].
  - eexists. split; [reflexivity |]. simpl.
    split; [lra |]. split; [lra |]. split; [exact Hfont |].
    split; [exact Hpad |]. split; [reflexivity |].
    left. split; reflexivity.
Qed.

Lemma calculate_crescent_parameters_radii (a_only_size b_only_size : Z)
    (base_radius : R) (base_font : Z) (base_padding : R)
    (cp : crescent_params) :
  _calculate_crescent_parameters a_only_size b_only_size base_radius
    base_font base_padding = Ok cp →
  calc_radius ((cp_element_size cp + cp_padding cp) ^ 2) a_only_size
    = Ok (a_only (cp_radii cp))
  ∧ calc_radius ((cp_element_size cp + cp_padding cp) ^ 2) b_only_size
    = Ok (b_only (cp_radii cp)).
Proof.
  unfold _calculate_crescent_parameters.
  set (fp := (IZR base_font / FONT_TO_MANIM_CONVERSION + base_padding) ^ 2).
  destruct (calc_radius fp a_only_size) as [r_a | ?] eqn:Ha;
    cbn [mbind result_bind]; [| discriminate].
  destruct (calc_radius fp b_only_size) as [r_b | ?] eqn:Hb;
    cbn [mbind result_bind]; [| discriminate].
  destruct (Rgt_dec _ _).
  - destruct (Py.truediv _ _) as [q | ?]; cbn [mbind result_bind];
      [| discriminate].
    match goal with
    | |- (calc_radius ?fp' a_only_size ≫= _) = _ → _ =>
        destruct (calc_radius fp' a_only_size) as [r_a' | ?] eqn:Ha';
          cbn [mbind result_bind]; [| discriminate];
        destruct (calc_radius fp' b_only_size) as [r_b' | ?] eqn:Hb';
          cbn [mbind result_bind]; [| discriminate]
    end.
    intros [= <-]. cbn [cp_element_size cp_padding cp_radii a_only b_only].
    split; assumption.
  - intros [= <-]. cbn [cp_element_size cp_padding cp_radii a_only b_only].
    split; assumption.
Qed.

(** Radii that fit leave the font as it is. *)
Lemma crescent_font_kept (a_only_size b_only_size : Z)
    (base_radius : R) (base_font : Z) (base_padding : R)
    (cp : crescent_params) (r_a r_b : R) :
  calc_radius
    ((IZR base_font / FONT_TO_MANIM_CONVERSION + base_padding) ^ 2)
    a_only_size = Ok r_a →
  calc_radius
    ((IZR base_font / FONT_TO_MANIM_CONVERSION + base_padding) ^ 2)
    b_only_size = Ok r_b →
  r_a <= base_radius * 0.65 → r_b <= base_radius * 0.65 →
  _calculate_crescent_parameters a_only_size b_only_size base_radius
    base_font base_padding = Ok cp →
  cp_font_size cp = base_font.
Proof.
  intros Ha Hb Hra Hrb. unfold _calculate_crescent_parameters.
  rewrite Ha, Hb. cbn [mbind result_bind]. rewrite py_max_Rmax.
  destruct (Rgt_dec _ _) as [Hbig | _].
  - exfalso. pose proof (Rmax_lub _ _ _ Hra Hrb). lra.
  - intros [= <-]. reflexivity.
Qed.

(** A radius that does not fit brings the font down to at most 90% of the
    base font. *)
Lemma crescent_font_shrinks (a_only_size b_only_size : Z)
    (base_radius : R) (base_font : Z) (base_padding : R)
    (cp : crescent_params) (r_a : R) :
  (0 ≤ a_only_size)%Z → (0 ≤ b_only_size)%Z →
  0.1 <= base_radius * 0.65 → (0 ≤ base_font)%Z → 0 <= base_padding →
  calc_radius
    ((IZR base_font / FONT_TO_MANIM_CONVERSION + base_padding) ^ 2)
    a_only_size = Ok r_a →
  base_radius * 0.65 < r_a →
  _calculate_crescent_parameters a_only_size b_only_size base_radius
    base_font base_padding = Ok cp →
  IZR (cp_font_size cp) <= 0.9 * IZR base_font.
Proof.
  intros Ha Hb HR Hfont Hpad Hcalc Hbig Hcp.
  destruct (crescent_parameters_fit_aux a_only_size b_only_size base_radius
              base_font base_padding Ha Hb HR Hfont Hpad)
    as (cp' & Hcp' & Hra & _ & _ & _ & Hes & Hshrink).
  rewrite Hcp in Hcp'. injection Hcp' as <-.
  destruct Hshrink as [[Hf Hp] | [Hf _]]; [| exact Hf].
  exfalso.
  apply calculate_crescent_parameters_radii in Hcp as [Hrad _].
  rewrite Hes, Hf, Hp, Hcalc in Hrad. injection Hrad as Hrad. lra.
Qed.

(** ** Layout *)

Lemma calculate_layout_inv (set_a set_b : gset Z) (layout : VennLayout) :
  calculate_layout set_a set_b = Ok layout →
  ∃ lens crescent,
    _calculate_lens_parameters (Z.of_nat (size (set_a ∩ set_b)))
      (tier_radius (_select_tier (Z.of_nat (size (set_a ∪ set_b)))).2)
      (tier_font (_select_tier (Z.of_nat (size (set_a ∪ set_b)))).2)
      (tier_padding (_select_tier (Z.of_nat (size (set_a ∪ set_b)))).2)
      = Ok lens
    ∧ _calculate_crescent_parameters
        (Z.of_nat (size (set_a ∖ set_b))) (Z.of_nat (size (set_b ∖ set_a)))
        (tier_radius (_select_tier (Z.of_nat (size (set_a ∪ set_b)))).2)
        (tier_font (_select_tier (Z.of_nat (size (set_a ∪ set_b)))).2)
        (tier_padding (_select_tier (Z.of_nat (size (set_a ∪ set_b)))).2)
        = Ok crescent
    ∧ union_size layout = Z.of_nat (size (set_a ∪ set_b))
    ∧ intersection_size layout = Z.of_nat (size (set_a ∩ set_b))
    ∧ a_only_size layout = Z.of_nat (size (set_a ∖ set_b))
    ∧ b_only_size layout = Z.of_nat (size (set_b ∖ set_a))
    ∧ tier layout = (_select_tier (Z.of_nat (size (set_a ∪ set_b)))).1
    ∧ circle_radius layout =
        tier_radius (_select_tier (Z.of_nat (size (set_a ∪ set_b)))).2
    ∧ circle_separation layout = lp_circle_separation lens
    ∧ circle_a_center layout = (- lp_circle_separation lens / 2, 0, 0)
    ∧ circle_b_center layout = (lp_circle_separation lens / 2, 0, 0)
    ∧ lens_font_size layout = lp_font_size lens
    ∧ lens_element_size layout = lp_element_size lens
    ∧ lens_padding layout = lp_padding lens
    ∧ lens_area layout = lp_area lens
    ∧ lens_width layout = lp_width lens
    ∧ lens_height layout = lp_height lens
    ∧ crescent_font_size layout = cp_font_size crescent
    ∧ crescent_element_size layout = cp_element_size crescent
    ∧ crescent_padding layout = cp_padding crescent
    ∧ crescent_radii layout = cp_radii crescent.
Proof.
  unfold calculate_layout.
  destruct (_select_tier _) as [tier_name params]. simpl.
  destruct (_calculate_lens_parameters _ _ _ _) as [lens | e]; simpl;
    [| discriminate].
  destruct (_calculate_crescent_parameters _ _ _ _ _) as [crescent | e]; simpl;
    [| discriminate].
  intros [= <-]. exists lens, crescent. simpl. repeat split.
Qed.

Lemma calculate_layout_ok (set_a set_b : gset Z) :
  ∃ layout, calculate_layout set_a set_b = Ok layout
    ∧ 0 < lens_element_size layout + lens_padding layout
    ∧ 0 < crescent_element_size layout + crescent_padding layout.
Proof.
  unfold calculate_layout.
  pose proof (select_tier_positive (Z.of_nat (size (set_a ∪ set_b))))
    as (HR & Hfont & Hpad).
  destruct (_select_tier _) as [tier_name params]. simpl in *.
  destruct (calculate_lens_parameters_ok (Z.of_nat (size (set_a ∩ set_b)))
              (tier_radius params) (tier_font params) (tier_padding params) HR)
    as (lens & -> & Hlf & Hle & Hlp & _).
  destruct (calculate_crescent_parameters_ok
              (Z.of_nat (size (set_a ∖ set_b))) (Z.of_nat (size (set_b ∖ set_a)))
              (tier_radius params) (tier_font params) (tier_padding params)
              ltac:(lia) ltac:(lia) HR Hfont Hpad)
    as (crescent & -> & Hce & Hcp).
  simpl. eexists. split; [reflexivity |]. simpl.
  split; [| lra].
  rewrite Hle, Hlp.
  assert (0 < IZR (tier_font params) / FONT_TO_MANIM_CONVERSION).
  { apply Rdiv_lt_0_compat; [apply IZR_lt; exact Hfont |].
    unfold FONT_TO_MANIM_CONVERSION. lra. }
  lra.
Qed.

(** Every layout [calculate_layout] returns has positive spacings. *)
Lemma calculate_layout_spacing (set_a set_b : gset Z) (layout : VennLayout) :
  calculate_layout set_a set_b = Ok layout →
  0 < lens_element_size layout + lens_padding layout
  ∧ 0 < crescent_element_size layout + crescent_padding layout.
Proof.
  intros Hlay.
  destruct (calculate_layout_ok set_a set_b) as (layout' & Hlay' & Hspacing).
  rewrite Hlay in Hlay'. injection Hlay' as <-. exact Hspacing.
Qed.

(** The lens of a computed layout has a positive width and height, so its
    bounding ellipse is well formed. *)
Lemma calculate_layout_lens_wf (set_a set_b : gset Z) (layout : VennLayout) :
  calculate_layout set_a set_b = Ok layout →
  boundary_wf (region_boundary Lens layout).
Proof.
  intros Hlay.
  destruct (calculate_layout_inv _ _ _ Hlay)
    as (lens & crescent & Hlens & _ & _ & _ & _ & _ & _ & _ & _ & _ & _
        & _ & _ & _ & _ & Hw & Hh & _).
  simpl. rewrite Hw, Hh. clear Hw Hh Hlay.
  pose proof (select_tier_positive (Z.of_nat (size (set_a ∪ set_b))))
    as (HR & _).
  revert Hlens. unfold _calculate_lens_parameters.
  match goal with
  | |- context [_solve_lens_separation ?r ?a ?t ?n] =>
      destruct (solve_lens_separation_overlap r a t n HR) as (d & -> & Hd)
  end.
  { unfold default_max_iterations. lia. }
  simpl. unfold _calculate_lens_dimensions.
  destruct (Rge_dec d _); [lra |].
  set (R_ := tier_radius _) in *.
  assert (Hpos : 0 < R_ ^ 2 - (d / 2) ^ 2).
  { replace (R_ ^ 2 - (d / 2) ^ 2) with ((R_ - d / 2) * (R_ + d / 2)) by ring.
    apply Rmult_lt_0_compat; lra. }
  rewrite math_sqrt_ok by lra. simpl. intros [= <-]. simpl.
  split; [lra |].
  apply Rmult_lt_0_compat; [lra | apply sqrt_lt_R0; exact Hpos].
Qed.

Lemma select_tier_name_inj (m n : Z) :
  (_select_tier m).1 = (_select_tier n).1 → _select_tier m = _select_tier n.
Proof.
  tier_cases m; tier_cases n;
    simpl; intros Hname; first [reflexivity | discriminate Hname].
Qed.

(** C1 (amended).  Two layouts in the same tier: if the intersection sizes
    agree, the lens font size, element size, padding, area, width and height
    and the circle separation agree, whatever the crescent sizes are and
    whether or not the crescent font was shrunk; if the two crescent sizes
    agree, the crescent font size, element size, padding and radii agree,
    whatever the intersection size is. *)
Theorem layout_regions_independent (set_a set_b set_a' set_b' : gset Z)
    (layout layout' : VennLayout) :
  calculate_layout set_a set_b = Ok layout →
  calculate_layout set_a' set_b' = Ok layout' →
  tier layout = tier layout' →
  (intersection_size layout = intersection_size layout' →
     lens_font_size layout = lens_font_size layout'
     ∧ lens_element_size layout = lens_element_size layout'
     ∧ lens_padding layout = lens_padding layout'
     ∧ lens_area layout = lens_area layout'
     ∧ lens_width layout = lens_width layout'
     ∧ lens_height layout = lens_height layout'
     ∧ circle_separation layout = circle_separation layout')
  ∧ (a_only_size layout = a_only_size layout' →
     b_only_size layout = b_only_size layout' →
     crescent_font_size layout = crescent_font_size layout'
     ∧ crescent_element_size layout = crescent_element_size layout'
     ∧ crescent_padding layout = crescent_padding layout'
     ∧ crescent_radii layout = crescent_radii layout').
Proof.
  intros Hlay Hlay' Htier.
  destruct (calculate_layout_inv _ _ _ Hlay)
    as (lens & crescent & Hlens & Hcres & _ & Hi & Ha & Hb & Ht & _ & Hsep & _
        & _ & -> & -> & -> & -> & -> & -> & -> & -> & -> & ->).
  destruct (calculate_layout_inv _ _ _ Hlay')
    as (lens' & crescent' & Hlens' & Hcres' & _ & Hi' & Ha' & Hb' & Ht' & _
        & Hsep' & _ & _ & -> & -> & -> & -> & -> & -> & -> & -> & -> & ->).
  rewrite Ht, Ht' in Htier. apply select_tier_name_inj in Htier.
  rewrite Htier in Hlens, Hcres. rewrite Hsep, Hsep'. split.
  - intros Hsize. rewrite Hi, Hi' in Hsize. rewrite Hsize in Hlens.
    rewrite Hlens in Hlens'. injection Hlens' as ->. repeat split.
  - intros Hsa Hsb. rewrite Ha, Ha' in Hsa. rewrite Hb, Hb' in Hsb.
    rewrite Hsa, Hsb in Hcres.
    rewrite Hcres in Hcres'. injection Hcres' as ->. repeat split.
Qed.

Lemma calculate_layout_lens_font (set_a set_b : gset Z) (layout : VennLayout) :
  calculate_layout set_a set_b = Ok layout →
  lens_font_size layout =
    tier_font (_select_tier (Z.of_nat (size (set_a ∪ set_b)))).2
  ∧ tier layout = (_select_tier (Z.of_nat (size (set_a ∪ set_b)))).1
  ∧ intersection_size layout = Z.of_nat (size (set_a ∩ set_b))
  ∧ a_only_size layout = Z.of_nat (size (set_a ∖ set_b))
  ∧ b_only_size layout = Z.of_nat (size (set_b ∖ set_a)).
Proof.
  intros Hlay.
  destruct (calculate_layout_inv _ _ _ Hlay)
    as (lens & crescent & Hlens & _ & _ & Hi & Ha & Hb & Ht & _ & _ & _ & _
        & Hfont & _).
  pose proof (select_tier_positive (Z.of_nat (size (set_a ∪ set_b))))
    as (HR & _).
  destruct (calculate_lens_parameters_ok (Z.of_nat (size (set_a ∩ set_b)))
              _ (tier_font (_select_tier (Z.of_nat (size (set_a ∪ set_b)))).2)
              (tier_padding (_select_tier (Z.of_nat (size (set_a ∪ set_b)))).2)
              HR)
    as (lens' & Hlens' & Hlf & _).
  rewrite Hlens in Hlens'. injection Hlens' as <-.
  rewrite Hfont, Hlf. repeat split; assumption.
Qed.

(** C1 as stated fails: the tier is chosen from the union size.  With the
    intersection fixed at one element, growing the A-only region from 2 to
    15 elements moves the layout from "comfortable" to "moderate" and the
    lens font from 38 to 32. *)
Lemma lens_font_changes_with_crescent_size :
  ∃ layout layout',
    calculate_layout (list_to_set (seqZ 1 3)) {[3%Z]} = Ok layout
    ∧ calculate_layout (list_to_set (seqZ 1 16)) {[16%Z]} = Ok layout'
    ∧ intersection_size layout = 1%Z ∧ intersection_size layout' = 1%Z
    ∧ a_only_size layout = 2%Z ∧ a_only_size layout' = 15%Z
    ∧ b_only_size layout = 0%Z ∧ b_only_size layout' = 0%Z
    ∧ lens_font_size layout = 38%Z ∧ lens_font_size layout' = 32%Z.
Proof.
  destruct (calculate_layout_ok (list_to_set (seqZ 1 3)) {[3%Z]})
    as (layout & Hlay & _).
  destruct (calculate_layout_ok (list_to_set (seqZ 1 16)) {[16%Z]})
    as (layout' & Hlay' & _).
  exists layout, layout'.
  split; [exact Hlay |]. split; [exact Hlay' |].
  destruct (calculate_layout_lens_font _ _ _ Hlay) as (-> & _ & -> & -> & ->).
  destruct (calculate_layout_lens_font _ _ _ Hlay') as (-> & _ & -> & -> & ->).
  repeat split; reflexivity.
Qed.

Lemma layout_regions_independent_witness :
  ∃ layout layout' layout2 layout2',
    (* the intersection is one element; the A-only region has 12 elements
       and shrinks the crescent font, or 1 element and does not *)
    calculate_layout (list_to_set (seqZ 1 13)) {[13%Z]} = Ok layout
    ∧ calculate_layout {[1%Z; 2%Z]} {[2%Z]} = Ok layout'
    ∧ tier layout = tier layout'
    ∧ intersection_size layout = intersection_size layout'
    ∧ a_only_size layout = 12%Z ∧ a_only_size layout' = 1%Z
    ∧ crescent_font_size layout ≠ crescent_font_size layout'
    ∧ (lens_font_size layout = lens_font_size layout'
       ∧ lens_element_size layout = lens_element_size layout'
       ∧ lens_padding layout = lens_padding layout'
       ∧ lens_area layout = lens_area layout'
       ∧ lens_width layout = lens_width layout'
       ∧ lens_height layout = lens_height layout'
       ∧ circle_separation layout = circle_separation layout')
    (* the crescents have 2 and 1 elements; the intersection has 1 or 2 *)
    ∧ calculate_layout {[1%Z; 2%Z; 3%Z]} {[3%Z; 4%Z]} = Ok layout2
    ∧ calculate_layout {[1%Z; 2%Z; 3%Z; 5%Z]} {[3%Z; 4%Z; 5%Z]} = Ok layout2'
    ∧ tier layout2 = tier layout2'
    ∧ a_only_size layout2 = a_only_size layout2'
    ∧ b_only_size layout2 = b_only_size layout2'
    ∧ intersection_size layout2 = 1%Z ∧ intersection_size layout2' = 2%Z
    ∧ (crescent_font_size layout2 = crescent_font_size layout2'
       ∧ crescent_element_size layout2 = crescent_element_size layout2'
       ∧ crescent_padding layout2 = crescent_padding layout2'
       ∧ crescent_radii layout2 = crescent_radii layout2').
Proof.
  destruct (calculate_layout_ok (list_to_set (seqZ 1 13)) {[13%Z]})
    as (layout & Hlay & _).
  destruct (calculate_layout_ok {[1%Z; 2%Z]} {[2%Z]})
    as (layout' & Hlay' & _).
  destruct (calculate_layout_ok {[1%Z; 2%Z; 3%Z]} {[3%Z; 4%Z]})
    as (layout2 & Hlay2 & _).
  destruct (calculate_layout_ok {[1%Z; 2%Z; 3%Z; 5%Z]} {[3%Z; 4%Z; 5%Z]})
    as (layout2' & Hlay2' & _).
  exists layout, layout', layout2, layout2'.
  pose proof (calculate_layout_lens_font _ _ _ Hlay) as (_ & Ht & Hi & Ha & _).
  pose proof (calculate_layout_lens_font _ _ _ Hlay') as (_ & Ht' & Hi' & Ha' & _).
  pose proof (calculate_layout_lens_font _ _ _ Hlay2)
    as (_ & Ht2 & Hi2 & Ha2 & Hb2).
  pose proof (calculate_layout_lens_font _ _ _ Hlay2')
    as (_ & Ht2' & Hi2' & Ha2' & Hb2').
  assert (Htier : tier layout = tier layout')
    by (rewrite Ht, Ht'; reflexivity).
  assert (Hinter : intersection_size layout = intersection_size layout')
    by (rewrite Hi, Hi'; reflexivity).
  assert (Htier2 : tier layout2 = tier layout2')
    by (rewrite Ht2, Ht2'; reflexivity).
  assert (Hsa : a_only_size layout2 = a_only_size layout2')
    by (rewrite Ha2, Ha2'; reflexivity).
  assert (Hsb : b_only_size layout2 = b_only_size layout2')
    by (rewrite Hb2, Hb2'; reflexivity).
  assert (Hfonts : crescent_font_size layout ≠ crescent_font_size layout').
  { destruct (calculate_layout_inv _ _ _ Hlay)
      as (lens & crescent & _ & Hcres & _ & _ & _ & _ & _ & _ & _ & _ & _
          & _ & _ & _ & _ & _ & _ & -> & _).
    destruct (calculate_layout_inv _ _ _ Hlay')
      as (lens' & crescent' & _ & Hcres' & _ & _ & _ & _ & _ & _ & _ & _ & _
          & _ & _ & _ & _ & _ & _ & -> & _).
    assert (E : (Z.of_nat (size (list_to_set (seqZ 1 13) ∪ {[13%Z]} : gset Z))) = 13%Z)
      by (vm_compute; reflexivity).
    rewrite E in Hcres. clear E.
    assert (E : (Z.of_nat (size (list_to_set (seqZ 1 13) ∖ {[13%Z]} : gset Z))) = 12%Z)
      by (vm_compute; reflexivity).
    rewrite E in Hcres. clear E.
    assert (E : (Z.of_nat (size ({[13%Z]} ∖ list_to_set (seqZ 1 13) : gset Z))) = 0%Z)
      by (vm_compute; reflexivity).
    rewrite E in Hcres. clear E.
    assert (E : (Z.of_nat (size ({[1%Z; 2%Z]} ∪ {[2%Z]} : gset Z))) = 2%Z)
      by (vm_compute; reflexivity).
    rewrite E in Hcres'. clear E.
    assert (E : (Z.of_nat (size ({[1%Z; 2%Z]} ∖ {[2%Z]} : gset Z))) = 1%Z)
      by (vm_compute; reflexivity).
    rewrite E in Hcres'. clear E.
    assert (E : (Z.of_nat (size ({[2%Z]} ∖ {[1%Z; 2%Z]} : gset Z))) = 0%Z)
      by (vm_compute; reflexivity).
    rewrite E in Hcres'. clear E.
    change (_select_tier 13).2
      with {| tier_radius := 2.2; tier_font := 38; tier_padding := 0.35 |}
      in Hcres.
    change (_select_tier 2).2
      with {| tier_radius := 2.2; tier_font := 38; tier_padding := 0.35 |}
      in Hcres'.
    cbn [tier_radius tier_font tier_padding] in Hcres, Hcres'.
    pose proof PI_4 as Hpi4. pose proof PI2_3_2 as Hpi3.
    assert (Hshrunk : IZR (cp_font_size crescent) <= 0.9 * IZR 38).
    { eapply (crescent_font_shrinks 12 0 2.2 38 0.35);
        [lia | lia | lra | lia | lra | | | exact Hcres].
      - apply calc_radius_eq; [apply pow2_ge_0 | lia].
      - destruct (decide (12 = 0)%Z); [lia |].
        rewrite <- (sqrt_pow2 (2.2 * 0.65)) by lra.
        apply sqrt_lt_1_alt. split; [apply pow2_ge_0 |].
        unfold FONT_TO_MANIM_CONVERSION, PACKING_EFFICIENCY.
        apply (Rmult_lt_reg_r PI); [lra |].
        replace (12 * (38 / 95 + 0.35) ^ 2 / 0.75) with 9 by lra.
        replace (9 / PI * PI) with 9 by (field; lra).
        lra. }
    assert (Hkept : cp_font_size crescent' = 38%Z).
    { eapply (crescent_font_kept 1 0 2.2 38 0.35);
        [apply calc_radius_eq; [apply pow2_ge_0 | lia]
        | apply calc_radius_eq; [apply pow2_ge_0 | lia]
        | | | exact Hcres'].
      - destruct (decide (1 = 0)%Z); [lia |].
        rewrite <- (sqrt_pow2 (2.2 * 0.65)) by lra.
        apply sqrt_le_1_alt.
        unfold FONT_TO_MANIM_CONVERSION, PACKING_EFFICIENCY.
        apply (Rmult_le_reg_r PI); [lra |].
        replace (1 * (38 / 95 + 0.35) ^ 2 / 0.75) with (3 / 4) by lra.
        replace (3 / 4 / PI * PI) with (3 / 4) by (field; lra).
        lra.
      - destruct (decide (0 = 0)%Z); [lra | lia]. }
    rewrite Hkept. intros Heq. rewrite Heq in Hshrunk. lra. }
  split; [exact Hlay |]. split; [exact Hlay' |]. split; [exact Htier |].
  split; [exact Hinter |].
  split; [rewrite Ha; reflexivity |]. split; [rewrite Ha'; reflexivity |].
  split; [exact Hfonts |].
  split.
  { exact (proj1 (layout_regions_independent _ _ _ _ layout layout'
                    Hlay Hlay' Htier) Hinter). }
  split; [exact Hlay2 |]. split; [exact Hlay2' |]. split; [exact Htier2 |].
  split; [exact Hsa |]. split; [exact Hsb |].
  split; [rewrite Hi2; reflexivity |]. split; [rewrite Hi2'; reflexivity |].
  exact (proj2 (layout_regions_independent _ _ _ _ layout2 layout2'
                  Hlay2 Hlay2' Htier2) Hsa Hsb).
Defined.

(** ** Packing engine: sorting and assignment *)

Lemma insert_by_dist_perm (p : R * ndarray) (l : list (R * ndarray)) :
  insert_by_dist p l ≡ₚ p :: l.
Proof.
  induction l as [| q l IH]; simpl; [reflexivity |].
  destruct (Rle_dec p.1 q.1); [reflexivity |].
  rewrite IH. apply Permutation_swap.
Qed.

Lemma sort_by_dist_perm (l : list (R * ndarray)) : sort_by_dist l ≡ₚ l.
Proof.
  induction l as [| p l IH]; simpl; [reflexivity |].
  rewrite insert_by_dist_perm, IH. reflexivity.
Qed.

Lemma sort_by_dist_length (l : list (R * ndarray)) :
  length (sort_by_dist l) = length l.
Proof. apply Permutation_length, sort_by_dist_perm. Qed.

Lemma insert_by_dist_sorted (p : R * ndarray) (l : list (R * ndarray)) :
  Sorted (λ a b, a.1 <= b.1) l → Sorted (λ a b, a.1 <= b.1) (insert_by_dist p l).
Proof.
  induction 1 as [| q l Hl IH Hq]; simpl.
  - repeat constructor.
  - destruct (Rle_dec p.1 q.1) as [Hle | Hgt].
    + constructor; [constructor; assumption | constructor; exact Hle].
    + constructor; [exact IH |].
      destruct l as [| q' l]; simpl.
      * constructor. lra.
      * destruct (Rle_dec p.1 q'.1); constructor; [lra |].
        inversion Hq; assumption.
Qed.

Lemma sort_by_dist_sorted (l : list (R * ndarray)) :
  Sorted (λ a b, a.1 <= b.1) (sort_by_dist l).
Proof.
  induction l as [| p l IH]; simpl; [constructor |].
  apply insert_by_dist_sorted, IH.
Qed.

#[local] Instance R_eq_dec : EqDecision R := Req_dec_T.

(** Stability: candidates at the same distance keep the order in which the
    two loops produced them.  A list that is sorted, a permutation of the
    input and stable is unique, so this is the list Python's [list.sort]
    returns. *)
Lemma insert_by_dist_stable (d : R) (p : R * ndarray)
    (l : list (R * ndarray)) :
  filter (λ q, q.1 = d) (insert_by_dist p l) = filter (λ q, q.1 = d) (p :: l).
Proof.
  induction l as [| q l IH]; simpl; [reflexivity |].
  destruct (Rle_dec p.1 q.1) as [Hle | Hgt]; [reflexivity |].
  rewrite (filter_cons _ q), IH, !filter_cons.
  destruct (decide (q.1 = d)), (decide (p.1 = d)); try reflexivity.
  exfalso. lra.
Qed.

Lemma sort_by_dist_stable (d : R) (l : list (R * ndarray)) :
  filter (λ q, q.1 = d) (sort_by_dist l) = filter (λ q, q.1 = d) l.
Proof.
  induction l as [| p l IH]; simpl; [reflexivity |].
  rewrite insert_by_dist_stable, !filter_cons, IH. reflexivity.
Qed.

(** Two lists sorted by distance that agree on every class of equal
    distance are equal. *)
Lemma stable_sorted_unique (l1 l2 : list (R * ndarray)) :
  Sorted (λ a b, a.1 <= b.1) l1 → Sorted (λ a b, a.1 <= b.1) l2 →
  (∀ d, filter (λ q, q.1 = d) l1 = filter (λ q, q.1 = d) l2) →
  l1 = l2.
Proof.
  assert (Htrans : Transitive (λ a b : R * ndarray, a.1 <= b.1))
    by (intros a b c; simpl; lra).
  intros H1 H2. apply Sorted_StronglySorted in H1, H2; try exact Htrans.
  revert l2 H2.
  induction H1 as [| a l1 Hs1 IH Ha]; intros l2 H2 Hfilter.
  - destruct l2 as [| b l2]; [reflexivity | exfalso].
    specialize (Hfilter b.1). rewrite filter_nil, filter_cons in Hfilter.
    destruct (decide (b.1 = b.1)); [discriminate | congruence].
  - destruct H2 as [| b l2 Hs2 Hb].
    { exfalso. specialize (Hfilter a.1).
      rewrite filter_nil, filter_cons in Hfilter.
      destruct (decide (a.1 = a.1)); [discriminate | congruence]. }
    assert (Hkey : a.1 = b.1).
    { apply Rle_antisym.
      - pose proof (Hfilter b.1) as Hf.
        assert (Hin : b ∈ filter (λ q, q.1 = b.1) (a :: l1)).
        { rewrite Hf. apply list_elem_of_filter. split; [reflexivity | left]. }
        apply list_elem_of_filter in Hin as [_ Hin].
        apply elem_of_cons in Hin as [-> | Hin]; [lra |].
        rewrite Forall_forall in Ha. apply Ha, Hin.
      - pose proof (Hfilter a.1) as Hf.
        assert (Hin : a ∈ filter (λ q, q.1 = a.1) (b :: l2)).
        { rewrite <- Hf. apply list_elem_of_filter. split; [reflexivity | left]. }
        apply list_elem_of_filter in Hin as [_ Hin].
        apply elem_of_cons in Hin as [-> | Hin]; [lra |].
        rewrite Forall_forall in Hb. apply Hb, Hin. }
    assert (Hab : a = b).
    { specialize (Hfilter a.1). rewrite !filter_cons in Hfilter.
      destruct (decide (a.1 = a.1)); [| congruence].
      destruct (decide (b.1 = a.1)); [| congruence].
      congruence. }
    subst b. f_equal. apply IH; [exact Hs2 |].
    intros d. specialize (Hfilter d). rewrite !filter_cons in Hfilter.
    destruct (decide (a.1 = d)); congruence.
Qed.

(** Hence every stable sort by distance computes [sort_by_dist]. *)
Lemma sort_by_dist_unique (l l' : list (R * ndarray)) :
  Sorted (λ a b, a.1 <= b.1) l' →
  (∀ d, filter (λ q, q.1 = d) l' = filter (λ q, q.1 = d) l) →
  l' = sort_by_dist l.
Proof.
  intros Hsorted Hstable. apply stable_sorted_unique.
  - exact Hsorted.
  - apply sort_by_dist_sorted.
  - intros d. rewrite sort_by_dist_stable. apply Hstable.
Qed.

Lemma sorted_perm (l : list Z) : Py.sorted l ≡ₚ l.
Proof. apply merge_sort_Permutation. Qed.

Lemma sorted_strongly_sorted (l : list Z) : StronglySorted Z.le (Py.sorted l).
Proof. apply (StronglySorted_merge_sort Z.le). Qed.

Lemma sorted_unique (l1 l2 : list Z) :
  l1 ≡ₚ l2 → Py.sorted l1 = Py.sorted l2.
Proof.
  intros Hperm. apply (StronglySorted_unique Z.le).
  - apply sorted_strongly_sorted.
  - apply sorted_strongly_sorted.
  - rewrite !sorted_perm. exact Hperm.
Qed.

Lemma sorted_of_set (py_list : gset Z → list Z) (s : gset Z) :
  py_list s ≡ₚ elements s →
  NoDup (Py.sorted (py_list s))
  ∧ list_to_set (Py.sorted (py_list s)) = s
  ∧ ∀ e, e ∈ Py.sorted (py_list s) ↔ e ∈ s.
Proof.
  intros Hperm.
  assert (Hs : Py.sorted (py_list s) ≡ₚ elements s)
    by (rewrite sorted_perm; exact Hperm).
  split; [rewrite Hs; apply NoDup_elements |].
  split.
  - apply set_eq. intros e. rewrite elem_of_list_to_set, Hs. apply elem_of_elements.
  - intros e. rewrite Hs. apply elem_of_elements.
Qed.

Lemma assign_step_insert (positions_list : list (R * ndarray))
    (center : ndarray) (positions : gmap Z ndarray) (i : nat) (elem : Z) :
  assign_step positions_list center positions (i, elem) =
  <[elem := candidate_at positions_list center i]> positions.
Proof.
  unfold assign_step, candidate_at. destruct (positions_list !! i); reflexivity.
Qed.

Section assign.

Variable positions_list : list (R * ndarray).
Variable center : ndarray.

Lemma assign_fold_not_in (elements : list Z) (start : nat)
    (positions : gmap Z ndarray) (e : Z) :
  e ∉ elements →
  foldl (assign_step positions_list center) positions
    (zip (seq start (length elements)) elements) !! e = positions !! e.
Proof.
  revert start positions.
  induction elements as [| x elements IH]; intros start positions Hnot; simpl;
    [reflexivity |].
  apply not_elem_of_cons in Hnot as [Hne Hnot].
  rewrite IH by exact Hnot.
  rewrite assign_step_insert. apply lookup_insert_ne. congruence.
Qed.

Lemma assign_fold_lookup (elements : list Z) (start : nat)
    (positions : gmap Z ndarray) (i : nat) (e : Z) :
  NoDup elements → elements !! i = Some e →
  foldl (assign_step positions_list center) positions
    (zip (seq start (length elements)) elements) !! e =
  Some (candidate_at positions_list center (start + i)).
Proof.
  revert start positions i.
  induction elements as [| x elements IH]; intros start positions i Hnd Hi;
    [discriminate |].
  apply NoDup_cons in Hnd as [Hx Hnd]. simpl.
  destruct i as [| i]; simpl in Hi.
  - injection Hi as ->.
    rewrite assign_fold_not_in by exact Hx.
    rewrite assign_step_insert, lookup_insert_eq, Nat.add_0_r. reflexivity.
  - rewrite (IH (S start) _ i Hnd Hi). do 2 f_equal. lia.
Qed.

Lemma assign_fold_dom (elements : list Z) (start : nat)
    (positions : gmap Z ndarray) :
  dom (foldl (assign_step positions_list center) positions
         (zip (seq start (length elements)) elements))
  = list_to_set elements ∪ dom positions.
Proof.
  revert start positions.
  induction elements as [| x elements IH]; intros start positions; simpl.
  - set_solver.
  - rewrite IH, assign_step_insert, dom_insert_L. set_solver.
Qed.

Lemma assign_positions_lookup (elements : list Z) (i : nat) (e : Z) :
  NoDup elements → elements !! i = Some e →
  assign_positions elements positions_list center !! e =
  Some (candidate_at positions_list center i).
Proof.
  intros Hnd Hi. unfold assign_positions, Py.enumerate.
  rewrite (assign_fold_lookup elements 0 ∅ i e Hnd Hi). reflexivity.
Qed.

Lemma assign_positions_dom (elements : list Z) :
  dom (assign_positions elements positions_list center) = list_to_set elements.
Proof.
  unfold assign_positions, Py.enumerate.
  rewrite assign_fold_dom. set_solver.
Qed.

Lemma assign_fold_elem (elements : list Z) (start : nat)
    (positions : gmap Z ndarray) (e : Z) :
  e ∈ elements →
  ∃ i, elements !! i = Some e
       ∧ foldl (assign_step positions_list center) positions
           (zip (seq start (length elements)) elements) !! e =
         Some (candidate_at positions_list center (start + i)).
Proof.
  revert start positions.
  induction elements as [| x elements IH]; intros start positions Hin;
    [apply elem_of_nil in Hin; contradiction |].
  destruct (decide (e ∈ elements)) as [Hrest | Hrest].
  - destruct (IH (S start) (assign_step positions_list center positions (start, x))
                Hrest) as (i & Hi & Hm).
    exists (S i). split; [exact Hi |]. simpl. rewrite Hm. do 2 f_equal. lia.
  - apply elem_of_cons in Hin as [-> | ?]; [| contradiction].
    exists 0%nat. split; [reflexivity |]. simpl.
    rewrite assign_fold_not_in by exact Hrest.
    rewrite assign_step_insert, lookup_insert_eq, Nat.add_0_r. reflexivity.
Qed.

Lemma assign_positions_elem (elements : list Z) (e : Z) :
  e ∈ elements →
  ∃ i, elements !! i = Some e
       ∧ assign_positions elements positions_list center !! e =
         Some (candidate_at positions_list center i).
Proof.
  intros Hin. unfold assign_positions, Py.enumerate.
  destruct (assign_fold_elem elements 0 ∅ e Hin) as (i & Hi & Hm).
  exists i. split; [exact Hi | exact Hm].
Qed.

End assign.

(** ** Packing engine: the lattice *)

Lemma IZR_trichotomy (k : Z) : IZR k <= -1 ∨ IZR k = 0 ∨ 1 <= IZR k.
Proof.
  destruct (Z.lt_trichotomy k 0) as [Hlt | [-> | Hgt]].
  - left. apply (IZR_le k (-1)). lia.
  - right. left. reflexivity.
  - right. right. apply (IZR_le 1 k). lia.
Qed.

Lemma lattice_xy_eq (s h : R) (row col : Z) :
  lattice_xy s h row col = ((IZR col + row_offset row) * s, IZR row * h).
Proof.
  unfold lattice_xy, row_offset.
  destruct (decide (row `mod` 2 ≠ 0)%Z); f_equal; lra.
Qed.

Lemma row_offset_diff (row row' : Z) :
  (row = row' ∧ row_offset row - row_offset row' = 0)
  ∨ (IZR row - IZR row' = 1
     ∧ (row_offset row - row_offset row' = 1 / 2
        ∨ row_offset row - row_offset row' = - (1 / 2)))
  ∨ (IZR row - IZR row' = -1
     ∧ (row_offset row - row_offset row' = 1 / 2
        ∨ row_offset row - row_offset row' = - (1 / 2)))
  ∨ 2 <= IZR row - IZR row'
  ∨ IZR row - IZR row' <= -2.
Proof.
  rewrite <- minus_IZR. unfold row_offset.
  destruct (Z.lt_trichotomy (row - row') 0) as [Hlt | [Heq | Hgt]].
  - destruct (decide (row - row' = -1)%Z) as [H1 | H1].
    + right. right. left. rewrite H1. split; [reflexivity |].
      destruct (decide (row `mod` 2 ≠ 0)%Z), (decide (row' `mod` 2 ≠ 0)%Z);
        first [left; lra | right; lra | exfalso; Z.div_mod_to_equations; lia].
    + do 4 right. apply (IZR_le _ (-2)). lia.
  - left. split; [lia |]. replace row' with row by lia. lra.
  - destruct (decide (row - row' = 1)%Z) as [H1 | H1].
    + right. left. rewrite H1. split; [reflexivity |].
      destruct (decide (row `mod` 2 ≠ 0)%Z), (decide (row' `mod` 2 ≠ 0)%Z);
        first [left; lra | right; lra | exfalso; Z.div_mod_to_equations; lia].
    + do 3 right. left. apply (IZR_le 2). lia.
Qed.

(** Two different lattice points are at least [sqrt 0.999956] spacings
    apart: the vertical pitch is [0.866], a little under [sqrt 3 / 2]. *)
Lemma lattice_separation (s : R) (row col row' col' : Z) :
  (row, col) ≠ (row', col') →
  0.999956 * s ^ 2 <=
    ((lattice_xy s (s * 0.866) row col).1
       - (lattice_xy s (s * 0.866) row' col').1) ^ 2
    + ((lattice_xy s (s * 0.866) row col).2
       - (lattice_xy s (s * 0.866) row' col').2) ^ 2.
Proof.
  intros Hne. rewrite !lattice_xy_eq. cbn [fst snd].
  set (dc := IZR col - IZR col').
  set (dr := IZR row - IZR row').
  set (dof := row_offset row - row_offset row').
  match goal with
  | |- _ <= ?rhs =>
      replace rhs with (s ^ 2 * ((dc + dof) ^ 2 + 0.749956 * dr ^ 2))
        by (unfold dc, dr, dof; lra)
  end.
  assert (Hs : 0 <= s ^ 2) by apply pow2_ge_0.
  assert (Hkey : 0.999956 <= (dc + dof) ^ 2 + 0.749956 * dr ^ 2).
  { pose proof (IZR_trichotomy (col - col')) as Hdc.
    rewrite minus_IZR in Hdc. fold dc in Hdc.
    destruct (row_offset_diff row row')
      as [[Hrow Ho] | [[Hr Ho] | [[Hr Ho] | [Hr | Hr]]]];
      fold dof in Ho || idtac; fold dr in Hr || idtac.
    - assert (Hcol : col ≠ col') by congruence.
      assert (Hdr : dr = 0) by (unfold dr; rewrite Hrow; lra).
      assert (Hdc' : dc <= -1 ∨ 1 <= dc).
      { destruct Hdc as [? | [Hz | ?]]; [left; assumption | | right; assumption].
        exfalso. apply Hcol. apply eq_IZR. unfold dc in Hz. lra. }
      rewrite Ho, Hdr. destruct Hdc'; nra.
    - rewrite Hr. destruct Ho as [-> | ->]; destruct Hdc as [? | [? | ?]]; nra.
    - rewrite Hr. destruct Ho as [-> | ->]; destruct Hdc as [? | [? | ?]]; nra.
    - assert (0 <= (dc + dof) ^ 2) by apply pow2_ge_0. nra.
    - assert (0 <= (dc + dof) ^ 2) by apply pow2_ge_0. nra. }
  nra.
Qed.

Lemma np_sub_add_cancel (center v : ndarray) :
  np_sub (np_add center v) center = v.
Proof.
  destruct center as [[cx cy] cz], v as [[vx vy] vz]. simpl.
  f_equal; [f_equal |]; lra.
Qed.

Lemma np_sub_add_add (center u v : ndarray) :
  np_sub (np_add center u) (np_add center v) = np_sub u v.
Proof.
  destruct center as [[cx cy] cz], u as [[ux uy] uz], v as [[vx vy] vz]. simpl.
  f_equal; [f_equal |]; lra.
Qed.

Lemma linalg_norm_sqr (u : ndarray) :
  linalg_norm u ^ 2 = u.1.1 ^ 2 + u.1.2 ^ 2 + u.2 ^ 2.
Proof.
  destruct u as [[ux uy] uz]. unfold linalg_norm. cbn [fst snd].
  apply pow2_sqrt.
  pose proof (pow2_ge_0 ux). pose proof (pow2_ge_0 uy). pose proof (pow2_ge_0 uz).
  lra.
Qed.

Lemma linalg_norm_nonneg (u : ndarray) : 0 <= linalg_norm u.
Proof. destruct u as [[ux uy] uz]. apply sqrt_pos. Qed.

Lemma lattice_point_far_sqr (center : ndarray) (s : R) (row col row' col' : Z) :
  (row, col) ≠ (row', col') →
  0.999956 * s ^ 2 <=
    linalg_norm (np_sub (lattice_point center s row col)
                        (lattice_point center s row' col')) ^ 2.
Proof.
  intros Hne. pose proof (lattice_separation s row col row' col' Hne) as Hsep.
  unfold lattice_point.
  destruct (lattice_xy s (s * 0.866) row col) as [x y].
  destruct (lattice_xy s (s * 0.866) row' col') as [x' y'].
  rewrite np_sub_add_add, linalg_norm_sqr. cbn [np_sub fst snd] in *. lra.
Qed.

Lemma lattice_point_far (center : ndarray) (s : R) (row col row' col' : Z) :
  (row, col) ≠ (row', col') →
  0.99997 * s <=
    linalg_norm (np_sub (lattice_point center s row col)
                        (lattice_point center s row' col')).
Proof.
  intros Hne.
  pose proof (lattice_point_far_sqr center s row col row' col' Hne) as Hsqr.
  pose proof (linalg_norm_nonneg
                (np_sub (lattice_point center s row col)
                        (lattice_point center s row' col'))) as Hpos.
  set (n := linalg_norm _) in *.
  destruct (Rle_dec (0.99997 * s) n) as [? | Hlt]; [assumption | exfalso].
  assert (0 <= s ^ 2) by apply pow2_ge_0.
  nra.
Qed.

(** The bound is tight: a point and its neighbour in the next row are
    closer than one spacing, which is why the separation property needs a
    positive slack. *)
Lemma lattice_neighbours_within_spacing (center : ndarray) (s : R) :
  0 < s →
  linalg_norm (np_sub (lattice_point center s 1 0) (lattice_point center s 0 0))
    < s.
Proof.
  intros Hs.
  set (n := linalg_norm _).
  assert (Hn : n ^ 2 = 0.999956 * s ^ 2).
  { unfold n, lattice_point. rewrite !lattice_xy_eq, np_sub_add_add.
    rewrite linalg_norm_sqr. unfold row_offset. simpl. lra. }
  assert (Hpos : 0 <= n) by apply linalg_norm_nonneg.
  destruct (Rlt_dec n s) as [? | Hge]; [assumption | exfalso].
  assert (s ^ 2 <= n ^ 2) by (apply pow_incr; lra).
  assert (0 < s ^ 2) by (apply pow_lt; exact Hs).
  lra.
Qed.

Lemma lattice_point_inj (center : ndarray) (s : R) (row col row' col' : Z) :
  s ≠ 0 →
  lattice_point center s row col = lattice_point center s row' col' →
  (row, col) = (row', col').
Proof.
  intros Hs Heq.
  destruct (decide ((row, col) = (row', col'))) as [? | Hne]; [assumption |].
  exfalso.
  pose proof (lattice_point_far_sqr center s row col row' col' Hne) as Hsqr.
  rewrite Heq in Hsqr. rewrite linalg_norm_sqr in Hsqr.
  destruct (lattice_point center s row' col') as [[px py] pz].
  cbn [np_sub fst snd] in Hsqr.
  assert (0 < s ^ 2) by (apply pow_lt_0_pos || nra).
  nra.
Qed.

Section lattice_candidates.

Variable center : ndarray.
Variable s : R.
Variables rows cols : Z.
Variable keep : R → R → Prop.
Variable keep_dec : ∀ x y, {keep x y} + {¬ keep x y}.

Lemma lattice_candidates_elem (dp : R * ndarray) :
  dp ∈ lattice_candidates center s rows cols keep keep_dec →
  ∃ row col,
    dp.2 = lattice_point center s row col
    ∧ dp.1 = linalg_norm (np_sub dp.2 center)
    ∧ keep (lattice_xy s (s * 0.866) row col).1
           (lattice_xy s (s * 0.866) row col).2.
Proof.
  unfold lattice_candidates. intros Hin.
  apply list_elem_of_bind in Hin as (row & Hin & _).
  apply list_elem_of_bind in Hin as (col & Hin & _).
  exists row, col. unfold lattice_point.
  destruct (lattice_xy s (s * 0.866) row col) as [x y].
  destruct (keep_dec x y) as [Hkeep | _].
  - apply list_elem_of_singleton in Hin. subst dp. cbn [fst snd].
    repeat split. exact Hkeep.
  - apply elem_of_nil in Hin. contradiction.
Qed.

Lemma lattice_candidates_NoDup :
  s ≠ 0 → NoDup (lattice_candidates center s rows cols keep keep_dec).
Proof.
  intros Hs. unfold lattice_candidates.
  assert (Hcell : ∀ row col dp,
    dp ∈ (let '(x, y) := lattice_xy s (s * 0.866) row col in
          if keep_dec x y
          then [(linalg_norm (np_sub (np_add center (x, y, 0)) center),
                 np_add center (x, y, 0))]
          else []) →
    dp.2 = lattice_point center s row col).
  { intros row col dp. unfold lattice_point.
    destruct (lattice_xy s (s * 0.866) row col) as [x y].
    destruct (keep_dec x y); intros Hin.
    - apply list_elem_of_singleton in Hin. subst dp. reflexivity.
    - apply elem_of_nil in Hin. contradiction. }
  apply NoDup_bind.
  - intros row1 row2 dp _ _ H1 H2.
    apply list_elem_of_bind in H1 as (col1 & H1 & _).
    apply list_elem_of_bind in H2 as (col2 & H2 & _).
    apply Hcell in H1. apply Hcell in H2. rewrite H1 in H2.
    apply lattice_point_inj in H2; [congruence | exact Hs].
  - intros row _. apply NoDup_bind.
    + intros col1 col2 dp _ _ H1 H2.
      apply Hcell in H1. apply Hcell in H2. rewrite H1 in H2.
      apply lattice_point_inj in H2; [congruence | exact Hs].
    + intros col _.
      destruct (lattice_xy s (s * 0.866) row col) as [x y].
      destruct (keep_dec x y); [apply NoDup_singleton | apply NoDup_nil_2].
    + apply NoDup_seqZ.
  - apply NoDup_seqZ.
Qed.

Lemma lattice_candidates_far (p q : R * ndarray) :
  s ≠ 0 →
  p ∈ lattice_candidates center s rows cols keep keep_dec →
  q ∈ lattice_candidates center s rows cols keep keep_dec →
  p ≠ q →
  p.2 ≠ q.2 ∧ 0.99997 * s <= linalg_norm (np_sub p.2 q.2).
Proof.
  intros Hs Hp Hq Hne.
  apply lattice_candidates_elem in Hp as (r1 & c1 & Hp2 & Hp1 & _).
  apply lattice_candidates_elem in Hq as (r2 & c2 & Hq2 & Hq1 & _).
  assert (Hrc : (r1, c1) ≠ (r2, c2)).
  { intros [= -> ->]. apply Hne.
    destruct p as [pd pp], q as [qd qp]. cbn [fst snd] in *. congruence. }
  rewrite Hp2, Hq2. split.
  - intros Heq. apply Hrc. eapply lattice_point_inj; eassumption.
  - apply lattice_point_far. exact Hrc.
Qed.

End lattice_candidates.

Lemma lattice_candidates_member (center : ndarray) (s : R) (rows cols : Z)
    (keep : R → R → Prop) (keep_dec : ∀ x y, {keep x y} + {¬ keep x y})
    (row col : Z) :
  (- rows ≤ row ≤ rows)%Z → (- cols ≤ col ≤ cols)%Z →
  keep (lattice_xy s (s * 0.866) row col).1
       (lattice_xy s (s * 0.866) row col).2 →
  (linalg_norm (np_sub (lattice_point center s row col) center),
   lattice_point center s row col)
    ∈ lattice_candidates center s rows cols keep keep_dec.
Proof.
  intros Hrow Hcol Hkeep. unfold lattice_candidates, lattice_point.
  apply list_elem_of_bind. exists row. split.
  - apply list_elem_of_bind. exists col. split.
    + destruct (lattice_xy s (s * 0.866) row col) as [x y].
      cbn [fst snd] in Hkeep.
      destruct (keep_dec x y); [| contradiction].
      apply list_elem_of_singleton. reflexivity.
    + unfold Py.range. apply elem_of_seqZ. lia.
  - unfold Py.range. apply elem_of_seqZ. lia.
Qed.

(** The centre and its six nearest lattice neighbours, as (row, col). *)
Lemma near_origin_within_spacing (s : R) (row col : Z) :
  (row, col) ∈ [(0, 0); (0, 1); (0, -1); (1, 0); (1, -1); (-1, 0); (-1, -1)]%Z →
  (lattice_xy s (s * 0.866) row col).1 ^ 2
  + (lattice_xy s (s * 0.866) row col).2 ^ 2 <= s ^ 2.
Proof.
  intros Hin. rewrite lattice_xy_eq. cbn [fst snd].
  assert (H0 : row_offset 0 = 0).
  { unfold row_offset. destruct (decide _) as [H | _]; [| reflexivity].
    exfalso. apply H. reflexivity. }
  assert (H1 : row_offset 1 = 1 / 2).
  { unfold row_offset. destruct (decide _) as [_ | H]; [reflexivity |].
    exfalso. apply H. discriminate. }
  assert (Hm1 : row_offset (-1) = 1 / 2).
  { unfold row_offset. destruct (decide _) as [_ | H]; [reflexivity |].
    exfalso. apply H. discriminate. }
  pose proof (pow2_ge_0 s).
  set_unfold in Hin.
  destruct Hin as [[= -> ->] | [[= -> ->] | [[= -> ->] | [[= -> ->]
                  | [[= -> ->] | [[= -> ->] | [[= -> ->] | []]]]]]]];
    rewrite ?H0, ?H1, ?Hm1; nra.
Qed.

(** ** Packing engine: the two packers *)

Lemma hexagonal_candidates_lattice (center : ndarray)
    (radius elem_size padding : R) (cands : list (R * ndarray)) :
  hexagonal_candidates center radius elem_size padding = Ok cands →
  elem_size + padding ≠ 0
  ∧ ∃ rows cols,
      cands = lattice_candidates center (elem_size + padding) rows cols
                (λ x y, in_circle center radius (np_add center (x, y, 0)))
                (λ x y, Rle_dec _ radius).
Proof.
  unfold hexagonal_candidates, Py.truediv.
  destruct (Req_dec_T (elem_size + padding) 0) as [? | Hs]; [discriminate |].
  destruct (Req_dec_T ((elem_size + padding) * 0.866) 0); [discriminate |].
  simpl. intros [= <-]. split; [exact Hs |].
  eexists _, _. reflexivity.
Qed.

Lemma hexagonal_candidates_ok (center : ndarray)
    (radius elem_size padding : R) :
  elem_size + padding ≠ 0 →
  ∃ cands, hexagonal_candidates center radius elem_size padding = Ok cands.
Proof.
  intros Hs. unfold hexagonal_candidates.
  rewrite !truediv_ok by lra. simpl. eexists. reflexivity.
Qed.

Lemma elliptical_candidates_lattice (center : ndarray)
    (width height elem_size padding : R) (cands : list (R * ndarray)) :
  elliptical_candidates center width height elem_size padding = Ok cands →
  elem_size + padding ≠ 0
  ∧ ∃ rows cols,
      cands = lattice_candidates center (elem_size + padding) rows cols
                (λ x y,
                   (if Rgt_dec width 0 then 2 * x / width else 0) ^ 2
                   + (if Rgt_dec height 0 then 2 * y / height else 0) ^ 2
                   <= 1)
                (λ x y, Rle_dec _ 1).
Proof.
  unfold elliptical_candidates, Py.truediv.
  destruct (Req_dec_T (elem_size + padding) 0) as [? | Hs]; [discriminate |].
  destruct (Req_dec_T ((elem_size + padding) * 0.866) 0); [discriminate |].
  simpl. intros [= <-]. split; [exact Hs |].
  eexists _, _. reflexivity.
Qed.

Lemma elliptical_candidates_ok (center : ndarray)
    (width height elem_size padding : R) :
  elem_size + padding ≠ 0 →
  ∃ cands,
    elliptical_candidates center width height elem_size padding = Ok cands.
Proof.
  intros Hs. unfold elliptical_candidates.
  rewrite !truediv_ok by lra. simpl. eexists. reflexivity.
Qed.

Lemma hexagonal_candidates_inside (center : ndarray)
    (radius elem_size padding : R) (cands : list (R * ndarray))
    (dp : R * ndarray) :
  hexagonal_candidates center radius elem_size padding = Ok cands →
  dp ∈ cands → in_circle center radius dp.2.
Proof.
  intros Hc Hin.
  apply hexagonal_candidates_lattice in Hc as (_ & rows & cols & ->).
  apply lattice_candidates_elem in Hin as (row & col & -> & _ & Hkeep).
  unfold lattice_point.
  destruct (lattice_xy _ _ row col) as [x y]. exact Hkeep.
Qed.

Lemma elliptical_candidates_inside (center : ndarray)
    (width height elem_size padding : R) (cands : list (R * ndarray))
    (dp : R * ndarray) :
  0 < width → 0 < height →
  elliptical_candidates center width height elem_size padding = Ok cands →
  dp ∈ cands → in_ellipse center width height dp.2.
Proof.
  intros Hw Hh Hc Hin.
  apply elliptical_candidates_lattice in Hc as (_ & rows & cols & ->).
  apply lattice_candidates_elem in Hin as (row & col & -> & _ & Hkeep).
  unfold lattice_point, in_ellipse.
  destruct (lattice_xy _ _ row col) as [x y]. cbn [fst snd] in Hkeep.
  rewrite np_sub_add_cancel.
  destruct (Rgt_dec width 0); [| lra].
  destruct (Rgt_dec height 0); [| lra].
  exact Hkeep.
Qed.

Lemma pack_candidates (b : boundary) (elements : list Z) (center : ndarray)
    (elem_size padding : R) :
  pack b elements center elem_size padding =
  cands ← candidates b center elem_size padding;
  Ok (assign_positions elements (sort_by_dist cands) center).
Proof. destruct b; reflexivity. Qed.

Lemma candidates_lattice (b : boundary) (center : ndarray)
    (elem_size padding : R) (cands : list (R * ndarray)) :
  candidates b center elem_size padding = Ok cands →
  elem_size + padding ≠ 0
  ∧ ∃ rows cols keep keep_dec,
      cands = lattice_candidates center (elem_size + padding) rows cols
                keep keep_dec.
Proof.
  destruct b as [radius | width height]; simpl; intros Hc.
  - apply hexagonal_candidates_lattice in Hc as (Hs & rows & cols & ->).
    split; [exact Hs |]. eexists _, _, _, _. reflexivity.
  - apply elliptical_candidates_lattice in Hc as (Hs & rows & cols & ->).
    split; [exact Hs |]. eexists _, _, _, _. reflexivity.
Qed.

Lemma candidates_ok (b : boundary) (center : ndarray) (elem_size padding : R) :
  elem_size + padding ≠ 0 →
  ∃ cands, candidates b center elem_size padding = Ok cands.
Proof.
  destruct b; simpl;
    [apply hexagonal_candidates_ok | apply elliptical_candidates_ok].
Qed.

Lemma candidates_inside (b : boundary) (center : ndarray)
    (elem_size padding : R) (cands : list (R * ndarray)) (dp : R * ndarray) :
  boundary_wf b →
  candidates b center elem_size padding = Ok cands →
  dp ∈ cands → inside b center dp.2.
Proof.
  destruct b as [radius | width height]; simpl.
  - intros _. apply hexagonal_candidates_inside.
  - intros [Hw Hh]. apply elliptical_candidates_inside; assumption.
Qed.

(** The packer of a region that has at least as many candidates as
    elements. *)
Lemma pack_within_candidates (b : boundary) (elements : list Z)
    (center : ndarray) (elem_size padding : R) (cands : list (R * ndarray)) :
  boundary_wf b →
  candidates b center elem_size padding = Ok cands →
  (length elements ≤ length cands)%nat →
  ∃ m,
    pack b elements center elem_size padding = Ok m
    ∧ (∀ e, e ∈ elements → ∃ p, m !! e = Some p ∧ inside b center p)
    ∧ (∀ e1 e2 p1 p2, e1 ∈ elements → e2 ∈ elements → e1 ≠ e2 →
         m !! e1 = Some p1 → m !! e2 = Some p2 →
         p1 ≠ p2
         ∧ elem_size + padding - separation_slack elem_size padding
             <= linalg_norm (np_sub p1 p2)).
Proof.
  intros Hwf Hc Hlen.
  rewrite pack_candidates, Hc. simpl. eexists. split; [reflexivity |].
  set (m := assign_positions elements (sort_by_dist cands) center).
  destruct (candidates_lattice _ _ _ _ _ Hc)
    as (Hs & rows & cols & keep & keep_dec & Hlat).
  assert (Hndc : NoDup (sort_by_dist cands)).
  { rewrite sort_by_dist_perm, Hlat. apply lattice_candidates_NoDup. exact Hs. }
  assert (Hslot : ∀ e, e ∈ elements →
    ∃ i dp, elements !! i = Some e ∧ sort_by_dist cands !! i = Some dp
            ∧ dp ∈ cands ∧ m !! e = Some dp.2).
  { intros e He.
    destruct (assign_positions_elem (sort_by_dist cands) center elements e He)
      as (i & Hi & Hm).
    assert (Hlt : (i < length (sort_by_dist cands))%nat).
    { rewrite sort_by_dist_length. apply lookup_lt_Some in Hi. lia. }
    apply lookup_lt_is_Some_2 in Hlt as [dp Hdp].
    exists i, dp. split; [exact Hi |]. split; [exact Hdp |]. split.
    - rewrite <- (sort_by_dist_perm cands).
      apply list_elem_of_lookup_2 in Hdp. exact Hdp.
    - unfold m. rewrite Hm. unfold candidate_at. rewrite Hdp. reflexivity. }
  split.
  - intros e He. destruct (Hslot e He) as (i & dp & _ & _ & Hin & Hm).
    exists dp.2. split; [exact Hm |].
    eapply candidates_inside; eassumption.
  - intros e1 e2 p1 p2 He1 He2 Hne H1 H2.
    destruct (Hslot e1 He1) as (i1 & dp1 & Hi1 & Hs1 & Hin1 & Hm1).
    destruct (Hslot e2 He2) as (i2 & dp2 & Hi2 & Hs2 & Hin2 & Hm2).
    rewrite Hm1 in H1. injection H1 as <-.
    rewrite Hm2 in H2. injection H2 as <-.
    assert (Hdp : dp1 ≠ dp2).
    { intros ->. apply Hne.
      pose proof (NoDup_lookup _ _ _ _ Hndc Hs1 Hs2) as ->. congruence. }
    rewrite Hlat in Hin1, Hin2.
    destruct (lattice_candidates_far _ _ _ _ _ _ _ _ Hs Hin1 Hin2 Hdp)
      as [Hpos Hfar].
    split; [exact Hpos |].
    unfold separation_slack. lra.
Qed.

Lemma moderate_spacing (b : boundary) (center : ndarray) (s : R) :
  moderate b center s → 0 < s.
Proof.
  intros [[Hs _] _].
  assert (0 < / 10 ^ 100) by (apply Rinv_0_lt_compat, pow_lt; lra). lra.
Qed.

Lemma moderate_wf (b : boundary) (center : ndarray) (s : R) :
  moderate b center s → boundary_wf b.
Proof.
  intros Hm. pose proof (moderate_spacing _ _ _ Hm) as Hs.
  destruct Hm as (_ & _ & _ & Hb).
  destruct b as [radius | width height]; simpl; [exact I | lra].
Qed.

Lemma int_floor_lt (x : R) : 0 <= x → x < IZR (Py.int x) + 1.
Proof.
  intros Hx. unfold Py.int. destruct (Rle_dec 0 x); [| contradiction].
  apply Zfloor_bound.
Qed.

Lemma abs_le_of_sqr (a b : R) : 0 <= b → a ^ 2 <= b ^ 2 → Rabs a <= b.
Proof.
  intros Hb Hsq. apply Rabs_le.
  split; [destruct (Rle_dec (- b) a) | destruct (Rle_dec a b)];
    try assumption; exfalso; nra.
Qed.

(** An integer within [bound] of the origin, up to a half, lies in
    [range(-n, n + 1)] as soon as [bound < n]. *)
Lemma index_in_window (k n : Z) (off bound : R) :
  0 <= off <= 1 / 2 → Rabs (IZR k + off) <= bound → bound < IZR n →
  (- n ≤ k ≤ n)%Z.
Proof.
  intros Hoff Habs Hn.
  assert (Hk : - bound <= IZR k + off <= bound).
  { unfold Rabs in Habs. destruct (Rcase_abs _); lra. }
  clear Habs.
  assert (Hlo : (-1 < k + n)%Z).
  { apply lt_IZR. rewrite plus_IZR. lra. }
  assert (Hhi : (k < n)%Z) by (apply lt_IZR; lra).
  lia.
Qed.

Lemma row_offset_range (row : Z) : 0 <= row_offset row <= 1 / 2.
Proof. unfold row_offset. destruct (decide _); lra. Qed.

(** The scan window of [_hexagonal_pack] contains every lattice point
    inside the circle, and the distance test accepts it. *)
Lemma hexagonal_candidates_complete (center : ndarray)
    (radius elem_size padding : R) (cands : list (R * ndarray)) (rc : Z * Z) :
  0 < elem_size + padding →
  hexagonal_candidates center radius elem_size padding = Ok cands →
  well_inside (Circle radius) (elem_size + padding) rc →
  (linalg_norm (np_sub (lattice_point center (elem_size + padding) rc.1 rc.2)
                  center),
   lattice_point center (elem_size + padding) rc.1 rc.2) ∈ cands.
Proof.
  intros Hs Hc Hin. destruct rc as [row col]. cbn [fst snd] in *.
  unfold hexagonal_candidates in Hc.
  rewrite !truediv_ok in Hc by lra. cbn [mbind result_bind] in Hc.
  injection Hc as <-.
  set (s := elem_size + padding) in *.
  unfold well_inside in Hin. cbn [fst snd] in Hin.
  rewrite lattice_xy_eq in Hin.
  set (x := (IZR col + row_offset row) * s) in *.
  set (y := IZR row * (s * 0.866)) in *.
  assert (Hsum : 0 <= x ^ 2 + y ^ 2)
    by (pose proof (pow2_ge_0 x); pose proof (pow2_ge_0 y); lra).
  assert (Hsq : sqrt (x ^ 2 + y ^ 2) ^ 2 = x ^ 2 + y ^ 2)
    by (apply pow2_sqrt; exact Hsum).
  pose proof (sqrt_pos (x ^ 2 + y ^ 2)) as Hpos.
  assert (Hr : 0 <= radius) by (unfold boundary_margin in Hin; nra).
  assert (Hle : sqrt (x ^ 2 + y ^ 2) <= radius)
    by (unfold boundary_margin in Hin; nra).
  assert (Hx : Rabs x <= radius).
  { apply abs_le_of_sqr; [exact Hr |]. pose proof (pow2_ge_0 y). nra. }
  assert (Hy : Rabs y <= radius).
  { apply abs_le_of_sqr; [exact Hr |]. pose proof (pow2_ge_0 x). nra. }
  assert (Hqx : 0 <= 2 * radius / s).
  { apply Rmult_le_pos; [lra |]. left. apply Rinv_0_lt_compat. exact Hs. }
  assert (Hqy : 0 <= 2 * radius / (s * 0.866)).
  { apply Rmult_le_pos; [lra |]. left. apply Rinv_0_lt_compat. lra. }
  pose proof (int_floor_lt _ Hqx) as Hcols.
  pose proof (int_floor_lt _ Hqy) as Hrows.
  pose proof (int_nonneg _ Hqx) as Hcols0. apply IZR_le in Hcols0.
  pose proof (int_nonneg _ Hqy) as Hrows0. apply IZR_le in Hrows0.
  apply (lattice_candidates_member center s _ _
           (λ x y, in_circle center radius (np_add center (x, y, 0)))
           (λ x y, Rle_dec _ radius)).
  - apply (index_in_window row _ 0 (radius / (s * 0.866))); [lra | |].
    + rewrite Rplus_0_r.
      replace (IZR row) with (y / (s * 0.866)) by (unfold y; field; lra).
      unfold Rdiv. rewrite Rabs_mult, (Rabs_pos_eq (/ _)).
      * apply Rmult_le_compat_r; [| exact Hy].
        left. apply Rinv_0_lt_compat. lra.
      * left. apply Rinv_0_lt_compat. lra.
    + rewrite plus_IZR.
      replace (2 * radius / (s * 0.866)) with (2 * (radius / (s * 0.866)))
        in * by (field; lra).
      assert (0 <= radius / (s * 0.866)).
      { apply Rmult_le_pos; [lra |]. left. apply Rinv_0_lt_compat. lra. }
      lra.
  - apply (index_in_window col _ (row_offset row) (radius / s));
      [apply row_offset_range | |].
    + replace (IZR col + row_offset row) with (x / s) by (unfold x; field; lra).
      unfold Rdiv. rewrite Rabs_mult, (Rabs_pos_eq (/ _)).
      * apply Rmult_le_compat_r; [| exact Hx].
        left. apply Rinv_0_lt_compat. lra.
      * left. apply Rinv_0_lt_compat. lra.
    + rewrite plus_IZR.
      replace (2 * radius / s) with (2 * (radius / s)) in * by (field; lra).
      assert (0 <= radius / s).
      { apply Rmult_le_pos; [lra |]. left. apply Rinv_0_lt_compat. lra. }
      lra.
  - rewrite lattice_xy_eq. cbn [fst snd]. fold x y.
    unfold in_circle. rewrite np_sub_add_cancel. unfold linalg_norm.
    replace (x ^ 2 + y ^ 2 + 0 ^ 2) with (x ^ 2 + y ^ 2) by ring.
    exact Hle.
Qed.

(** The scan window of [_elliptical_pack] contains every lattice point
    inside the ellipse, and the ellipse test accepts it. *)
Lemma elliptical_candidates_complete (center : ndarray)
    (width height elem_size padding : R) (cands : list (R * ndarray))
    (rc : Z * Z) :
  0 < elem_size + padding → 0 < width → 0 < height →
  elliptical_candidates center width height elem_size padding = Ok cands →
  well_inside (Ellipse width height) (elem_size + padding) rc →
  (linalg_norm (np_sub (lattice_point center (elem_size + padding) rc.1 rc.2)
                  center),
   lattice_point center (elem_size + padding) rc.1 rc.2) ∈ cands.
Proof.
  intros Hs Hw Hh Hc Hin. destruct rc as [row col]. cbn [fst snd] in *.
  unfold elliptical_candidates in Hc.
  rewrite !truediv_ok in Hc by lra. cbn [mbind result_bind] in Hc.
  injection Hc as <-.
  set (s := elem_size + padding) in *.
  unfold well_inside in Hin. cbn [fst snd] in Hin.
  rewrite lattice_xy_eq in Hin.
  set (x := (IZR col + row_offset row) * s) in *.
  set (y := IZR row * (s * 0.866)) in *.
  assert (Hle : (2 * x / width) ^ 2 + (2 * y / height) ^ 2 <= 1)
    by (unfold boundary_margin in Hin; lra).
  assert (Hx : Rabs x <= width / 2).
  { apply abs_le_of_sqr; [lra |].
    pose proof (pow2_ge_0 (2 * y / height)).
    assert (Hx2 : (2 * x / width) ^ 2 <= 1) by lra.
    replace (x ^ 2) with ((width / 2) ^ 2 * (2 * x / width) ^ 2)
      by (field; lra).
    pose proof (pow2_ge_0 (width / 2)). nra. }
  assert (Hy : Rabs y <= height / 2).
  { apply abs_le_of_sqr; [lra |].
    pose proof (pow2_ge_0 (2 * x / width)).
    assert (Hy2 : (2 * y / height) ^ 2 <= 1) by lra.
    replace (y ^ 2) with ((height / 2) ^ 2 * (2 * y / height) ^ 2)
      by (field; lra).
    pose proof (pow2_ge_0 (height / 2)). nra. }
  assert (Hqx : 0 <= width / s).
  { apply Rmult_le_pos; [lra |]. left. apply Rinv_0_lt_compat. exact Hs. }
  assert (Hqy : 0 <= height / (s * 0.866)).
  { apply Rmult_le_pos; [lra |]. left. apply Rinv_0_lt_compat. lra. }
  pose proof (int_floor_lt _ Hqx) as Hcols.
  pose proof (int_floor_lt _ Hqy) as Hrows.
  apply (lattice_candidates_member center s _ _
           (λ x y,
              (if Rgt_dec width 0 then 2 * x / width else 0) ^ 2
              + (if Rgt_dec height 0 then 2 * y / height else 0) ^ 2 <= 1)
           (λ x y, Rle_dec _ 1)).
  - apply (index_in_window row _ 0 (height / 2 / (s * 0.866))); [lra | |].
    + rewrite Rplus_0_r.
      replace (IZR row) with (y / (s * 0.866)) by (unfold y; field; lra).
      unfold Rdiv at 1 3. rewrite Rabs_mult, (Rabs_pos_eq (/ _)).
      * apply Rmult_le_compat_r; [| exact Hy].
        left. apply Rinv_0_lt_compat. lra.
      * left. apply Rinv_0_lt_compat. lra.
    + rewrite plus_IZR.
      replace (height / 2 / (s * 0.866)) with (height / (s * 0.866) / 2)
        by (field; lra).
      lra.
  - apply (index_in_window col _ (row_offset row) (width / 2 / s));
      [apply row_offset_range | |].
    + replace (IZR col + row_offset row) with (x / s) by (unfold x; field; lra).
      unfold Rdiv at 1 3. rewrite Rabs_mult, (Rabs_pos_eq (/ _)).
      * apply Rmult_le_compat_r; [| exact Hx].
        left. apply Rinv_0_lt_compat. lra.
      * left. apply Rinv_0_lt_compat. lra.
    + rewrite plus_IZR.
      replace (width / 2 / s) with (width / s / 2) by (field; lra).
      lra.
  - rewrite lattice_xy_eq. cbn [fst snd]. fold x y.
    destruct (Rgt_dec width 0); [| lra].
    destruct (Rgt_dec height 0); [| lra].
    exact Hle.
Qed.

Lemma candidates_complete (b : boundary) (center : ndarray)
    (elem_size padding : R) (cands : list (R * ndarray)) (rc : Z * Z) :
  0 < elem_size + padding → boundary_wf b →
  candidates b center elem_size padding = Ok cands →
  well_inside b (elem_size + padding) rc →
  (linalg_norm (np_sub (lattice_point center (elem_size + padding) rc.1 rc.2)
                  center),
   lattice_point center (elem_size + padding) rc.1 rc.2) ∈ cands.
Proof.
  intros Hs Hwf Hc Hin. destruct b as [radius | width height]; simpl in Hc.
  - exact (hexagonal_candidates_complete _ _ _ _ _ _ Hs Hc Hin).
  - destruct Hwf as [Hw Hh].
    exact (elliptical_candidates_complete _ _ _ _ _ _ _ Hs Hw Hh Hc Hin).
Qed.

(** Distinct lattice points inside the shrunk boundary are distinct
    candidates, so there are at least as many candidates. *)
Lemma candidates_capacity (b : boundary) (center : ndarray)
    (elem_size padding : R) (cands : list (R * ndarray)) (pts : list (Z * Z)) :
  0 < elem_size + padding → boundary_wf b →
  candidates b center elem_size padding = Ok cands →
  NoDup pts →
  (∀ rc, rc ∈ pts → well_inside b (elem_size + padding) rc) →
  (length pts ≤ length cands)%nat.
Proof.
  intros Hs Hwf Hc Hnd Hin.
  set (f := λ rc : Z * Z,
    (linalg_norm (np_sub (lattice_point center (elem_size + padding) rc.1 rc.2)
                    center),
     lattice_point center (elem_size + padding) rc.1 rc.2)).
  rewrite <- (length_fmap f pts).
  apply submseteq_length, NoDup_submseteq.
  - apply NoDup_fmap_2_strong; [| exact Hnd].
    intros [r1 c1] [r2 c2] _ _ Heq. unfold f in Heq. cbn [fst snd] in Heq.
    injection Heq as _ Heq.
    apply lattice_point_inj in Heq; [exact Heq | lra].
  - intros dp Hdp. apply list_elem_of_fmap in Hdp as (rc & -> & Hrc).
    eapply candidates_complete; eauto.
Qed.

Lemma row_offset_0 : row_offset 0 = 0.
Proof.
  unfold row_offset. destruct (decide _) as [H | _]; [| reflexivity].
  exfalso. apply H. reflexivity.
Qed.

Lemma row_offset_1 : row_offset 1 = 1 / 2.
Proof.
  unfold row_offset. destruct (decide _) as [_ | H]; [reflexivity |].
  exfalso. apply H. discriminate.
Qed.

Lemma moderate_unit_spacing (b : boundary) (center : ndarray) (s : R) :
  s = 1 → Rabs center.1.1 <= 10 ^ 6 → Rabs center.1.2 <= 10 ^ 6 →
  match b with
  | Circle radius => Rabs radius <= 1000
  | Ellipse width height =>
      1 / 1000 <= width <= 1000 ∧ 1 / 1000 <= height <= 1000
  end →
  moderate b center s.
Proof.
  intros -> Hx Hy Hb. unfold moderate.
  assert (H100 : 1 <= 10 ^ 100) by (apply pow_R1_Rle; lra).
  assert (Hinv : / 10 ^ 100 <= 1).
  { rewrite <- Rinv_1. apply Rinv_le_contravar; lra. }
  split; [lra |]. split; [lra |]. split; [lra |].
  destruct b; lra.
Qed.

Lemma moderate_unit (b : boundary) :
  match b with
  | Circle radius => Rabs radius <= 1000
  | Ellipse width height =>
      1 / 1000 <= width <= 1000 ∧ 1 / 1000 <= height <= 1000
  end →
  moderate b (1, 0, 0) (0.75 + 0.25).
Proof.
  intros Hb. apply moderate_unit_spacing; [lra | | | exact Hb]; cbn [fst snd].
  - rewrite Rabs_R1. apply pow_R1_Rle. lra.
  - rewrite Rabs_R0. apply pow_le. lra.
Qed.

(** C6 (amended).  Take a region of moderate magnitudes: a spacing
    [elem_size + padding] between [10^-100] and [10^100], a centre whose x
    and y are at most [10^6] spacings in size, and a boundary (a circle, or
    an ellipse) of at most 1000 spacings, the ellipse also of at least a
    thousandth of a spacing in width and height.  When the region has at
    most as many elements as there are lattice points inside its boundary
    shrunk by the relative margin [10^-6], the packer returns a map in which
    every element has a position inside or on the boundary, and two
    different elements have different positions at least
    [elem_size + padding - eps] apart, where [eps] is 0.003% of the
    spacing. *)
Theorem packing_complete_and_separated (b : boundary) (elements : list Z)
    (center : ndarray) (elem_size padding : R) (pts : list (Z * Z)) :
  moderate b center (elem_size + padding) →
  NoDup pts →
  (∀ rc, rc ∈ pts → well_inside b (elem_size + padding) rc) →
  (length elements ≤ length pts)%nat →
  ∃ m,
    pack b elements center elem_size padding = Ok m
    ∧ (∀ e, e ∈ elements → ∃ p, m !! e = Some p ∧ inside b center p)
    ∧ (∀ e1 e2 p1 p2, e1 ∈ elements → e2 ∈ elements → e1 ≠ e2 →
         m !! e1 = Some p1 → m !! e2 = Some p2 →
         p1 ≠ p2
         ∧ elem_size + padding - separation_slack elem_size padding
             <= linalg_norm (np_sub p1 p2)).
Proof.
  intros Hmod Hnd Hin Hlen.
  pose proof (moderate_spacing _ _ _ Hmod) as Hs.
  pose proof (moderate_wf _ _ _ Hmod) as Hwf.
  destruct (candidates_ok b center elem_size padding ltac:(lra)) as [cands Hc].
  apply (pack_within_candidates b elements center elem_size padding cands
           Hwf Hc).
  etransitivity; [exact Hlen |].
  eapply candidates_capacity; eassumption.
Qed.

Lemma packing_complete_and_separated_witness :
  (moderate (Circle 2) (1, 0, 0) (0.75 + 0.25)
   ∧ NoDup [(0, 0); (0, 1); (0, -1); (1, 0); (1, -1); (-1, 0); (-1, -1)]%Z
   ∧ (∀ rc,
        rc ∈ [(0, 0); (0, 1); (0, -1); (1, 0); (1, -1); (-1, 0); (-1, -1)]%Z →
        well_inside (Circle 2) (0.75 + 0.25) rc)
   ∧ (length [1; 2; 3; 4; 5; 6; 7]%Z ≤ 7)%nat
   ∧ ∃ m,
       pack (Circle 2) [1; 2; 3; 4; 5; 6; 7]%Z (1, 0, 0) 0.75 0.25 = Ok m
       ∧ (∀ e, e ∈ [1; 2; 3; 4; 5; 6; 7]%Z →
            ∃ p, m !! e = Some p ∧ inside (Circle 2) (1, 0, 0) p)
       ∧ (∀ e1 e2 p1 p2,
            e1 ∈ [1; 2; 3; 4; 5; 6; 7]%Z → e2 ∈ [1; 2; 3; 4; 5; 6; 7]%Z →
            e1 ≠ e2 → m !! e1 = Some p1 → m !! e2 = Some p2 →
            p1 ≠ p2
            ∧ 0.75 + 0.25 - separation_slack 0.75 0.25
                <= linalg_norm (np_sub p1 p2)))
  ∧ (moderate (Ellipse 4 2) (1, 0, 0) (0.75 + 0.25)
     ∧ NoDup [(0, 0); (0, 1); (1, 0)]%Z
     ∧ (∀ rc, rc ∈ [(0, 0); (0, 1); (1, 0)]%Z →
          well_inside (Ellipse 4 2) (0.75 + 0.25) rc)
     ∧ (length [8; 9; 10]%Z ≤ 3)%nat
     ∧ ∃ m,
         pack (Ellipse 4 2) [8; 9; 10]%Z (1, 0, 0) 0.75 0.25 = Ok m
         ∧ (∀ e, e ∈ [8; 9; 10]%Z →
              ∃ p, m !! e = Some p ∧ inside (Ellipse 4 2) (1, 0, 0) p)
         ∧ (∀ e1 e2 p1 p2,
              e1 ∈ [8; 9; 10]%Z → e2 ∈ [8; 9; 10]%Z →
              e1 ≠ e2 → m !! e1 = Some p1 → m !! e2 = Some p2 →
              p1 ≠ p2
              ∧ 0.75 + 0.25 - separation_slack 0.75 0.25
                  <= linalg_norm (np_sub p1 p2))).
Proof.
  assert (Hc : moderate (Circle 2) (1, 0, 0) (0.75 + 0.25)).
  { apply (moderate_unit (Circle 2)). rewrite Rabs_pos_eq; lra. }
  assert (He : moderate (Ellipse 4 2) (1, 0, 0) (0.75 + 0.25)).
  { apply (moderate_unit (Ellipse 4 2)). lra. }
  assert (Hnd7 :
    NoDup [(0, 0); (0, 1); (0, -1); (1, 0); (1, -1); (-1, 0); (-1, -1)]%Z).
  { apply (bool_decide_unpack _). vm_compute. reflexivity. }
  assert (Hnd3 : NoDup [(0, 0); (0, 1); (1, 0)]%Z).
  { apply (bool_decide_unpack _). vm_compute. reflexivity. }
  assert (Hin7 : ∀ rc,
    rc ∈ [(0, 0); (0, 1); (0, -1); (1, 0); (1, -1); (-1, 0); (-1, -1)]%Z →
    well_inside (Circle 2) (0.75 + 0.25) rc).
  { intros [row col] Hrc.
    pose proof (near_origin_within_spacing (0.75 + 0.25) row col Hrc) as Hnear.
    unfold well_inside. cbn [fst snd].
    destruct (lattice_xy _ _ row col) as [x y]. cbn [fst snd] in Hnear.
    apply Rle_trans with (sqrt ((0.75 + 0.25) ^ 2)).
    - apply sqrt_le_1_alt. exact Hnear.
    - rewrite sqrt_pow2 by lra. unfold boundary_margin. lra. }
  assert (Hin3 : ∀ rc, rc ∈ [(0, 0); (0, 1); (1, 0)]%Z →
    well_inside (Ellipse 4 2) (0.75 + 0.25) rc).
  { intros [row col] Hrc. unfold well_inside. cbn [fst snd].
    rewrite lattice_xy_eq. unfold boundary_margin.
    set_unfold in Hrc.
    destruct Hrc as [[= -> ->] | [[= -> ->] | [[= -> ->] | []]]];
      rewrite ?row_offset_0, ?row_offset_1; lra. }
  split.
  - split; [exact Hc |]. split; [exact Hnd7 |]. split; [exact Hin7 |].
    split; [simpl; lia |].
    apply (packing_complete_and_separated (Circle 2) [1; 2; 3; 4; 5; 6; 7]%Z
             (1, 0, 0) 0.75 0.25 _ Hc Hnd7 Hin7). simpl. lia.
  - split; [exact He |]. split; [exact Hnd3 |]. split; [exact Hin3 |].
    split; [simpl; lia |].
    apply (packing_complete_and_separated (Ellipse 4 2) [8; 9; 10]%Z
             (1, 0, 0) 0.75 0.25 _ He Hnd3 Hin3). simpl. lia.
Defined.

(** C6 as stated fails in three ways.  Counting the lattice points inside
    or on the boundary overstates what the packer finds: for a circle whose
    radius equals the spacing 0.75, seven lattice points lie inside or on
    it, but around the centre x = 0.6 the rounded difference
    [(0.6 + 0.75) - 0.6] exceeds 0.75, the packer keeps six candidates, and
    of seven elements the first and the last are both put on the centre.
    With a spacing of 0 the packer raises [ZeroDivisionError].  And around
    the centre x = 2^60 every offset of a few units is absorbed by the
    addition, so two elements get the same position. *)
Lemma packing_fails :
  (NoDup [(0, 0); (0, 1); (0, -1); (1, 0); (1, -1); (-1, 0); (-1, -1)]%Z
   ∧ (∀ rc,
        rc ∈ [(0, 0); (0, 1); (0, -1); (1, 0); (1, -1); (-1, 0); (-1, -1)]%Z →
        inside (Circle 0.75) (0.6, 0, 0)
          (lattice_point (0.6, 0, 0) (0.5 + 0.25) rc.1 rc.2))
   ∧ (length [1; 2; 3; 4; 5; 6; 7]%Z ≤ 7)%nat
   ∧ ∃ m,
       Binary64._hexagonal_pack [1; 2; 3; 4; 5; 6; 7]%Z (0.6, 0, 0)%float
         0.75%float 0.5%float 0.25%float = Ok m
       ∧ m !! 1%Z = Some (0.6, 0, 0)%float
       ∧ m !! 7%Z = Some (0.6, 0, 0)%float)
  ∧ pack (Circle 1) [1%Z] (0, 0, 0) 0 0 = Raise ZeroDivisionError
  ∧ (NoDup [(0, 0); (0, 1)]%Z
     ∧ (∀ rc, rc ∈ [(0, 0); (0, 1)]%Z →
          inside (Circle 1) (2 ^ 60, 0, 0)
            (lattice_point (2 ^ 60, 0, 0) (0.75 + 0.25) rc.1 rc.2))
     ∧ (length [1; 2]%Z ≤ 2)%nat
     ∧ ∃ m,
         Binary64._hexagonal_pack [1; 2]%Z (0x1p60, 0, 0)%float
           1%float 0.75%float 0.25%float = Ok m
         ∧ m !! 1%Z = Some (0x1p60, 0, 0)%float
         ∧ m !! 2%Z = Some (0x1p60, 0, 0)%float).
Proof.
  assert (Hin : ∀ (center : ndarray) (s : R) (rc : Z * Z),
    0 <= s →
    rc ∈ [(0, 0); (0, 1); (0, -1); (1, 0); (1, -1); (-1, 0); (-1, -1)]%Z →
    inside (Circle s) center (lattice_point center s rc.1 rc.2)).
  { intros center s [row col] Hs Hrc.
    pose proof (near_origin_within_spacing s row col Hrc) as Hnear.
    cbn [inside fst snd]. unfold in_circle, lattice_point.
    destruct (lattice_xy _ _ row col) as [x y]. cbn [fst snd] in Hnear.
    rewrite np_sub_add_cancel. unfold linalg_norm.
    replace (x ^ 2 + y ^ 2 + 0 ^ 2) with (x ^ 2 + y ^ 2) by ring.
    apply Rle_trans with (sqrt (s ^ 2)).
    - apply sqrt_le_1_alt. exact Hnear.
    - rewrite sqrt_pow2 by exact Hs. lra. }
  split; [| split].
  - split; [apply (bool_decide_unpack _); vm_compute; reflexivity |].
    split.
    + intros rc Hrc. replace 0.75 with (0.5 + 0.25) at 1 by lra.
      apply Hin; [lra | exact Hrc].
    + split; [simpl; lia |].
      eexists. split; [vm_compute; reflexivity |].
      split; vm_compute; reflexivity.
  - unfold pack, _hexagonal_pack, hexagonal_candidates, Py.truediv.
    replace (0 + 0) with 0 by lra.
    destruct (Req_dec_T 0 0) as [_ | Hne]; [reflexivity | contradiction].
  - split; [apply (bool_decide_unpack _); vm_compute; reflexivity |].
    split.
    + intros rc Hrc. replace 1 with (0.75 + 0.25) at 1 by lra.
      apply Hin; [lra | set_solver].
    + split; [simpl; lia |].
      eexists. split; [vm_compute; reflexivity |].
      split; vm_compute; reflexivity.
Qed.

(** ** Packing engine: [pack_elements] *)

Section pack_elements_facts.

Variable py_list : gset Z → list Z.
Variables set_a set_b : gset Z.
Variable layout : VennLayout.

Lemma pack_elements_steps (elements : list Z) :
  pack_elements py_list elements set_a set_b layout =
  p1 ← region_step py_list AOnly set_a set_b layout ∅;
  p2 ← region_step py_list Lens set_a set_b layout p1;
  p3 ← region_step py_list BOnly set_a set_b layout p2;
  Ok p3.
Proof. reflexivity. Qed.

Hypothesis py_list_perm : ∀ s, py_list s ≡ₚ elements s.

Lemma region_step_spec (k : region) (positions m : gmap Z ndarray) :
  region_step py_list k set_a set_b layout positions = Ok m →
  dom m = region_set k set_a set_b ∪ dom positions
  ∧ (∀ e, e ∉ region_set k set_a set_b → m !! e = positions !! e)
  ∧ (region_set k set_a set_b ≠ ∅ →
     ∃ cands,
       region_candidates k layout = Ok cands
       ∧ ∀ i e,
           Py.sorted (py_list (region_set k set_a set_b)) !! i = Some e →
           m !! e = Some (candidate_at (sort_by_dist cands)
                            (region_center k layout) i)).
Proof.
  unfold region_step.
  destruct (sorted_of_set py_list (region_set k set_a set_b)
              (py_list_perm _)) as (Hnd & Hset & Hin).
  destruct (decide (region_set k set_a set_b ≠ ∅)) as [Hne | Hempty].
  - rewrite pack_candidates. fold (region_candidates k layout).
    destruct (region_candidates k layout) as [cands | err]; simpl;
      [| discriminate].
    intros [= <-].
    set (packed := assign_positions _ _ _).
    assert (Hdom : dom packed = region_set k set_a set_b).
    { unfold packed. rewrite assign_positions_dom. exact Hset. }
    split; [rewrite dom_union_L, Hdom; reflexivity |].
    split.
    + intros e He. apply lookup_union_r.
      apply not_elem_of_dom. rewrite Hdom. exact He.
    + intros _. exists cands. split; [reflexivity |].
      intros i e Hi. apply lookup_union_Some_l.
      apply assign_positions_lookup; assumption.
  - intros [= <-]. apply dec_stable in Hempty.
    split; [rewrite Hempty; set_solver |].
    split; [reflexivity | intros Hne; contradiction].
Qed.

Lemma region_set_disjoint (k k' : region) (e : Z) :
  k ≠ k' → e ∈ region_set k set_a set_b → e ∉ region_set k' set_a set_b.
Proof.
  destruct k, k'; simpl; intros Hk; try contradiction; set_solver.
Qed.

Lemma region_set_cover :
  region_set BOnly set_a set_b
    ∪ (region_set Lens set_a set_b ∪ (region_set AOnly set_a set_b ∪ ∅))
  = set_a ∪ set_b.
Proof.
  simpl. apply set_eq. intros e.
  destruct (decide (e ∈ set_a)), (decide (e ∈ set_b)); set_solver.
Qed.

Lemma pack_elements_spec (elements : list Z) (m : gmap Z ndarray) :
  pack_elements py_list elements set_a set_b layout = Ok m →
  dom m = set_a ∪ set_b
  ∧ ∀ k, region_set k set_a set_b ≠ ∅ →
      ∃ cands,
        region_candidates k layout = Ok cands
        ∧ ∀ i e,
            Py.sorted (py_list (region_set k set_a set_b)) !! i = Some e →
            m !! e = Some (candidate_at (sort_by_dist cands)
                             (region_center k layout) i).
Proof.
  rewrite pack_elements_steps.
  destruct (region_step py_list AOnly _ _ _ ∅) as [p1 | ?] eqn:H1; simpl;
    [| discriminate].
  destruct (region_step py_list Lens _ _ _ p1) as [p2 | ?] eqn:H2; simpl;
    [| discriminate].
  destruct (region_step py_list BOnly _ _ _ p2) as [p3 | ?] eqn:H3; simpl;
    [| discriminate].
  intros [= <-].
  apply region_step_spec in H1 as (Hd1 & _ & Hl1).
  apply region_step_spec in H2 as (Hd2 & Hk2 & Hl2).
  apply region_step_spec in H3 as (Hd3 & Hk3 & Hl3).
  split.
  - rewrite Hd3, Hd2, Hd1, dom_empty_L. apply region_set_cover.
  - intros k Hne.
    assert (Hmem : ∀ i e,
      Py.sorted (py_list (region_set k set_a set_b)) !! i = Some e →
      e ∈ region_set k set_a set_b).
    { intros i e Hi.
      apply (sorted_of_set py_list _ (py_list_perm _)).
      apply list_elem_of_lookup_2 in Hi. exact Hi. }
    destruct k.
    + destruct (Hl1 Hne) as (cands & Hc & Hlook). exists cands.
      split; [exact Hc |]. intros i e Hi.
      rewrite Hk3 by (eapply region_set_disjoint; [| eapply Hmem, Hi]; discriminate).
      rewrite Hk2 by (eapply region_set_disjoint; [| eapply Hmem, Hi]; discriminate).
      apply Hlook, Hi.
    + destruct (Hl2 Hne) as (cands & Hc & Hlook). exists cands.
      split; [exact Hc |]. intros i e Hi.
      rewrite Hk3 by (eapply region_set_disjoint; [| eapply Hmem, Hi]; discriminate).
      apply Hlook, Hi.
    + destruct (Hl3 Hne) as (cands & Hc & Hlook). exists cands.
      split; [exact Hc |]. exact Hlook.
Qed.

Lemma region_step_ok (k : region) (positions : gmap Z ndarray) :
  region_elem_size k layout + region_padding k layout ≠ 0 →
  ∃ m, region_step py_list k set_a set_b layout positions = Ok m.
Proof.
  intros Hs. unfold region_step.
  destruct (decide _); [| eexists; reflexivity].
  rewrite pack_candidates.
  destruct (candidates_ok (region_boundary k layout) (region_center k layout)
              _ _ Hs) as [cands ->].
  simpl. eexists. reflexivity.
Qed.

Lemma pack_elements_ok (elements : list Z) :
  lens_element_size layout + lens_padding layout ≠ 0 →
  crescent_element_size layout + crescent_padding layout ≠ 0 →
  ∃ m, pack_elements py_list elements set_a set_b layout = Ok m.
Proof.
  intros Hlens Hcres. rewrite pack_elements_steps.
  destruct (region_step_ok AOnly ∅ Hcres) as [p1 ->]. simpl.
  destruct (region_step_ok Lens p1 Hlens) as [p2 ->]. simpl.
  destruct (region_step_ok BOnly p2 Hcres) as [p3 ->]. simpl.
  eexists. reflexivity.
Qed.

End pack_elements_facts.

(** C7.  The packing path has no source of randomness: the position map is
    a function of the arguments, and the one thing Python leaves open, the
    order in which [list(s)] enumerates a set, does not reach the result.
    Two runs whose set enumerations differ return the same map, for the
    packers and for [pack_elements]. *)
Theorem pack_elements_deterministic (py_list py_list' : gset Z → list Z)
    (elems : list Z) (set_a set_b : gset Z) (layout : VennLayout) :
  (∀ s, py_list s ≡ₚ py_list' s) →
  (∀ k, pack (region_boundary k layout)
          (Py.sorted (py_list (region_set k set_a set_b)))
          (region_center k layout)
          (region_elem_size k layout) (region_padding k layout)
        = pack (region_boundary k layout)
            (Py.sorted (py_list' (region_set k set_a set_b)))
            (region_center k layout)
            (region_elem_size k layout) (region_padding k layout))
  ∧ pack_elements py_list elems set_a set_b layout
    = pack_elements py_list' elems set_a set_b layout.
Proof.
  intros Hperm.
  assert (Hsorted : ∀ s, Py.sorted (py_list s) = Py.sorted (py_list' s))
    by (intros s; apply sorted_unique, Hperm).
  split.
  - intros k. rewrite Hsorted. reflexivity.
  - rewrite !pack_elements_steps. unfold region_step.
    rewrite !Hsorted. reflexivity.
Qed.

Lemma pack_elements_deterministic_witness :
  ∃ layout,
    calculate_layout {[1%Z; 2%Z; 3%Z]} {[3%Z; 4%Z]} = Ok layout
    ∧ (∀ s : gset Z, elements s ≡ₚ reverse (elements s))
    ∧ (∀ k, pack (region_boundary k layout)
              (Py.sorted (elements (region_set k {[1%Z; 2%Z; 3%Z]} {[3%Z; 4%Z]})))
              (region_center k layout)
              (region_elem_size k layout) (region_padding k layout)
            = pack (region_boundary k layout)
                (Py.sorted
                   (reverse (elements (region_set k {[1%Z; 2%Z; 3%Z]} {[3%Z; 4%Z]}))))
                (region_center k layout)
                (region_elem_size k layout) (region_padding k layout))
    ∧ pack_elements elements [1%Z; 2%Z; 3%Z; 4%Z]
        {[1%Z; 2%Z; 3%Z]} {[3%Z; 4%Z]} layout
      = pack_elements (λ s, reverse (elements s)) [1%Z; 2%Z; 3%Z; 4%Z]
          {[1%Z; 2%Z; 3%Z]} {[3%Z; 4%Z]} layout.
Proof.
  destruct (calculate_layout_ok {[1%Z; 2%Z; 3%Z]} {[3%Z; 4%Z]})
    as (layout & Hlay & _).
  exists layout. split; [exact Hlay |].
  assert (Hrev : ∀ s : gset Z, elements s ≡ₚ reverse (elements s))
    by (intros s; symmetry; apply reverse_Permutation).
  split; [exact Hrev |].
  exact (pack_elements_deterministic elements (λ s, reverse (elements s))
           [1%Z; 2%Z; 3%Z; 4%Z] {[1%Z; 2%Z; 3%Z]} {[3%Z; 4%Z]} layout Hrev).
Defined.

(** C10.  The [elements] argument of [pack_elements] (and of
    [pack_venn_elements]) is never read: any two values give the same
    result.  A map is returned for every layout that [calculate_layout]
    can produce; whenever a map is returned its keys are exactly the union
    of the two sets, and in each non-empty region the i-th smallest element
    gets the i-th candidate of the region (the centre once the candidates
    run out). *)
Theorem pack_elements_ignores_elements (py_list : gset Z → list Z)
    (elems elems' : list Z) (set_a set_b : gset Z) (layout : VennLayout) :
  (∀ s, py_list s ≡ₚ elements s) →
  pack_elements py_list elems set_a set_b layout
    = pack_elements py_list elems' set_a set_b layout
  ∧ pack_venn_elements py_list elems set_a set_b layout
    = pack_venn_elements py_list elems' set_a set_b layout
  ∧ (∀ set_a' set_b', calculate_layout set_a' set_b' = Ok layout →
       ∃ m, pack_elements py_list elems set_a set_b layout = Ok m)
  ∧ ∀ m, pack_elements py_list elems set_a set_b layout = Ok m →
      dom m = set_a ∪ set_b
      ∧ ∀ k, region_set k set_a set_b ≠ ∅ →
          ∃ cands l,
            region_candidates k layout = Ok cands
            ∧ l ≡ₚ elements (region_set k set_a set_b)
            ∧ StronglySorted Z.le l
            ∧ ∀ i e, l !! i = Some e →
                m !! e = Some (candidate_at (sort_by_dist cands)
                                 (region_center k layout) i).
Proof.
  intros Hperm. split; [reflexivity |]. split; [reflexivity |].
  split.
  { intros set_a' set_b' Hlay.
    destruct (calculate_layout_spacing _ _ _ Hlay) as [Hlens Hcres].
    apply pack_elements_ok; lra. }
  intros m Hm.
  destruct (pack_elements_spec py_list set_a set_b layout Hperm elems m Hm)
    as [Hdom Hregions].
  split; [exact Hdom |].
  intros k Hne. destruct (Hregions k Hne) as (cands & Hc & Hlook).
  exists cands, (Py.sorted (py_list (region_set k set_a set_b))).
  split; [exact Hc |]. split; [rewrite sorted_perm; apply Hperm |].
  split; [apply sorted_strongly_sorted | exact Hlook].
Qed.

Lemma pack_elements_ignores_elements_witness :
  ∃ layout,
    calculate_layout {[1%Z; 2%Z; 3%Z]} {[3%Z; 4%Z]} = Ok layout
    ∧ (∀ s : gset Z, elements s ≡ₚ elements s)
    ∧ pack_elements elements [] {[1%Z; 2%Z; 3%Z]} {[3%Z; 4%Z]} layout
      = pack_elements elements [9%Z; 9%Z] {[1%Z; 2%Z; 3%Z]} {[3%Z; 4%Z]} layout
    ∧ pack_venn_elements elements [] {[1%Z; 2%Z; 3%Z]} {[3%Z; 4%Z]} layout
      = pack_venn_elements elements [9%Z; 9%Z]
          {[1%Z; 2%Z; 3%Z]} {[3%Z; 4%Z]} layout
    ∧ (∀ set_a' set_b', calculate_layout set_a' set_b' = Ok layout →
         ∃ m, pack_elements elements [] {[1%Z; 2%Z; 3%Z]} {[3%Z; 4%Z]} layout
                = Ok m)
    ∧ ∀ m, pack_elements elements [] {[1%Z; 2%Z; 3%Z]} {[3%Z; 4%Z]} layout
             = Ok m →
        dom m = {[1%Z; 2%Z; 3%Z]} ∪ {[3%Z; 4%Z]}
        ∧ ∀ k, region_set k {[1%Z; 2%Z; 3%Z]} {[3%Z; 4%Z]} ≠ ∅ →
            ∃ cands l,
              region_candidates k layout = Ok cands
              ∧ l ≡ₚ elements (region_set k {[1%Z; 2%Z; 3%Z]} {[3%Z; 4%Z]})
              ∧ StronglySorted Z.le l
              ∧ ∀ i e, l !! i = Some e →
                  m !! e = Some (candidate_at (sort_by_dist cands)
                                   (region_center k layout) i).
Proof.
  destruct (calculate_layout_ok {[1%Z; 2%Z; 3%Z]} {[3%Z; 4%Z]})
    as (layout & Hlay & _).
  exists layout. split; [exact Hlay |].
  split; [intros s; reflexivity |].
  exact (pack_elements_ignores_elements elements [] [9%Z; 9%Z]
           {[1%Z; 2%Z; 3%Z]} {[3%Z; 4%Z]} layout (λ s, reflexivity _)).
Defined.

(** C8.  For any two finite sets [calculate_layout] returns a layout and
    [pack_elements] on that layout returns a map; neither raises.  The keys
    of the map are exactly the elements of the union, and an element whose
    rank in its region is beyond the number of candidates is placed at the
    centre of the region. *)
Theorem layout_and_packing_total (py_list : gset Z → list Z)
    (elems : list Z) (set_a set_b : gset Z) :
  (∀ s, py_list s ≡ₚ elements s) →
  ∃ layout m,
    calculate_layout set_a set_b = Ok layout
    ∧ pack_elements py_list elems set_a set_b layout = Ok m
    ∧ dom m = set_a ∪ set_b
    ∧ ∀ k, region_set k set_a set_b ≠ ∅ →
        ∃ cands,
          region_candidates k layout = Ok cands
          ∧ ∀ i e,
              Py.sorted (py_list (region_set k set_a set_b)) !! i = Some e →
              (length cands ≤ i)%nat →
              m !! e = Some (region_center k layout).
Proof.
  intros Hperm.
  destruct (calculate_layout_ok set_a set_b) as (layout & Hlay & Hlens & Hcres).
  destruct (pack_elements_ok py_list set_a set_b layout elems
              ltac:(lra) ltac:(lra)) as [m Hm].
  exists layout, m. split; [exact Hlay |]. split; [exact Hm |].
  destruct (pack_elements_spec py_list set_a set_b layout Hperm elems m Hm)
    as [Hdom Hregions].
  split; [exact Hdom |].
  intros k Hne. destruct (Hregions k Hne) as (cands & Hc & Hlook).
  exists cands. split; [exact Hc |].
  intros i e Hi Hlen. rewrite (Hlook i e Hi). unfold candidate_at.
  rewrite lookup_ge_None_2; [reflexivity |].
  rewrite sort_by_dist_length. exact Hlen.
Qed.

Lemma layout_and_packing_total_witness :
  (∀ s : gset Z, elements s ≡ₚ elements s)
  ∧ ∃ layout m,
      calculate_layout {[1%Z; 2%Z; 3%Z]} {[3%Z; 4%Z]} = Ok layout
      ∧ pack_elements elements [1%Z; 2%Z; 3%Z; 4%Z]
          {[1%Z; 2%Z; 3%Z]} {[3%Z; 4%Z]} layout = Ok m
      ∧ dom m = {[1%Z; 2%Z; 3%Z]} ∪ {[3%Z; 4%Z]}
      ∧ ∀ k, region_set k {[1%Z; 2%Z; 3%Z]} {[3%Z; 4%Z]} ≠ ∅ →
          ∃ cands,
            region_candidates k layout = Ok cands
            ∧ ∀ i e,
                Py.sorted (elements (region_set k {[1%Z; 2%Z; 3%Z]} {[3%Z; 4%Z]}))
                  !! i = Some e →
                (length cands ≤ i)%nat →
                m !! e = Some (region_center k layout).
Proof.
  split; [intros s; reflexivity |].
  exact (layout_and_packing_total elements [1%Z; 2%Z; 3%Z; 4%Z]
           {[1%Z; 2%Z; 3%Z]} {[3%Z; 4%Z]} (λ s, reflexivity _)).
Defined.

(** ** End-to-end scenarios of the specification *)

(** Scenario 1: [A = {1..20}], [B = {15..34}]. *)
Example scenario_1 :
  ∃ layout,
    calculate_layout (list_to_set (seqZ 1 20)) (list_to_set (seqZ 15 20))
      = Ok layout
    ∧ union_size layout = 34%Z
    ∧ tier layout = "tight"
    ∧ intersection_size layout = 6%Z
    ∧ a_only_size layout = 14%Z
    ∧ b_only_size layout = 14%Z
    ∧ 0 < lens_area layout < PI * circle_radius layout ^ 2.
Proof.
  destruct (calculate_layout_ok (list_to_set (seqZ 1 20))
              (list_to_set (seqZ 15 20))) as (layout & Hlay & _).
  exists layout. split; [exact Hlay |].
  destruct (calculate_layout_inv _ _ _ Hlay)
    as (lens & crescent & Hlens & _ & -> & -> & -> & -> & -> & -> & _ & _ & _
        & _ & _ & _ & -> & _).
  do 5 (split; [reflexivity |]).
  apply calculate_lens_parameters_area in Hlens as [Hsolve ->].
  replace (Z.of_nat (size (list_to_set (seqZ 1 20) ∪ list_to_set (seqZ 15 20) : gset Z)))
    with 34%Z in * by reflexivity.
  replace (Z.of_nat (size (list_to_set (seqZ 1 20) ∩ list_to_set (seqZ 15 20) : gset Z)))
    with 6%Z in * by reflexivity.
  change (_select_tier 34).2
    with {| tier_radius := 1.8; tier_font := 28; tier_padding := 0.22 |} in *.
  cbn [tier_radius tier_font tier_padding] in *.
  destruct (decide (6 > 0)%Z); [| lia].
  match type of Hsolve with
  | _solve_lens_separation ?r ?a ?t ?n = _ =>
      destruct (solve_lens_separation_interior r a t n) as (d & Hd & Hin)
  end.
  - lra.
  - unfold default_max_iterations. lia.
  - unfold FONT_TO_MANIM_CONVERSION, PACKING_EFFICIENCY, SAFETY_MARGIN.
    pose proof PI2_3_2. lra.
  - rewrite Hd in Hsolve. injection Hsolve as <-.
    rewrite calculate_lens_area_formula by lra.
    split; [apply lens_formula_pos | apply lens_formula_lt_disc]; lra.
Qed.

(** Scenario 3: disjoint sets [A = {1, 2}], [B = {3, 4}].  The layout is
    computed, the lens region is empty and contributes no key, and the map
    has the four elements as keys. *)
Example scenario_3 :
  ∃ layout m,
    calculate_layout {[1%Z; 2%Z]} {[3%Z; 4%Z]} = Ok layout
    ∧ intersection_size layout = 0%Z
    ∧ tier layout = "comfortable"
    ∧ region_set Lens {[1%Z; 2%Z]} {[3%Z; 4%Z]} = ∅
    ∧ pack_elements elements [1%Z; 2%Z; 3%Z; 4%Z] {[1%Z; 2%Z]} {[3%Z; 4%Z]}
        layout = Ok m
    ∧ dom m = {[1%Z; 2%Z; 3%Z; 4%Z]}.
Proof.
  destruct (calculate_layout_ok {[1%Z; 2%Z]} {[3%Z; 4%Z]})
    as (layout & Hlay & Hlens & Hcres).
  destruct (pack_elements_ok elements {[1%Z; 2%Z]} {[3%Z; 4%Z]} layout
              [1%Z; 2%Z; 3%Z; 4%Z] ltac:(lra) ltac:(lra)) as [m Hm].
  exists layout, m. split; [exact Hlay |].
  destruct (calculate_layout_lens_font _ _ _ Hlay) as (_ & -> & -> & _).
  split; [reflexivity |]. split; [reflexivity |].
  split; [apply set_eq; intros e; set_solver |].
  split; [exact Hm |].
  destruct (pack_elements_spec elements {[1%Z; 2%Z]} {[3%Z; 4%Z]} layout
              (λ s, reflexivity _) _ m Hm) as [-> _].
  apply set_eq. intros e. set_solver.
Qed.

(** * Further properties of the code

    Properties read off the source beyond those the specification states:
    edge and error behaviour, invariants of the layout, and guarantees on
    the positions. *)

(** ** Geometry kernel: range, monotonicity and dimensions *)

Lemma calculate_lens_area_range (R_ d : R) :
  0 <= _calculate_lens_area R_ d <= PI * R_ ^ 2.
Proof.
  pose proof PI_RGT_0 as Hpi.
  assert (Hsq : 0 <= PI * R_ ^ 2).
  { apply Rmult_le_pos; [lra | apply pow2_ge_0]. }
  destruct (Rge_dec d (2 * R_)) as [Hfar | Hnear].
  - rewrite calculate_lens_area_disjoint by exact Hfar. lra.
  - destruct (Rle_dec d 0) as [Hneg | Hpos].
    + unfold _calculate_lens_area.
      destruct (Rge_dec d (2 * R_)); [contradiction |].
      destruct (Rle_dec d 0); [lra | contradiction].
    + assert (HR : 0 < R_) by lra.
      rewrite calculate_lens_area_formula by lra.
      pose proof (lens_formula_pos R_ d HR ltac:(lra)).
      pose proof (lens_formula_lt_disc R_ d HR ltac:(lra)).
      lra.
Qed.

(** X1.  For a radius in [(0, 10^150]] and any separation the kernel
    returns, and the lens area lies between 0 and the area of one disc,
    [PI * R ^ 2]. *)
Theorem lens_area_range (R_ d : R) :
  0 < R_ → R_ <= 10 ^ 150 →
  ∃ area,
    Overflow._calculate_lens_area R_ d = Ok area
    ∧ 0 <= area <= PI * R_ ^ 2.
Proof.
  intros HR Hbound. exists (_calculate_lens_area R_ d).
  split; [apply calculate_lens_area_in_range; assumption |].
  apply calculate_lens_area_range.
Qed.

Lemma lens_area_range_witness :
  0 < 2 ∧ 2 <= 10 ^ 150
  ∧ ∃ area,
      Overflow._calculate_lens_area 2 1 = Ok area
      ∧ 0 <= area <= PI * 2 ^ 2.
Proof.
  assert (Hbound : 2 <= 10 ^ 150).
  { apply Rle_trans with (10 ^ 1); [lra |]. apply Rle_pow; [lra | lia]. }
  split; [lra |]. split; [exact Hbound |].
  apply (lens_area_range 2 1); [lra | exact Hbound].
Defined.

(** The separation clamped to [[0, 2R]]: outside that interval the area is
    constant. *)
Lemma lens_area_clamp (R_ d : R) :
  0 < R_ →
  _calculate_lens_area R_ d
  = _calculate_lens_area R_ (Rmax 0 (Rmin d (2 * R_))).
Proof.
  intros HR.
  destruct (Rle_dec d 0) as [Hneg | Hpos].
  - rewrite Rmin_left by lra. rewrite Rmax_left by lra.
    rewrite !calculate_lens_area_concentric by lra. reflexivity.
  - destruct (Rle_dec d (2 * R_)) as [Hle | Hgt].
    + rewrite Rmin_left by lra. rewrite Rmax_right by lra. reflexivity.
    + rewrite Rmin_right by lra. rewrite Rmax_right by lra.
      rewrite !calculate_lens_area_disjoint by lra. reflexivity.
Qed.

Lemma clamp_range (R_ d : R) :
  0 < R_ → 0 <= Rmax 0 (Rmin d (2 * R_)) <= 2 * R_.
Proof.
  intros HR. split; [apply Rmax_l |]. apply Rmax_lub; [lra | apply Rmin_r].
Qed.

Lemma lens_area_lipschitz_global (R_ d1 d2 : R) :
  0 < R_ →
  Rabs (_calculate_lens_area R_ d1 - _calculate_lens_area R_ d2)
    <= 2 * R_ * Rabs (d1 - d2).
Proof.
  intros HR.
  rewrite (lens_area_clamp R_ d1 HR), (lens_area_clamp R_ d2 HR).
  pose proof (clamp_range R_ d1 HR) as H1.
  pose proof (clamp_range R_ d2 HR) as H2.
  set (c1 := Rmax 0 (Rmin d1 (2 * R_))) in *.
  set (c2 := Rmax 0 (Rmin d2 (2 * R_))) in *.
  eapply Rle_trans; [apply lens_area_lipschitz; assumption |].
  apply Rmult_le_compat_l; [lra |].
  unfold c1, c2, Rmax, Rmin, Rabs.
  repeat (destruct (Rle_dec _ _)); repeat (destruct (Rcase_abs _)); lra.
Qed.

Lemma lens_area_nonincreasing_global (R_ d1 d2 : R) :
  0 < R_ → d1 <= d2 →
  _calculate_lens_area R_ d2 <= _calculate_lens_area R_ d1.
Proof.
  intros HR Hle.
  rewrite (lens_area_clamp R_ d1 HR), (lens_area_clamp R_ d2 HR).
  pose proof (clamp_range R_ d1 HR) as H1.
  pose proof (clamp_range R_ d2 HR) as H2.
  apply lens_area_nonincreasing; try lra.
  unfold Rmax, Rmin.
  repeat (destruct (Rle_dec _ _)); lra.
Qed.

Lemma calculate_lens_dimensions_chord (R_ d : R) :
  0 < R_ → - (2 * R_) <= d < 2 * R_ →
  ∃ width height,
    _calculate_lens_dimensions R_ d = Ok (width, height)
    ∧ width = 2 * R_ - d
    ∧ 0 <= height
    ∧ height ^ 2 + d ^ 2 = (2 * R_) ^ 2.
Proof.
  intros HR [Hlo Hhi]. unfold _calculate_lens_dimensions.
  destruct (Rge_dec d (2 * R_)); [lra |].
  assert (Hpos : 0 <= R_ ^ 2 - (d / 2) ^ 2).
  { replace (R_ ^ 2 - (d / 2) ^ 2) with ((R_ - d / 2) * (R_ + d / 2)) by ring.
    apply Rmult_le_pos; lra. }
  rewrite math_sqrt_ok by exact Hpos. cbn [mbind result_bind].
  eexists _, _. split; [reflexivity |]. split; [reflexivity |].
  pose proof (sqrt_pos (R_ ^ 2 - (d / 2) ^ 2)) as Hs.
  pose proof (pow2_sqrt _ Hpos) as Hs2.
  set (s := sqrt (R_ ^ 2 - (d / 2) ^ 2)) in *.
  split; [lra |]. nra.
Qed.




(** ** Separation solver: targets and failure *)

Lemma lens_area_continuity (R_ : R) :
  0 < R_ → continuity (_calculate_lens_area R_).
Proof.
  intros HR x eps Heps.
  exists (eps / (2 * R_)). split.
  - apply Rdiv_lt_0_compat; lra.
  - intros y [_ Hy]. simpl in *. unfold R_dist in *.
    eapply Rle_lt_trans; [apply lens_area_lipschitz_global; exact HR |].
    apply (Rmult_lt_compat_l (2 * R_)) in Hy; [| lra].
    replace (2 * R_ * (eps / (2 * R_))) with eps in Hy by (field; lra).
    exact Hy.
Qed.

(** Every area between 0 and the disc is the lens area of some
    separation in [[0, 2R]]. *)
Lemma lens_area_attains (R_ required_area : R) :
  0 < R_ → 0 <= required_area <= PI * R_ ^ 2 →
  ∃ d0, 0 <= d0 <= 2 * R_ ∧ _calculate_lens_area R_ d0 = required_area.
Proof.
  intros HR Hreq.
  destruct (IVT_cor (_calculate_lens_area R_ - fct_cte required_area)%F
              0 (2 * R_)) as (d0 & Hd0 & Hzero).
  - apply continuity_minus; [apply lens_area_continuity; exact HR |].
    apply continuity_const. intros x y. reflexivity.
  - lra.
  - unfold minus_fct, fct_cte.
    rewrite calculate_lens_area_concentric by lra.
    rewrite calculate_lens_area_disjoint by lra.
    assert (0 <= (PI * R_ ^ 2 - required_area) * required_area)
      by (apply Rmult_le_pos; lra).
    lra.
  - exists d0. split; [exact Hd0 |].
    unfold minus_fct, fct_cte in Hzero. lra.
Qed.

Lemma solve_lens_separation_meets (R_ required_area tolerance : R)
    (max_iterations : Z) :
  0 < R_ → 0 < tolerance → (0 < max_iterations)%Z →
  0 <= required_area <= PI * R_ ^ 2 * 0.95 →
  4 * R_ ^ 2 < tolerance * 2 ^ Z.to_nat max_iterations →
  ∃ d,
    _solve_lens_separation R_ required_area tolerance max_iterations = Ok d
    ∧ 0 < d < 2 * R_
    ∧ Rabs (_calculate_lens_area R_ d - required_area) < tolerance.
Proof.
  intros HR Htol Hn Hreq Hbudget.
  assert (Hdisc : 0 <= PI * R_ ^ 2).
  { pose proof PI_RGT_0. apply Rmult_le_pos; [lra | apply pow2_ge_0]. }
  destruct (lens_area_attains R_ required_area HR ltac:(lra))
    as (d0 & Hd0 & Harea).
  destruct (solve_lens_separation_interior R_ required_area tolerance
              max_iterations HR Hn ltac:(lra)) as (d & Hd & Hin).
  exists d. split; [exact Hd |]. split; [exact Hin |].
  rewrite solve_lens_separation_bisect in Hd by lra.
  destruct (bisection_loop_converges R_ d0 tolerance
              (Z.to_nat max_iterations) HR Htol 0 (2 * R_) None)
    as (d' & Hd' & Hin' & Hres); try lra; [lia |].
  rewrite Harea in Hd', Hres. rewrite Hd in Hd'. injection Hd' as <-.
  destruct Hres as [Hmet | Hclose]; [exact Hmet |].
  rewrite <- Harea.
  eapply Rle_lt_trans; [apply lens_area_lipschitz; lra |].
  set (p := 2 ^ Z.to_nat max_iterations) in *.
  assert (Hp : 0 < p) by (apply pow_lt; lra).
  apply Rle_lt_trans with (2 * R_ * ((2 * R_ - 0) / p)).
  - apply Rmult_le_compat_l; [lra | exact Hclose].
  - replace (2 * R_ * ((2 * R_ - 0) / p)) with (4 * R_ ^ 2 / p)
      by (field; lra).
    apply (Rmult_lt_reg_r p); [exact Hp |].
    replace (4 * R_ ^ 2 / p * p) with (4 * R_ ^ 2) by (field; lra).
    exact Hbudget.
Qed.

Lemma default_budget_suffices (R_ : R) :
  0 < R_ → R_ <= 10 ^ 13 →
  4 * R_ ^ 2 < default_tolerance * 2 ^ Z.to_nat default_max_iterations.
Proof.
  intros HR Hbound.
  assert (Hpow : 2 ^ Z.to_nat default_max_iterations = 2 ^ 50 * 2 ^ 50)
    by (rewrite <- pow_add; reflexivity).
  rewrite Hpow. unfold default_tolerance.
  assert (H50 : 10 ^ 15 <= 2 ^ 50) by lra.
  assert (HR2 : R_ ^ 2 <= 10 ^ 13 * 10 ^ 13) by nra.
  apply Rle_lt_trans with (4 * (10 ^ 13 * 10 ^ 13)); [lra |].
  apply Rlt_le_trans with (0.005 * (10 ^ 15 * 10 ^ 15)); [lra |].
  apply Rmult_le_compat_l; [lra |].
  apply Rmult_le_compat; lra.
Qed.






(** ** Separation solver: the iteration budget *)




(** ** Tiering policy: the row returned *)

Lemma select_tier_loop_first_match (n : Z)
    (table : list (threshold * string * tier_params))
    (name : string) (params : tier_params) :
  select_tier_loop n table = Some (name, params) ↔
  ∃ skipped t rest,
    table = skipped ++ (t, name, params) :: rest
    ∧ le_threshold n t = true
    ∧ Forall (λ row, le_threshold n row.1.1 = false) skipped.
Proof.
  induction table as [| [[t' name'] params'] table IH]; simpl.
  - split; [discriminate |].
    intros (skipped & t & rest & Heq & _). destruct skipped; discriminate.
  - destruct (le_threshold n t') eqn:Hle.
    + split.
      * intros [= <- <-]. exists [], t', table.
        split; [reflexivity |]. split; [exact Hle | constructor].
      * intros (skipped & t & rest & Heq & Ht & Hskip).
        destruct skipped as [| row skipped]; simpl in Heq.
        -- injection Heq as <- <- <- <-. reflexivity.
        -- injection Heq as <- _. apply Forall_cons in Hskip as [Hrow _].
           simpl in Hrow. congruence.
    + rewrite IH. split.
      * intros (skipped & t & rest & -> & Ht & Hskip).
        exists ((t', name', params') :: skipped), t, rest.
        split; [reflexivity |]. split; [exact Ht |].
        constructor; [exact Hle | exact Hskip].
      * intros (skipped & t & rest & Heq & Ht & Hskip).
        destruct skipped as [| row skipped]; simpl in Heq.
        -- injection Heq as <- <- <- <-. congruence.
        -- injection Heq as <- ->. apply Forall_cons in Hskip as [_ Hskip].
           exists skipped, t, rest. split; [reflexivity |].
           split; [exact Ht | exact Hskip].
Qed.

(** X8.  [_select_tier] returns the first row of [TIER_THRESHOLDS] whose
    threshold the union size does not exceed: every row before it has a
    smaller threshold.  The loop returns from inside for every union size,
    so the [return] after the loop is never reached. *)
Theorem select_tier_returns_first_row (union_size : Z) :
  ∃ skipped t rest,
    TIER_THRESHOLDS =
      skipped ++ (t, (_select_tier union_size).1, (_select_tier union_size).2)
              :: rest
    ∧ le_threshold union_size t = true
    ∧ Forall (λ row, le_threshold union_size row.1.1 = false) skipped
    ∧ select_tier_loop union_size TIER_THRESHOLDS
      = Some (_select_tier union_size).
Proof.
  assert (Hsome : ∃ r, select_tier_loop union_size TIER_THRESHOLDS = Some r).
  { unfold TIER_THRESHOLDS. simpl.
    repeat (destruct (_ <=? _)%Z; [eexists; reflexivity |]).
    eexists. reflexivity. }
  destruct Hsome as [[name params] Hloop].
  assert (Hsel : _select_tier union_size = (name, params))
    by (unfold _select_tier; rewrite Hloop; reflexivity).
  rewrite Hsel. cbn [fst snd].
  pose proof Hloop as Hrow.
  apply select_tier_loop_first_match in Hrow
    as (skipped & t & rest & Heq & Ht & Hskip).
  exists skipped, t, rest. split; [exact Heq |].
  split; [exact Ht |]. split; [exact Hskip | exact Hloop].
Qed.

(** ** Region sizer: the lens *)

Lemma lens_required_area_nonneg (intersection_size base_font : Z)
    (base_padding : R) :
  0 <= lens_required_area intersection_size base_font base_padding.
Proof.
  unfold lens_required_area. destruct (decide _) as [Hpos |]; [| lra].
  unfold PACKING_EFFICIENCY, SAFETY_MARGIN.
  assert (0 <= IZR intersection_size) by (apply IZR_le; lia).
  pose proof (pow2_ge_0 (IZR base_font / FONT_TO_MANIM_CONVERSION + base_padding)).
  assert (0 <= IZR intersection_size
               * (IZR base_font / FONT_TO_MANIM_CONVERSION + base_padding) ^ 2)
    by (apply Rmult_le_pos; assumption).
  lra.
Qed.

Lemma calculate_lens_parameters_inv (intersection_size : Z)
    (base_radius : R) (base_font : Z) (base_padding : R) (lp : lens_params) :
  _calculate_lens_parameters intersection_size base_radius base_font
    base_padding = Ok lp →
  _solve_lens_separation base_radius
    (lens_required_area intersection_size base_font base_padding)
    default_tolerance default_max_iterations = Ok (lp_circle_separation lp)
  ∧ lp_area lp = _calculate_lens_area base_radius (lp_circle_separation lp)
  ∧ _calculate_lens_dimensions base_radius (lp_circle_separation lp)
    = Ok (lp_width lp, lp_height lp)
  ∧ lp_font_size lp = base_font
  ∧ lp_element_size lp = IZR base_font / FONT_TO_MANIM_CONVERSION
  ∧ lp_padding lp = base_padding.
Proof.
  unfold _calculate_lens_parameters, lens_required_area.
  destruct (_solve_lens_separation _ _ _ _) as [d | ?]; simpl; [| discriminate].
  destruct (_calculate_lens_dimensions _ _) as [[w h] | ?] eqn:Hdim; simpl;
    [| discriminate].
  intros [= <-]. simpl. rewrite Hdim. repeat split; reflexivity.
Qed.

(** The two cases of the lens parameters, on the real-number reading, for
    a base radius in [(0, 10^13]]. *)
Lemma calculate_lens_parameters_cases (intersection_size : Z) (base_radius : R)
    (base_font : Z) (base_padding : R) :
  0 < base_radius → base_radius <= 10 ^ 13 →
  ∃ lp,
    _calculate_lens_parameters intersection_size base_radius base_font
      base_padding = Ok lp
    ∧ (lens_required_area intersection_size base_font base_padding
         > PI * base_radius ^ 2 * 0.95 →
       lp_circle_separation lp = 0
       ∧ lp_area lp = PI * base_radius ^ 2
       ∧ lp_width lp = 2 * base_radius
       ∧ lp_height lp = 2 * base_radius)
    ∧ (lens_required_area intersection_size base_font base_padding
         <= PI * base_radius ^ 2 * 0.95 →
       0 < lp_circle_separation lp < 2 * base_radius
       ∧ Rabs (lp_area lp
               - lens_required_area intersection_size base_font base_padding)
           < default_tolerance
       ∧ lp_width lp = 2 * base_radius - lp_circle_separation lp
       ∧ 0 < lp_height lp
       ∧ lp_height lp ^ 2 + lp_circle_separation lp ^ 2
           = (2 * base_radius) ^ 2).
Proof.
  intros HR Hbound.
  destruct (calculate_lens_parameters_ok intersection_size base_radius
              base_font base_padding HR) as (lp & Hlp & _).
  exists lp. split; [exact Hlp |].
  apply calculate_lens_parameters_inv in Hlp
    as (Hsolve & Harea & Hdim & _).
  pose proof (lens_required_area_nonneg intersection_size base_font
                base_padding) as Hreq.
  set (req := lens_required_area _ _ _) in *.
  set (d := lp_circle_separation lp) in *.
  pose proof (calculate_lens_dimensions_chord base_radius d HR) as Hmid.
  split.
  - intros Hbig.
    rewrite solve_lens_separation_guard in Hsolve by exact Hbig.
    injection Hsolve as Hd. rewrite <- Hd in *.
    destruct Hmid as (w & h & Hwh & Hw & Hh & Hchord); [lra |].
    rewrite Hwh in Hdim. injection Hdim as <- <-.
    split; [reflexivity |].
    split; [rewrite Harea; apply calculate_lens_area_concentric; lra |].
    split; [lra |]. nra.
  - intros Hfit.
    destruct (solve_lens_separation_meets base_radius req
                default_tolerance default_max_iterations HR)
      as (d' & Hd' & Hin & Hmet);
      [unfold default_tolerance; lra | unfold default_max_iterations; lia
      | split; assumption | apply default_budget_suffices; assumption |].
    rewrite Hsolve in Hd'. injection Hd' as <-.
    destruct Hmid as (w & h & Hwh & Hw & Hh & Hchord); [lra |].
    rewrite Hwh in Hdim. injection Hdim as <- <-.
    split; [exact Hin |].
    split; [rewrite Harea; exact Hmet |].
    split; [exact Hw |]. split; [nra | exact Hchord].
Qed.

(** ** Region sizer: crescents *)

(** X10.  For sizes up to [10^9], a font up to [10^6], a padding up to
    [10^6] (all non-negative) and a base radius up to [10^100] with
    [0.1 <= base_radius * 0.65], [_calculate_crescent_parameters] returns
    and both crescent radii are between 0 and [base_radius * 0.65].  Either
    the font and the padding are the base ones, or both were scaled down to
    at most 90% of the base values.  (The bounds keep the conversion of the
    sizes to [float] and the square of the footprint in range.) *)
Theorem crescent_parameters_fit (a_only_size b_only_size : Z)
    (base_radius : R) (base_font : Z) (base_padding : R) :
  (0 ≤ a_only_size ≤ 10 ^ 9)%Z → (0 ≤ b_only_size ≤ 10 ^ 9)%Z →
  0.1 <= base_radius * 0.65 → base_radius <= 10 ^ 100 →
  (0 ≤ base_font ≤ 10 ^ 6)%Z → 0 <= base_padding <= 10 ^ 6 →
  ∃ cp,
    _calculate_crescent_parameters a_only_size b_only_size base_radius
      base_font base_padding = Ok cp
    ∧ 0 <= a_only (cp_radii cp) <= base_radius * 0.65
    ∧ 0 <= b_only (cp_radii cp) <= base_radius * 0.65
    ∧ (cp_font_size cp = base_font ∧ cp_padding cp = base_padding
       ∨ IZR (cp_font_size cp) <= 0.9 * IZR base_font
         ∧ cp_padding cp <= 0.9 * base_padding).
Proof.
  intros [Ha _] [Hb _] HR _ [Hfont _] [Hpad _].
  destruct (crescent_parameters_fit_aux a_only_size b_only_size base_radius
              base_font base_padding Ha Hb HR Hfont Hpad)
    as (cp & Hcp & Hra & Hrb & _ & _ & _ & Hshrink).
  exists cp. repeat split; tauto || lra.
Qed.

Lemma crescent_parameters_fit_witness :
  (0 ≤ 30 ≤ 10 ^ 9)%Z ∧ (0 ≤ 0 ≤ 10 ^ 9)%Z
  ∧ 0.1 <= 2 * 0.65 ∧ 2 <= 10 ^ 100
  ∧ (0 ≤ 38 ≤ 10 ^ 6)%Z ∧ 0 <= 0.35 <= 10 ^ 6
  ∧ ∃ cp,
      _calculate_crescent_parameters 30 0 2 38 0.35 = Ok cp
      ∧ 0 <= a_only (cp_radii cp) <= 2 * 0.65
      ∧ 0 <= b_only (cp_radii cp) <= 2 * 0.65
      ∧ (cp_font_size cp = 38%Z ∧ cp_padding cp = 0.35
         ∨ IZR (cp_font_size cp) <= 0.9 * IZR 38
           ∧ cp_padding cp <= 0.9 * 0.35).
Proof.
  assert (H100 : 2 <= 10 ^ 100).
  { apply Rle_trans with (10 ^ 1); [lra |]. apply Rle_pow; [lra | lia]. }
  split; [lia |]. split; [lia |]. split; [lra |]. split; [exact H100 |].
  split; [lia |]. split; [lra |].
  apply (crescent_parameters_fit 30 0 2 38 0.35); lia || lra || exact H100.
Defined.

(** ** Layout: invariants *)

Lemma select_tier_radius_range (n : Z) :
  1.2 <= tier_radius (_select_tier n).2 <= 2.2.
Proof. tier_cases n; simpl; lra. Qed.

Lemma calculate_layout_validation (set_a set_b : gset Z)
    (layout : VennLayout) :
  calculate_layout set_a set_b = Ok layout →
  is_valid layout = true
  ∧ warnings layout =
      if decide (lens_font_size layout ≠ crescent_font_size layout)
      then [font_warning (lens_font_size layout) (crescent_font_size layout)]
      else [].
Proof.
  unfold calculate_layout.
  destruct (_select_tier _) as [tier_name params]. simpl.
  destruct (_calculate_lens_parameters _ _ _ _) as [lens | e]; simpl;
    [| discriminate].
  destruct (_calculate_crescent_parameters _ _ _ _ _) as [crescent | e]; simpl;
    [| discriminate].
  intros [= <-]. simpl. split; reflexivity.
Qed.

Lemma size_regions (set_a set_b : gset Z) :
  size (set_a ∪ set_b)
  = (size (set_a ∖ set_b) + size (set_a ∩ set_b) + size (set_b ∖ set_a))%nat.
Proof.
  rewrite <- !size_union by set_solver.
  f_equal. apply set_eq. intros x.
  destruct (decide (x ∈ set_a)), (decide (x ∈ set_b)); set_solver.
Qed.

(** The facts about a computed layout that the theorems below share. *)
Lemma calculate_layout_facts (set_a set_b : gset Z) (layout : VennLayout) :
  calculate_layout set_a set_b = Ok layout →
  let R_ := circle_radius layout in
  let d := circle_separation layout in
  1.2 <= R_ <= 2.2
  ∧ 0 <= d < 2 * R_
  ∧ circle_a_center layout = (- d / 2, 0, 0)
  ∧ circle_b_center layout = (d / 2, 0, 0)
  ∧ lens_width layout = 2 * R_ - d
  ∧ 0 < lens_height layout
  ∧ lens_height layout ^ 2 + d ^ 2 = (2 * R_) ^ 2
  ∧ lens_area layout = _calculate_lens_area R_ d
  ∧ 0 <= a_only (crescent_radii layout) <= R_ * 0.65
  ∧ 0 <= b_only (crescent_radii layout) <= R_ * 0.65
  ∧ lens_element_size layout
    = IZR (lens_font_size layout) / FONT_TO_MANIM_CONVERSION
  ∧ crescent_element_size layout
    = IZR (crescent_font_size layout) / FONT_TO_MANIM_CONVERSION
  ∧ (0 < lens_font_size layout)%Z ∧ 0 < lens_padding layout
  ∧ (0 ≤ crescent_font_size layout)%Z ∧ 0 <= crescent_padding layout
  ∧ (crescent_font_size layout = lens_font_size layout
     ∧ crescent_padding layout = lens_padding layout
     ∨ IZR (crescent_font_size layout) <= 0.9 * IZR (lens_font_size layout)
       ∧ crescent_padding layout <= 0.9 * lens_padding layout).
Proof.
  intros Hlay.
  destruct (calculate_layout_inv _ _ _ Hlay)
    as (lens & crescent & Hlens & Hcres & _ & _ & _ & _ & _ & -> & -> & -> & ->
        & -> & -> & -> & -> & -> & -> & -> & -> & -> & ->).
  cbn zeta.
  pose proof (select_tier_radius_range (Z.of_nat (size (set_a ∪ set_b))))
    as HR.
  pose proof (select_tier_positive (Z.of_nat (size (set_a ∪ set_b))))
    as (_ & Hfont & Hpad).
  set (params := (_select_tier _).2) in *.
  pose proof Hlens as Hlens'.
  apply calculate_lens_parameters_inv in Hlens'
    as (Hsolve & Harea & Hdim & Hlf & Hle & Hlp).
  destruct (solve_lens_separation_overlap (tier_radius params)
              (lens_required_area (Z.of_nat (size (set_a ∩ set_b)))
                 (tier_font params) (tier_padding params))
              default_tolerance default_max_iterations ltac:(lra))
    as (d & Hd & Hin).
  { unfold default_max_iterations. lia. }
  rewrite Hsolve in Hd. injection Hd as Hd. rewrite Hd in *. clear Hd.
  destruct (calculate_lens_dimensions_chord (tier_radius params) d
              ltac:(lra) ltac:(lra)) as (w & h & Hwh & Hw & Hh & Hchord).
  rewrite Hwh in Hdim. injection Hdim as Hw' Hh'.
  rewrite <- Hw', <- Hh'.
  destruct (crescent_parameters_fit_aux
              (Z.of_nat (size (set_a ∖ set_b))) (Z.of_nat (size (set_b ∖ set_a)))
              (tier_radius params) (tier_font params) (tier_padding params)
              ltac:(lia) ltac:(lia) ltac:(lra) ltac:(lia) ltac:(lra))
    as (cp & Hcp & Hra & Hrb & Hcf & Hcpad & Hces & Hshrink).
  rewrite Hcres in Hcp. injection Hcp as <-.
  rewrite Hlf, Hlp, Hle.
  split; [exact HR |]. split; [exact Hin |].
  split; [reflexivity |]. split; [reflexivity |].
  split; [exact Hw |]. split; [nra |]. split; [exact Hchord |].
  split; [exact Harea |]. split; [exact Hra |]. split; [exact Hrb |].
  split; [reflexivity |]. split; [exact Hces |].
  split; [exact Hfont |]. split; [exact Hpad |].
  split; [exact Hcf |]. split; [exact Hcpad |]. exact Hshrink.
Qed.

(** X9.  The lens of the layout of any two sets.  When the area the
    intersection needs exceeds 95% of the disc the circles coincide:
    separation 0, lens area [PI * R ^ 2], width and height [2R].
    Otherwise the separation is strictly positive and the lens area is
    within the default tolerance of the needed area. *)
Theorem calculate_layout_lens_cases (set_a set_b : gset Z) :
  ∃ layout,
    calculate_layout set_a set_b = Ok layout
    ∧ (lens_required_area (intersection_size layout) (lens_font_size layout)
         (lens_padding layout)
         > PI * circle_radius layout ^ 2 * 0.95 →
       circle_separation layout = 0
       ∧ lens_area layout = PI * circle_radius layout ^ 2
       ∧ lens_width layout = 2 * circle_radius layout
       ∧ lens_height layout = 2 * circle_radius layout)
    ∧ (lens_required_area (intersection_size layout) (lens_font_size layout)
         (lens_padding layout)
         <= PI * circle_radius layout ^ 2 * 0.95 →
       0 < circle_separation layout
       ∧ Rabs (lens_area layout
               - lens_required_area (intersection_size layout)
                   (lens_font_size layout) (lens_padding layout))
           < default_tolerance).
Proof.
  destruct (calculate_layout_ok set_a set_b) as (layout & Hlay & _).
  exists layout. split; [exact Hlay |].
  destruct (calculate_layout_inv _ _ _ Hlay)
    as (lens & crescent & Hlens & _ & _ & -> & _ & _ & _ & -> & -> & _ & _
        & -> & _ & -> & -> & -> & -> & _).
  pose proof (select_tier_radius_range (Z.of_nat (size (set_a ∪ set_b))))
    as HR.
  set (params := (_select_tier _).2) in *.
  assert (Hbound : tier_radius params <= 10 ^ 13).
  { apply Rle_trans with (10 ^ 1); [lra |]. apply Rle_pow; [lra | lia]. }
  destruct (calculate_lens_parameters_cases (Z.of_nat (size (set_a ∩ set_b)))
              (tier_radius params) (tier_font params) (tier_padding params)
              ltac:(lra) Hbound) as (lp & Hlp & Hbig & Hfit).
  rewrite Hlens in Hlp. injection Hlp as <-.
  apply calculate_lens_parameters_inv in Hlens as (_ & _ & _ & -> & _ & ->).
  split; [exact Hbig |].
  intros Hreq. destruct (Hfit Hreq) as ([Hpos _] & Hmet & _).
  split; [exact Hpos | exact Hmet].
Qed.

(** X11.  In the layout of any two sets the three region sizes are the
    cardinalities of [A - B], [A & B] and [B - A], they add up to the union
    size, and the tier name, the circle radius, the lens font and the lens
    padding are the row [_select_tier] gives for the union size. *)
Theorem calculate_layout_counts (set_a set_b : gset Z) :
  ∃ layout,
    calculate_layout set_a set_b = Ok layout
    ∧ a_only_size layout = Z.of_nat (size (set_a ∖ set_b))
    ∧ intersection_size layout = Z.of_nat (size (set_a ∩ set_b))
    ∧ b_only_size layout = Z.of_nat (size (set_b ∖ set_a))
    ∧ union_size layout
      = (a_only_size layout + intersection_size layout
         + b_only_size layout)%Z
    ∧ _select_tier (union_size layout)
      = (tier layout,
         {| tier_radius := circle_radius layout;
            tier_font := lens_font_size layout;
            tier_padding := lens_padding layout |}).
Proof.
  destruct (calculate_layout_ok set_a set_b) as (layout & Hlay & _).
  exists layout. split; [exact Hlay |].
  destruct (calculate_layout_inv _ _ _ Hlay)
    as (lens & crescent & Hlens & _ & -> & -> & -> & -> & -> & -> & _ & _ & _
        & -> & _ & -> & _).
  apply calculate_lens_parameters_inv in Hlens as (_ & _ & _ & -> & _ & ->).
  do 3 (split; [reflexivity |]).
  split; [rewrite size_regions; lia |].
  destruct (_select_tier _) as [name [r f p]]. reflexivity.
Qed.

(** X12.  The geometry of the layout of any two sets.  The separation [d]
    is in [[0, 2R)]; the circle centres are [(-d/2, 0, 0)] and
    [(d/2, 0, 0)], so they are [d] apart and the lens centre is the origin;
    the lens width is [2R - d], the lens height is the positive common
    chord, and the lens area is the area function at [(R, d)], positive and
    at most one disc. *)
Theorem calculate_layout_geometry (set_a set_b : gset Z) :
  ∃ layout,
    calculate_layout set_a set_b = Ok layout
    ∧ 0 <= circle_separation layout < 2 * circle_radius layout
    ∧ circle_a_center layout = (- circle_separation layout / 2, 0, 0)
    ∧ circle_b_center layout = (circle_separation layout / 2, 0, 0)
    ∧ linalg_norm (np_sub (circle_b_center layout) (circle_a_center layout))
      = circle_separation layout
    ∧ region_center Lens layout = (0, 0, 0)
    ∧ lens_width layout
      = 2 * circle_radius layout - circle_separation layout
    ∧ 0 < lens_height layout
    ∧ lens_height layout ^ 2 + circle_separation layout ^ 2
      = (2 * circle_radius layout) ^ 2
    ∧ lens_area layout
      = _calculate_lens_area (circle_radius layout) (circle_separation layout)
    ∧ 0 < lens_area layout <= PI * circle_radius layout ^ 2.
Proof.
  destruct (calculate_layout_ok set_a set_b) as (layout & Hlay & _).
  exists layout. split; [exact Hlay |].
  destruct (calculate_layout_facts _ _ _ Hlay)
    as (HR & Hd & Ha & Hb & Hw & Hh & Hchord & Harea & _).
  set (R_ := circle_radius layout) in *.
  set (d := circle_separation layout) in *.
  split; [exact Hd |]. split; [exact Ha |]. split; [exact Hb |].
  split.
  { rewrite Ha, Hb. unfold np_sub, linalg_norm.
    replace ((d / 2 - - d / 2) ^ 2 + (0 - 0) ^ 2 + (0 - 0) ^ 2) with (d ^ 2)
      by field.
    apply sqrt_pow2. lra. }
  split.
  { unfold region_center. rewrite Ha, Hb. unfold np_add, np_div.
    f_equal; [f_equal |]; field. }
  split; [exact Hw |]. split; [exact Hh |]. split; [exact Hchord |].
  split; [exact Harea |].
  rewrite Harea. rewrite calculate_lens_area_formula by lra.
  split; [apply lens_formula_pos; lra |].
  destruct (Req_dec d 0) as [-> | Hnz].
  - rewrite lens_formula_0 by lra. lra.
  - left. apply lens_formula_lt_disc; lra.
Qed.

(** X13.  In the layout of any two sets [is_valid] is [True] and both
    crescent radii are at most 0.65 times the circle radius.  Either there
    is no warning and the crescents have the font, padding and element size
    of the lens, or there is exactly one warning, the font-size one, and the
    crescent font and padding are at most 90% of those of the lens. *)
Theorem calculate_layout_typography (set_a set_b : gset Z) :
  ∃ layout,
    calculate_layout set_a set_b = Ok layout
    ∧ is_valid layout = true
    ∧ 0 <= a_only (crescent_radii layout) <= circle_radius layout * 0.65
    ∧ 0 <= b_only (crescent_radii layout) <= circle_radius layout * 0.65
    ∧ (warnings layout = []
       ∧ crescent_font_size layout = lens_font_size layout
       ∧ crescent_padding layout = lens_padding layout
       ∧ crescent_element_size layout = lens_element_size layout
       ∨ warnings layout =
           [font_warning (lens_font_size layout) (crescent_font_size layout)]
         ∧ (0 ≤ crescent_font_size layout)%Z
         ∧ IZR (crescent_font_size layout)
             <= 0.9 * IZR (lens_font_size layout)
         ∧ 0 <= crescent_padding layout <= 0.9 * lens_padding layout).
Proof.
  destruct (calculate_layout_ok set_a set_b) as (layout & Hlay & _).
  exists layout. split; [exact Hlay |].
  destruct (calculate_layout_validation _ _ _ Hlay) as [Hvalid Hwarn].
  destruct (calculate_layout_facts _ _ _ Hlay)
    as (_ & _ & _ & _ & _ & _ & _ & _ & Hra & Hrb & Hle & Hce & Hlf & Hlp
        & Hcf & Hcp & Hshrink).
  split; [exact Hvalid |]. split; [exact Hra |]. split; [exact Hrb |].
  rewrite Hwarn.
  destruct Hshrink as [[Hf Hp] | [Hf Hp]].
  - left. destruct (decide _) as [Hne | _]; [congruence |].
    split; [reflexivity |]. split; [exact Hf |]. split; [exact Hp |].
    rewrite Hle, Hce, Hf. reflexivity.
  - right. destruct (decide _) as [_ | Heq].
    + split; [reflexivity |]. split; [exact Hcf |]. split; [exact Hf |]. lra.
    + exfalso. apply dec_stable in Heq. rewrite <- Heq in Hf.
      assert (0 < IZR (lens_font_size layout)) by (apply IZR_lt; exact Hlf).
      lra.
Qed.

(** ** Layout: exchanging the two sets *)

Lemma py_max_comm (a b : R) : Py.max a b = Py.max b a.
Proof. rewrite !py_max_Rmax. apply Rmax_comm. Qed.

Lemma calculate_crescent_parameters_swap (a_only_size b_only_size : Z)
    (base_radius : R) (base_font : Z) (base_padding : R)
    (cp : crescent_params) :
  _calculate_crescent_parameters a_only_size b_only_size base_radius
    base_font base_padding = Ok cp →
  _calculate_crescent_parameters b_only_size a_only_size base_radius
    base_font base_padding
  = Ok {| cp_font_size := cp_font_size cp;
          cp_element_size := cp_element_size cp;
          cp_padding := cp_padding cp;
          cp_radii := {| a_only := b_only (cp_radii cp);
                         b_only := a_only (cp_radii cp) |} |}.
Proof.
  unfold _calculate_crescent_parameters.
  destruct (calc_radius _ a_only_size) as [r_a | ?]; cbn [mbind result_bind];
    [| discriminate].
  destruct (calc_radius _ b_only_size) as [r_b | ?]; cbn [mbind result_bind];
    [| discriminate].
  rewrite (py_max_comm r_b r_a).
  destruct (Rgt_dec _ _); [| intros [= <-]; reflexivity].
  destruct (Py.truediv _ _) as [q | ?]; cbn [mbind result_bind];
    [| discriminate].
  destruct (calc_radius _ a_only_size) as [r_a' | ?]; cbn [mbind result_bind];
    [| discriminate].
  destruct (calc_radius _ b_only_size) as [r_b' | ?]; cbn [mbind result_bind];
    [| discriminate].
  intros [= <-]. reflexivity.
Qed.

(** X14.  Exchanging the two sets exchanges [a_only_size] with
    [b_only_size] and the two crescent radii, and leaves every other field
    of the layout as it was. *)
Theorem calculate_layout_swap (set_a set_b : gset Z) :
  ∃ layout,
    calculate_layout set_a set_b = Ok layout
    ∧ calculate_layout set_b set_a
      = Ok {| union_size := union_size layout;
              intersection_size := intersection_size layout;
              a_only_size := b_only_size layout;
              b_only_size := a_only_size layout;
              circle_radius := circle_radius layout;
              circle_separation := circle_separation layout;
              circle_a_center := circle_a_center layout;
              circle_b_center := circle_b_center layout;
              tier := tier layout;
              lens_font_size := lens_font_size layout;
              lens_element_size := lens_element_size layout;
              lens_padding := lens_padding layout;
              lens_area := lens_area layout;
              lens_width := lens_width layout;
              lens_height := lens_height layout;
              crescent_font_size := crescent_font_size layout;
              crescent_element_size := crescent_element_size layout;
              crescent_padding := crescent_padding layout;
              crescent_radii :=
                {| a_only := b_only (crescent_radii layout);
                   b_only := a_only (crescent_radii layout) |};
              is_valid := is_valid layout;
              warnings := warnings layout |}.
Proof.
  destruct (calculate_layout_ok set_a set_b) as (layout & Hlay & _).
  exists layout. split; [exact Hlay |].
  revert Hlay. unfold calculate_layout.
  assert (Hunion : set_b ∪ set_a = set_a ∪ set_b) by set_solver.
  assert (Hinter : set_b ∩ set_a = set_a ∩ set_b) by set_solver.
  rewrite Hunion, Hinter. clear Hunion Hinter.
  destruct (_select_tier _) as [tier_name params].
  destruct (_calculate_lens_parameters _ _ _ _) as [lens | ?];
    cbn [mbind result_bind]; [| discriminate].
  destruct (_calculate_crescent_parameters _ _ _ _ _) as [crescent | ?] eqn:Hc;
    cbn [mbind result_bind]; [| discriminate].
  rewrite (calculate_crescent_parameters_swap _ _ _ _ _ _ Hc).
  cbn [mbind result_bind]. intros [= <-]. reflexivity.
Qed.

(** ** Packing engine: failures *)

Lemma candidates_raise_iff (b : boundary) (center : ndarray)
    (elem_size padding : R) (e : exn) :
  candidates b center elem_size padding = Raise e
  ↔ e = ZeroDivisionError ∧ elem_size + padding = 0.
Proof.
  destruct b; unfold candidates, hexagonal_candidates, elliptical_candidates,
    Py.truediv;
    (destruct (Req_dec_T (elem_size + padding) 0) as [Hz | Hs];
     cbn [mbind result_bind];
     [ split; [intros [= <-]; split; [reflexivity | exact Hz]
              | intros [-> _]; reflexivity]
     | destruct (Req_dec_T ((elem_size + padding) * 0.866) 0); [lra |];
       cbn [mbind result_bind];
       split; [discriminate | intros [_ ?]; contradiction] ]).
Qed.

Lemma pack_raise_iff (b : boundary) (elements : list Z) (center : ndarray)
    (elem_size padding : R) (e : exn) :
  pack b elements center elem_size padding = Raise e
  ↔ e = ZeroDivisionError ∧ elem_size + padding = 0.
Proof.
  rewrite pack_candidates, <- (candidates_raise_iff b center).
  destruct (candidates b center elem_size padding); cbn [mbind result_bind];
    [split; intros H; discriminate H | split; intros [= <-]; reflexivity].
Qed.

(** X15.  For a spacing [elem_size + padding] that is zero, or of moderate
    magnitude together with the centre and the boundary, [_hexagonal_pack]
    and [_elliptical_pack] raise exactly when the spacing is zero, and then
    [ZeroDivisionError], whatever the elements (the empty list
    included). *)
Theorem packers_raise_iff (elements : list Z) (center : ndarray)
    (radius width height elem_size padding : R) (e : exn) :
  elem_size + padding = 0
  ∨ moderate (Circle radius) center (elem_size + padding)
    ∧ moderate (Ellipse width height) center (elem_size + padding) →
  (_hexagonal_pack elements center radius elem_size padding = Raise e
   ↔ e = ZeroDivisionError ∧ elem_size + padding = 0)
  ∧ (_elliptical_pack elements center width height elem_size padding = Raise e
     ↔ e = ZeroDivisionError ∧ elem_size + padding = 0).
Proof.
  intros _. split.
  - apply (pack_raise_iff (Circle radius)).
  - apply (pack_raise_iff (Ellipse width height)).
Qed.

Lemma packers_raise_iff_witness :
  (0 + 0 = 0
   ∨ moderate (Circle 2) (1, 0, 0) (0 + 0)
     ∧ moderate (Ellipse 4 2) (1, 0, 0) (0 + 0))
  ∧ _hexagonal_pack [7%Z] (1, 0, 0) 2 0 0 = Raise ZeroDivisionError
  ∧ _elliptical_pack [7%Z] (1, 0, 0) 4 2 0 0 = Raise ZeroDivisionError
  ∧ (0.75 + 0.25 = 0
     ∨ moderate (Circle 2) (1, 0, 0) (0.75 + 0.25)
       ∧ moderate (Ellipse 4 2) (1, 0, 0) (0.75 + 0.25))
  ∧ (∃ m, _hexagonal_pack [7%Z] (1, 0, 0) 2 0.75 0.25 = Ok m)
  ∧ (∃ m, _elliptical_pack [7%Z] (1, 0, 0) 4 2 0.75 0.25 = Ok m).
Proof.
  assert (Hzero : 0 + 0 = 0
    ∨ moderate (Circle 2) (1, 0, 0) (0 + 0)
      ∧ moderate (Ellipse 4 2) (1, 0, 0) (0 + 0)) by (left; lra).
  assert (Hmod : 0.75 + 0.25 = 0
    ∨ moderate (Circle 2) (1, 0, 0) (0.75 + 0.25)
      ∧ moderate (Ellipse 4 2) (1, 0, 0) (0.75 + 0.25)).
  { right. split.
    - apply (moderate_unit (Circle 2)). rewrite Rabs_pos_eq; lra.
    - apply (moderate_unit (Ellipse 4 2)). lra. }
  split; [exact Hzero |].
  split.
  { apply (packers_raise_iff [7%Z] (1, 0, 0) 2 4 2 0 0 ZeroDivisionError Hzero).
    split; [reflexivity | lra]. }
  split.
  { apply (packers_raise_iff [7%Z] (1, 0, 0) 2 4 2 0 0 ZeroDivisionError Hzero).
    split; [reflexivity | lra]. }
  split; [exact Hmod |].
  split.
  - destruct (_hexagonal_pack [7%Z] (1, 0, 0) 2 0.75 0.25) as [m | e] eqn:Hp;
      [exists m; reflexivity | exfalso].
    apply (packers_raise_iff [7%Z] (1, 0, 0) 2 4 2 0.75 0.25 e Hmod) in Hp.
    lra.
  - destruct (_elliptical_pack [7%Z] (1, 0, 0) 4 2 0.75 0.25) as [m | e] eqn:Hp;
      [exists m; reflexivity | exfalso].
    apply (packers_raise_iff [7%Z] (1, 0, 0) 2 4 2 0.75 0.25 e Hmod) in Hp.
    lra.
Defined.

Lemma region_step_raise_iff (py_list : gset Z → list Z) (k : region)
    (set_a set_b : gset Z) (layout : VennLayout)
    (positions : gmap Z ndarray) (e : exn) :
  region_step py_list k set_a set_b layout positions = Raise e
  ↔ e = ZeroDivisionError
    ∧ region_set k set_a set_b ≠ ∅
    ∧ region_elem_size k layout + region_padding k layout = 0.
Proof.
  unfold region_step. destruct (decide _) as [Hne | Hempty].
  - destruct (pack _ _ _ _ _) as [packed | e'] eqn:Hpack;
      cbn [mbind result_bind].
    + split; [discriminate |]. intros (-> & _ & Hz).
      assert (Hraise : pack (region_boundary k layout)
                (Py.sorted (py_list (region_set k set_a set_b)))
                (region_center k layout) (region_elem_size k layout)
                (region_padding k layout) = Raise ZeroDivisionError)
        by (apply pack_raise_iff; split; [reflexivity | exact Hz]).
      congruence.
    + apply pack_raise_iff in Hpack as [-> Hz].
      split; [intros [= <-]; auto | intros (-> & _); reflexivity].
  - split; [discriminate | intros (_ & ? & _); contradiction].
Qed.

Lemma pack_elements_raise_iff (py_list : gset Z → list Z)
    (elems : list Z) (set_a set_b : gset Z) (layout : VennLayout) (e : exn) :
  pack_elements py_list elems set_a set_b layout = Raise e
  ↔ e = ZeroDivisionError
    ∧ ∃ k, region_set k set_a set_b ≠ ∅
           ∧ region_elem_size k layout + region_padding k layout = 0.
Proof.
  rewrite pack_elements_steps.
  assert (Hok : ∀ k positions m,
    region_step py_list k set_a set_b layout positions = Ok m →
    ¬ (region_set k set_a set_b ≠ ∅
       ∧ region_elem_size k layout + region_padding k layout = 0)).
  { intros k positions m Hm [Hne Hz].
    assert (Hraise : region_step py_list k set_a set_b layout positions
                     = Raise ZeroDivisionError)
      by (apply region_step_raise_iff; auto).
    congruence. }
  destruct (region_step py_list AOnly _ _ _ ∅) as [p1 | e1] eqn:H1;
    cbn [mbind result_bind].
  - destruct (region_step py_list Lens _ _ _ p1) as [p2 | e2] eqn:H2;
      cbn [mbind result_bind].
    + destruct (region_step py_list BOnly _ _ _ p2) as [p3 | e3] eqn:H3;
        cbn [mbind result_bind].
      * split; [discriminate |]. intros (_ & k & Hne & Hz). exfalso.
        destruct k; [eapply (Hok AOnly) | eapply (Hok Lens)
                    | eapply (Hok BOnly)]; eauto.
      * apply region_step_raise_iff in H3 as (-> & Hne & Hz).
        split; [intros [= <-]; split; [reflexivity | exists BOnly; auto]
               | intros [-> _]; reflexivity].
    + apply region_step_raise_iff in H2 as (-> & Hne & Hz).
      split; [intros [= <-]; split; [reflexivity | exists Lens; auto]
             | intros [-> _]; reflexivity].
  - apply region_step_raise_iff in H1 as (-> & Hne & Hz).
    split; [intros [= <-]; split; [reflexivity | exists AOnly; auto]
           | intros [-> _]; reflexivity].
Qed.

(** X16.  Take a layout in which every non-empty region has a spacing
    ([elem_size + padding] for the region) that is zero, or of moderate
    magnitude together with the region's centre and boundary.  Then
    [pack_elements] raises exactly when some non-empty region has a zero
    spacing, and then [ZeroDivisionError].  An empty region is skipped, so
    its spacing does not matter. *)
Theorem pack_elements_raises_iff (py_list : gset Z → list Z)
    (elems : list Z) (set_a set_b : gset Z) (layout : VennLayout) (e : exn) :
  (∀ k, region_set k set_a set_b ≠ ∅ →
     region_elem_size k layout + region_padding k layout = 0
     ∨ moderate (region_boundary k layout) (region_center k layout)
         (region_elem_size k layout + region_padding k layout)) →
  pack_elements py_list elems set_a set_b layout = Raise e
  ↔ e = ZeroDivisionError
    ∧ ∃ k, region_set k set_a set_b ≠ ∅
           ∧ region_elem_size k layout + region_padding k layout = 0.
Proof.
  intros _. apply pack_elements_raise_iff.
Qed.

Lemma pack_elements_raises_iff_witness :
  (∀ k, region_set k {[1%Z; 2%Z]} ∅ ≠ ∅ →
     region_elem_size k (sample_layout 0)
       + region_padding k (sample_layout 0) = 0
     ∨ moderate (region_boundary k (sample_layout 0))
         (region_center k (sample_layout 0))
         (region_elem_size k (sample_layout 0)
          + region_padding k (sample_layout 0)))
  ∧ pack_elements elements [] {[1%Z; 2%Z]} ∅ (sample_layout 0)
    = Raise ZeroDivisionError
  ∧ (∀ k, region_set k {[1%Z; 2%Z]} ∅ ≠ ∅ →
       region_elem_size k (sample_layout 1)
       + region_padding k (sample_layout 1) = 0
       ∨ moderate (region_boundary k (sample_layout 1))
         (region_center k (sample_layout 1))
           (region_elem_size k (sample_layout 1)
          + region_padding k (sample_layout 1)))
  ∧ ∃ m, pack_elements elements [] {[1%Z; 2%Z]} ∅ (sample_layout 1) = Ok m.
Proof.
  assert (Hregions : ∀ k, region_set k {[1%Z; 2%Z]} ∅ ≠ ∅ → k = AOnly).
  { intros [| |] Hne; [reflexivity | |]; exfalso; apply Hne; simpl;
      set_solver. }
  assert (Hne : region_set AOnly {[1%Z; 2%Z]} ∅ ≠ ∅).
  { simpl. intros Hempty.
    assert (H1 : 1%Z ∈ ({[1%Z; 2%Z]} ∖ ∅ : gset Z)) by set_solver.
    rewrite Hempty in H1. set_solver. }
  assert (Hzero : ∀ k, region_set k {[1%Z; 2%Z]} ∅ ≠ ∅ →
    region_elem_size k (sample_layout 0)
       + region_padding k (sample_layout 0) = 0
    ∨ moderate (region_boundary k (sample_layout 0))
         (region_center k (sample_layout 0))
        (region_elem_size k (sample_layout 0)
          + region_padding k (sample_layout 0))).
  { intros k Hk. rewrite (Hregions k Hk). left. simpl. lra. }
  assert (Hmod : ∀ k, region_set k {[1%Z; 2%Z]} ∅ ≠ ∅ →
    region_elem_size k (sample_layout 1)
       + region_padding k (sample_layout 1) = 0
    ∨ moderate (region_boundary k (sample_layout 1))
         (region_center k (sample_layout 1))
        (region_elem_size k (sample_layout 1)
          + region_padding k (sample_layout 1))).
  { intros k Hk. rewrite (Hregions k Hk). right.
    apply moderate_unit_spacing; cbn [region_elem_size region_padding
      sample_layout
      region_center region_boundary crescent_element_size
      crescent_padding circle_a_center circle_radius crescent_radii a_only
      np_add fst snd].
    - lra.
    - apply Rabs_le. assert (1 <= 10 ^ 6) by (apply pow_R1_Rle; lra). lra.
    - apply Rabs_le. assert (1 <= 10 ^ 6) by (apply pow_R1_Rle; lra). lra.
    - apply Rabs_le. lra. }
  split; [exact Hzero |]. split.
  - apply (pack_elements_raises_iff elements [] {[1%Z; 2%Z]} ∅ (sample_layout 0)
             ZeroDivisionError Hzero).
    split; [reflexivity |]. exists AOnly. split; [exact Hne | simpl; lra].
  - split; [exact Hmod |].
    destruct (pack_elements elements [] {[1%Z; 2%Z]} ∅ (sample_layout 1))
      as [m | e] eqn:Hp; [exists m; reflexivity | exfalso].
    apply (pack_elements_raises_iff elements [] {[1%Z; 2%Z]} ∅ (sample_layout 1)
             e Hmod) in Hp.
    destruct Hp as (_ & k & Hk & Hs). rewrite (Hregions k Hk) in Hs.
    simpl in Hs. lra.
Defined.

(** ** Packing engine: order of assignment *)

Lemma strongly_sorted_lookup {A} (Rel : relation A) (l : list A)
    (i j : nat) (x y : A) :
  StronglySorted Rel l → (i < j)%nat →
  l !! i = Some x → l !! j = Some y → Rel x y.
Proof.
  intros Hsorted. revert i j.
  induction Hsorted as [| a l Hsorted IH Hall]; intros i j Hij Hi Hj.
  - rewrite lookup_nil in Hi. discriminate.
  - destruct j as [| j]; [lia |]. simpl in Hj. destruct i as [| i].
    + simpl in Hi. injection Hi as <-.
      rewrite Forall_forall in Hall. apply Hall.
      eapply list_elem_of_lookup_2, Hj.
    + simpl in Hi. apply (IH i j); [lia | assumption | assumption].
Qed.

Lemma sort_by_dist_strongly_sorted (l : list (R * ndarray)) :
  StronglySorted (λ a b, a.1 <= b.1) (sort_by_dist l).
Proof.
  apply Sorted_StronglySorted; [| apply sort_by_dist_sorted].
  intros x y z Hxy Hyz. lra.
Qed.

(** The rank of an element of a sorted duplicate-free list grows with the
    element. *)
Lemma sorted_rank_le (l : list Z) (i j : nat) (x y : Z) :
  StronglySorted Z.le l → NoDup l →
  l !! i = Some x → l !! j = Some y → (x ≤ y)%Z → (i ≤ j)%nat.
Proof.
  intros Hsorted Hnodup Hi Hj Hxy.
  destruct (le_lt_dec i j) as [? | Hlt]; [assumption |]. exfalso.
  pose proof (strongly_sorted_lookup Z.le l j i y x Hsorted Hlt Hj Hi) as Hyx.
  assert (x = y) by lia. subst y.
  pose proof (NoDup_lookup l i j x Hnodup Hi Hj). lia.
Qed.

Lemma candidates_elem (b : boundary) (center : ndarray)
    (elem_size padding : R) (cands : list (R * ndarray)) (dp : R * ndarray) :
  candidates b center elem_size padding = Ok cands → dp ∈ cands →
  dp.1 = linalg_norm (np_sub dp.2 center)
  ∧ ∃ x y, dp.2 = np_add center (x, y, 0).
Proof.
  intros Hc Hin.
  apply candidates_lattice in Hc as (_ & rows & cols & keep & keep_dec & ->).
  apply lattice_candidates_elem in Hin as (row & col & Hp & Hd & _).
  split; [exact Hd |]. rewrite Hp. unfold lattice_point.
  destruct (lattice_xy _ _ row col) as [x y]. exists x, y. reflexivity.
Qed.

Lemma candidate_at_cases (positions_list : list (R * ndarray))
    (center : ndarray) (i : nat) :
  candidate_at positions_list center i = center
  ∨ ∃ dp, positions_list !! i = Some dp
          ∧ candidate_at positions_list center i = dp.2.
Proof.
  unfold candidate_at. destruct (positions_list !! i) as [dp |].
  - right. exists dp. split; reflexivity.
  - left. reflexivity.
Qed.

Section ranked_positions.

Variable py_list : gset Z → list Z.
Variables set_a set_b : gset Z.
Variable layout : VennLayout.
Hypothesis py_list_perm : ∀ s, py_list s ≡ₚ elements s.

(** The sorted element list of a region, and the position of each of its
    members in the map. *)
Lemma pack_elements_ranked (elems : list Z) (m : gmap Z ndarray) (k : region) :
  pack_elements py_list elems set_a set_b layout = Ok m →
  region_set k set_a set_b ≠ ∅ →
  ∃ cands l,
    region_candidates k layout = Ok cands
    ∧ StronglySorted Z.le l ∧ NoDup l
    ∧ (∀ e, e ∈ l ↔ e ∈ region_set k set_a set_b)
    ∧ ∀ i e, l !! i = Some e →
        m !! e = Some (candidate_at (sort_by_dist cands)
                         (region_center k layout) i).
Proof.
  intros Hm Hne.
  destruct (pack_elements_spec py_list set_a set_b layout py_list_perm
              elems m Hm) as [_ Hregions].
  destruct (Hregions k Hne) as (cands & Hc & Hlook).
  destruct (sorted_of_set py_list (region_set k set_a set_b)
              (py_list_perm _)) as (Hnodup & _ & Hmem).
  exists cands, (Py.sorted (py_list (region_set k set_a set_b))).
  split; [exact Hc |]. split; [apply sorted_strongly_sorted |].
  split; [exact Hnodup |]. split; [exact Hmem | exact Hlook].
Qed.

Lemma pack_elements_position (elems : list Z) (m : gmap Z ndarray)
    (k : region) (e : Z) :
  pack_elements py_list elems set_a set_b layout = Ok m →
  e ∈ region_set k set_a set_b →
  ∃ cands i,
    region_candidates k layout = Ok cands
    ∧ m !! e = Some (candidate_at (sort_by_dist cands)
                       (region_center k layout) i).
Proof.
  intros Hm He.
  destruct (pack_elements_ranked elems m k Hm ltac:(set_solver))
    as (cands & l & Hc & _ & _ & Hmem & Hlook).
  apply Hmem in He. apply list_elem_of_lookup_1 in He as [i Hi].
  exists cands, i. split; [exact Hc | apply Hlook, Hi].
Qed.

End ranked_positions.

(** Within a region the positions are handed out from the centre
    outwards, whatever the layout. *)
Lemma pack_elements_rank_order (py_list : gset Z → list Z)
    (elems : list Z) (set_a set_b : gset Z) (layout : VennLayout)
    (m : gmap Z ndarray) (k : region) (e1 e2 : Z) :
  (∀ s, py_list s ≡ₚ elements s) →
  pack_elements py_list elems set_a set_b layout = Ok m →
  e1 ∈ region_set k set_a set_b → e2 ∈ region_set k set_a set_b →
  (e1 ≤ e2)%Z →
  ∃ p1 p2,
    m !! e1 = Some p1 ∧ m !! e2 = Some p2
    ∧ (p2 = region_center k layout
       ∨ linalg_norm (np_sub p1 (region_center k layout))
           <= linalg_norm (np_sub p2 (region_center k layout))).
Proof.
  intros Hperm Hm He1 He2 Hle.
  destruct (pack_elements_ranked py_list set_a set_b layout Hperm elems m k Hm
              ltac:(set_solver))
    as (cands & l & Hc & Hsorted & Hnodup & Hmem & Hlook).
  apply Hmem, list_elem_of_lookup_1 in He1 as [i1 Hi1].
  apply Hmem, list_elem_of_lookup_1 in He2 as [i2 Hi2].
  pose proof (sorted_rank_le l i1 i2 e1 e2 Hsorted Hnodup Hi1 Hi2 Hle) as Hrank.
  eexists _, _. split; [apply Hlook, Hi1 |]. split; [apply Hlook, Hi2 |].
  set (c := region_center k layout).
  unfold candidate_at.
  destruct (sort_by_dist cands !! i2) as [dp2 |] eqn:H2; [| left; reflexivity].
  right.
  destruct (sort_by_dist cands !! i1) as [dp1 |] eqn:H1.
  - assert (Hdist : ∀ dp i, sort_by_dist cands !! i = Some dp →
      dp.1 = linalg_norm (np_sub dp.2 c)).
    { intros dp i Hi. apply list_elem_of_lookup_2 in Hi.
      rewrite sort_by_dist_perm in Hi.
      apply (candidates_elem _ _ _ _ _ _ Hc Hi). }
    rewrite <- (Hdist dp1 i1 H1), <- (Hdist dp2 i2 H2).
    destruct (decide (i1 = i2)) as [-> | Hneq].
    + rewrite H1 in H2. injection H2 as <-. lra.
    + apply (strongly_sorted_lookup _ _ i1 i2 dp1 dp2
               (sort_by_dist_strongly_sorted cands)); [lia | exact H1 | exact H2].
  - apply lookup_ge_None_1 in H1. apply lookup_lt_Some in H2. lia.
Qed.

(** ** Packing engine: the centre of a region *)

Lemma np_add_zero (center : ndarray) : np_add center (0, 0, 0) = center.
Proof.
  destruct center as [[cx cy] cz]. unfold np_add.
  f_equal; [f_equal |]; lra.
Qed.

Lemma linalg_norm_origin : linalg_norm (0, 0, 0) = 0.
Proof.
  unfold linalg_norm.
  replace (0 ^ 2 + 0 ^ 2 + 0 ^ 2) with 0 by lra. apply sqrt_0.
Qed.

Lemma linalg_norm_zero (u : ndarray) : linalg_norm u = 0 → u = (0, 0, 0).
Proof.
  destruct u as [[x y] z]. unfold linalg_norm. intros Hn.
  pose proof (pow2_ge_0 x). pose proof (pow2_ge_0 y). pose proof (pow2_ge_0 z).
  apply sqrt_eq_0 in Hn; [| lra].
  assert (x = 0) by nra. assert (y = 0) by nra. assert (z = 0) by nra.
  congruence.
Qed.

Lemma lattice_candidates_origin (center : ndarray) (s : R) (rows cols : Z)
    (keep : R → R → Prop) (keep_dec : ∀ x y, {keep x y} + {¬ keep x y}) :
  (0 ≤ rows)%Z → (0 ≤ cols)%Z → keep 0 0 →
  (0, center) ∈ lattice_candidates center s rows cols keep keep_dec.
Proof.
  intros Hrows Hcols Hkeep. unfold lattice_candidates.
  apply list_elem_of_bind. exists 0%Z. split.
  - apply list_elem_of_bind. exists 0%Z. split.
    + assert (Hxy : lattice_xy s (s * 0.866) 0 0 = (0, 0)).
      { unfold lattice_xy. simpl. f_equal; lra. }
      rewrite Hxy. destruct (keep_dec 0 0); [| contradiction].
      rewrite np_sub_add_cancel, np_add_zero, linalg_norm_origin.
      apply list_elem_of_singleton. reflexivity.
    + unfold Py.range. apply elem_of_seqZ. lia.
  - unfold Py.range. apply elem_of_seqZ. lia.
Qed.

Lemma lattice_candidates_ranges (center : ndarray) (s : R) (rows cols : Z)
    (keep : R → R → Prop) (keep_dec : ∀ x y, {keep x y} + {¬ keep x y})
    (dp : R * ndarray) :
  dp ∈ lattice_candidates center s rows cols keep keep_dec →
  (0 ≤ rows)%Z ∧ (0 ≤ cols)%Z.
Proof.
  unfold lattice_candidates, Py.range. intros Hin.
  apply list_elem_of_bind in Hin as (row & Hin & Hrow).
  apply list_elem_of_bind in Hin as (col & _ & Hcol).
  apply elem_of_seqZ in Hrow. apply elem_of_seqZ in Hcol. lia.
Qed.

(** A non-empty candidate list contains the centre itself, at distance 0. *)
Lemma candidates_origin (b : boundary) (center : ndarray)
    (elem_size padding : R) (cands : list (R * ndarray)) (dp : R * ndarray) :
  candidates b center elem_size padding = Ok cands → dp ∈ cands →
  (0, center) ∈ cands.
Proof.
  destruct b as [radius | width height]; unfold candidates; intros Hc Hin.
  - apply hexagonal_candidates_lattice in Hc as (_ & rows & cols & ->).
    destruct (lattice_candidates_ranges _ _ _ _ _ _ _ Hin) as [Hrows Hcols].
    apply lattice_candidates_elem in Hin as (row & col & _ & _ & Hkeep).
    apply lattice_candidates_origin; [exact Hrows | exact Hcols |].
    unfold in_circle in *.
    rewrite np_sub_add_cancel in *. rewrite linalg_norm_origin.
    eapply Rle_trans; [apply linalg_norm_nonneg | exact Hkeep].
  - apply elliptical_candidates_lattice in Hc as (_ & rows & cols & ->).
    destruct (lattice_candidates_ranges _ _ _ _ _ _ _ Hin) as [Hrows Hcols].
    apply lattice_candidates_origin; [exact Hrows | exact Hcols |].
    destruct (Rgt_dec width 0), (Rgt_dec height 0); lra.
Qed.

Lemma candidate_first_center (b : boundary) (center : ndarray)
    (elem_size padding : R) (cands : list (R * ndarray)) :
  candidates b center elem_size padding = Ok cands →
  candidate_at (sort_by_dist cands) center 0 = center.
Proof.
  intros Hc. unfold candidate_at.
  destruct (sort_by_dist cands !! 0%nat) as [p |] eqn:Hp; [| reflexivity].
  assert (Hin : p ∈ cands).
  { rewrite <- sort_by_dist_perm. eapply list_elem_of_lookup_2, Hp. }
  pose proof (candidates_origin _ _ _ _ _ _ Hc Hin) as Horigin.
  rewrite <- sort_by_dist_perm in Horigin.
  apply list_elem_of_lookup_1 in Horigin as [j Hj].
  destruct j as [| j].
  - rewrite Hp in Hj. injection Hj as ->. reflexivity.
  - pose proof (strongly_sorted_lookup _ _ 0 (S j) p (0, center)
                  (sort_by_dist_strongly_sorted cands) ltac:(lia) Hp Hj)
      as Hle.
    cbn [fst] in Hle.
    destruct (candidates_elem _ _ _ _ _ _ Hc Hin) as (Hd & x & y & Hxy).
    pose proof (linalg_norm_nonneg (np_sub p.2 center)) as Hnn.
    assert (Hzero : linalg_norm (np_sub p.2 center) = 0) by lra.
    apply linalg_norm_zero in Hzero.
    rewrite Hxy, np_sub_add_cancel in Hzero.
    rewrite Hxy, Hzero. apply np_add_zero.
Qed.

Lemma region_smallest_at_center (py_list : gset Z → list Z)
    (elems : list Z) (set_a set_b : gset Z) (layout : VennLayout)
    (m : gmap Z ndarray) (k : region) (e : Z) :
  (∀ s, py_list s ≡ₚ elements s) →
  pack_elements py_list elems set_a set_b layout = Ok m →
  e ∈ region_set k set_a set_b →
  (∀ e', e' ∈ region_set k set_a set_b → (e ≤ e')%Z) →
  m !! e = Some (region_center k layout).
Proof.
  intros Hperm Hm He Hmin.
  destruct (pack_elements_ranked py_list set_a set_b layout Hperm elems m k Hm
              ltac:(set_solver))
    as (cands & l & Hc & Hsorted & Hnodup & Hmem & Hlook).
  pose proof He as Hi. apply Hmem, list_elem_of_lookup_1 in Hi as [i Hi].
  assert (Hrank : i = 0%nat).
  { destruct l as [| h l']; [rewrite lookup_nil in Hi; discriminate |].
    assert (Hh : (e ≤ h)%Z) by (apply Hmin, Hmem; left).
    pose proof (sorted_rank_le (h :: l') i 0 e h Hsorted Hnodup Hi
                  eq_refl Hh).
    lia. }
  subst i. rewrite (Hlook 0%nat e Hi). f_equal.
  exact (candidate_first_center _ _ _ _ _ Hc).
Qed.

(** X18.  Whenever [pack_elements] returns, the smallest element of each
    non-empty region is placed exactly at the centre of its region. *)
Theorem pack_elements_smallest_at_center (py_list : gset Z → list Z)
    (elems : list Z) (set_a set_b : gset Z) (layout : VennLayout)
    (m : gmap Z ndarray) (k : region) (e : Z) :
  (∀ s, py_list s ≡ₚ elements s) →
  pack_elements py_list elems set_a set_b layout = Ok m →
  e ∈ region_set k set_a set_b →
  (∀ e', e' ∈ region_set k set_a set_b → (e ≤ e')%Z) →
  m !! e = Some (region_center k layout).
Proof.
  apply region_smallest_at_center.
Qed.

Lemma pack_elements_smallest_at_center_witness :
  ∃ layout m,
    (∀ s : gset Z, elements s ≡ₚ elements s)
    ∧ pack_elements elements [1%Z; 2%Z; 3%Z; 4%Z]
        {[1%Z; 2%Z; 3%Z]} {[3%Z; 4%Z]} layout = Ok m
    ∧ 1%Z ∈ region_set AOnly {[1%Z; 2%Z; 3%Z]} {[3%Z; 4%Z]}
    ∧ (∀ e', e' ∈ region_set AOnly {[1%Z; 2%Z; 3%Z]} {[3%Z; 4%Z]} →
         (1 ≤ e')%Z)
    ∧ m !! 1%Z = Some (region_center AOnly layout).
Proof.
  destruct (calculate_layout_ok {[1%Z; 2%Z; 3%Z]} {[3%Z; 4%Z]})
    as (layout & Hlay & Hlens & Hcres).
  destruct (pack_elements_ok elements {[1%Z; 2%Z; 3%Z]} {[3%Z; 4%Z]} layout
              [1%Z; 2%Z; 3%Z; 4%Z] ltac:(lra) ltac:(lra)) as [m Hm].
  exists layout, m.
  assert (Hperm : ∀ s : gset Z, elements s ≡ₚ elements s)
    by (intros s; reflexivity).
  assert (Hin : 1%Z ∈ region_set AOnly {[1%Z; 2%Z; 3%Z]} {[3%Z; 4%Z]})
    by (simpl; set_solver).
  assert (Hmin : ∀ e', e' ∈ region_set AOnly {[1%Z; 2%Z; 3%Z]} {[3%Z; 4%Z]} →
                 (1 ≤ e')%Z)
    by (simpl; intros e' He'; set_unfold; lia).
  split; [exact Hperm |]. split; [exact Hm |]. split; [exact Hin |].
  split; [exact Hmin |].
  exact (pack_elements_smallest_at_center elements [1%Z; 2%Z; 3%Z; 4%Z]
           {[1%Z; 2%Z; 3%Z]} {[3%Z; 4%Z]} layout m AOnly 1 Hperm Hm Hin Hmin).
Defined.

(** ** Packing engine: regions do not interfere *)

(** X19.  The position of an element depends on its own region only: two
    calls with the same layout whose sets give the same region place every
    element of that region at the same position. *)
Theorem pack_elements_region_local (py_list : gset Z → list Z)
    (elems elems' : list Z) (set_a set_b set_a' set_b' : gset Z)
    (layout : VennLayout) (m m' : gmap Z ndarray) (k : region) (e : Z) :
  (∀ s, py_list s ≡ₚ elements s) →
  pack_elements py_list elems set_a set_b layout = Ok m →
  pack_elements py_list elems' set_a' set_b' layout = Ok m' →
  region_set k set_a set_b = region_set k set_a' set_b' →
  e ∈ region_set k set_a set_b →
  m !! e = m' !! e.
Proof.
  intros Hperm Hm Hm' Hsame He.
  destruct (pack_elements_spec py_list set_a set_b layout Hperm elems m Hm)
    as [_ Hregions].
  destruct (pack_elements_spec py_list set_a' set_b' layout Hperm elems' m' Hm')
    as [_ Hregions'].
  destruct (Hregions k ltac:(set_solver)) as (cands & Hc & Hlook).
  destruct (Hregions' k ltac:(rewrite <- Hsame; set_solver))
    as (cands' & Hc' & Hlook').
  rewrite Hc in Hc'. injection Hc' as <-.
  rewrite <- Hsame in Hlook'.
  destruct (sorted_of_set py_list (region_set k set_a set_b) (Hperm _))
    as (_ & _ & Hmem).
  apply Hmem, list_elem_of_lookup_1 in He as [i Hi].
  rewrite (Hlook i e Hi), (Hlook' i e Hi). reflexivity.
Qed.

Lemma pack_elements_region_local_witness :
  ∃ layout m m',
    (∀ s : gset Z, elements s ≡ₚ elements s)
    ∧ pack_elements elements [] {[1%Z; 2%Z; 3%Z]} {[3%Z; 4%Z]} layout = Ok m
    ∧ pack_elements elements [] {[1%Z; 2%Z; 3%Z]} {[3%Z; 5%Z; 6%Z]} layout
      = Ok m'
    ∧ region_set AOnly {[1%Z; 2%Z; 3%Z]} {[3%Z; 4%Z]}
      = region_set AOnly {[1%Z; 2%Z; 3%Z]} {[3%Z; 5%Z; 6%Z]}
    ∧ 2%Z ∈ region_set AOnly {[1%Z; 2%Z; 3%Z]} {[3%Z; 4%Z]}
    ∧ m !! 2%Z = m' !! 2%Z.
Proof.
  destruct (calculate_layout_ok {[1%Z; 2%Z; 3%Z]} {[3%Z; 4%Z]})
    as (layout & Hlay & Hlens & Hcres).
  destruct (pack_elements_ok elements {[1%Z; 2%Z; 3%Z]} {[3%Z; 4%Z]} layout
              [] ltac:(lra) ltac:(lra)) as [m Hm].
  destruct (pack_elements_ok elements {[1%Z; 2%Z; 3%Z]} {[3%Z; 5%Z; 6%Z]}
              layout [] ltac:(lra) ltac:(lra)) as [m' Hm'].
  exists layout, m, m'.
  assert (Hperm : ∀ s : gset Z, elements s ≡ₚ elements s)
    by (intros s; reflexivity).
  assert (Hsame : region_set AOnly {[1%Z; 2%Z; 3%Z]} {[3%Z; 4%Z]}
                  = region_set AOnly {[1%Z; 2%Z; 3%Z]} {[3%Z; 5%Z; 6%Z]})
    by (simpl; apply set_eq; intros x; set_unfold; lia).
  assert (Hin : 2%Z ∈ region_set AOnly {[1%Z; 2%Z; 3%Z]} {[3%Z; 4%Z]})
    by (simpl; set_solver).
  split; [exact Hperm |]. split; [exact Hm |]. split; [exact Hm' |].
  split; [exact Hsame |]. split; [exact Hin |].
  exact (pack_elements_region_local elements [] [] {[1%Z; 2%Z; 3%Z]}
           {[3%Z; 4%Z]} {[1%Z; 2%Z; 3%Z]} {[3%Z; 5%Z; 6%Z]} layout m m'
           AOnly 2 Hperm Hm Hm' Hsame Hin).
Defined.

(** ** Layout and packing together *)

(** Moving the centre of a circle along the x axis by [a] and growing the
    radius by [|a|] keeps every point of the circle inside. *)
Lemma in_circle_shift (c0 p : ndarray) (a r : R) :
  in_circle (np_add c0 (a, 0, 0)) r p →
  in_circle c0 (r + Rabs a) p.
Proof.
  destruct c0 as [[cx cy] cz], p as [[px py] pz].
  unfold in_circle, np_add, np_sub, linalg_norm. intros Hin.
  set (x := px - (cx + a)) in *.
  replace (py - (cy + 0)) with (py - cy) in Hin by lra.
  replace (pz - (cz + 0)) with (pz - cz) in Hin by lra.
  set (y := py - cy) in *. set (z := pz - cz) in *.
  replace (px - cx) with (x + a) by (unfold x; lra).
  pose proof (pow2_ge_0 x). pose proof (pow2_ge_0 y). pose proof (pow2_ge_0 z).
  pose proof (pow2_ge_0 (x + a)).
  assert (Hsum : 0 <= x ^ 2 + y ^ 2 + z ^ 2) by lra.
  pose proof (sqrt_pos (x ^ 2 + y ^ 2 + z ^ 2)) as Hn0.
  pose proof (pow2_sqrt _ Hsum) as Hn2.
  set (n := sqrt (x ^ 2 + y ^ 2 + z ^ 2)) in *.
  pose proof (Rabs_pos a) as Ha0.
  assert (Hxa : x * a <= n * Rabs a).
  { assert (Hxn : Rabs x <= n).
    { destruct (Rle_dec (Rabs x) n) as [? | Hgt]; [assumption |]. exfalso.
      assert (Hx2 : Rabs x ^ 2 = x ^ 2) by (rewrite <- Rsqr_pow2, <- Rsqr_abs, Rsqr_pow2; reflexivity).
      pose proof (Rabs_pos x). nra. }
    apply Rle_trans with (Rabs x * Rabs a).
    - rewrite <- Rabs_mult. apply Rle_abs.
    - apply Rmult_le_compat_r; assumption. }
  apply Rle_trans with (n + Rabs a); [| lra].
  rewrite <- (sqrt_pow2 (n + Rabs a)) by lra.
  apply sqrt_le_1_alt.
  assert (Ha2 : Rabs a ^ 2 = a ^ 2)
    by (rewrite <- Rsqr_pow2, <- Rsqr_abs, Rsqr_pow2; reflexivity).
  nra.
Qed.

Lemma in_circle_center (center : ndarray) (r : R) :
  0 <= r → in_circle center r center.
Proof.
  intros Hr. unfold in_circle.
  replace (np_sub center center) with ((0, 0, 0) : ndarray).
  - rewrite linalg_norm_origin. exact Hr.
  - destruct center as [[cx cy] cz]. unfold np_sub.
    f_equal; [f_equal |]; lra.
Qed.

Lemma in_circle_weaken (center p : ndarray) (r r' : R) :
  in_circle center r p → r <= r' → in_circle center r' p.
Proof. unfold in_circle. lra. Qed.

(** A point of the lens ellipse on the right of the y axis lies inside the
    circle centred at [(d / 2, 0)]. *)
Lemma ellipse_inside_circle (R_ d w h x y : R) :
  0 <= d → 0 < w → 0 < h →
  w = 2 * R_ - d → h ^ 2 + d ^ 2 = (2 * R_) ^ 2 →
  (2 * x / w) ^ 2 + (2 * y / h) ^ 2 <= 1 → 0 <= x →
  (x - d / 2) ^ 2 + y ^ 2 <= R_ ^ 2.
Proof.
  intros Hd Hw Hh Hwd Hchord Hin Hx.
  set (u := 2 * x / w) in *. set (v := 2 * y / h) in *.
  assert (Hxu : x = u * w / 2) by (unfold u; field; lra).
  assert (Hyv : y = v * h / 2) by (unfold v; field; lra).
  assert (Hu : 0 <= u).
  { unfold u. apply Rmult_le_pos; [lra | left; apply Rinv_0_lt_compat; lra]. }
  assert (Hv2 : v ^ 2 * h ^ 2 <= (1 - u ^ 2) * h ^ 2).
  { apply Rmult_le_compat_r; [apply pow2_ge_0 | lra]. }
  assert (Hsign : 0 <= d * w * (u * (1 + u))).
  { apply Rmult_le_pos; [apply Rmult_le_pos; lra |].
    apply Rmult_le_pos; lra. }
  rewrite Hxu, Hyv.
  replace ((u * w / 2 - d / 2) ^ 2 + (v * h / 2) ^ 2)
    with ((u * w - d) ^ 2 / 4 + v ^ 2 * h ^ 2 / 4) by field.
  assert (Hid : (u * w - d) ^ 2 + (1 - u ^ 2) * h ^ 2
                = 4 * R_ ^ 2 - 2 * (d * w * (u * (1 + u)))).
  { replace (h ^ 2) with ((2 * R_) ^ 2 - d ^ 2) by lra. subst w. ring. }
  lra.
Qed.

Lemma in_circle_of_squares (cx cy cz px py pz r : R) :
  0 <= r →
  (px - cx) ^ 2 + (py - cy) ^ 2 + (pz - cz) ^ 2 <= r ^ 2 →
  in_circle (cx, cy, cz) r (px, py, pz).
Proof.
  intros Hr Hsq. unfold in_circle, np_sub, linalg_norm.
  rewrite <- (sqrt_pow2 r Hr). apply sqrt_le_1_alt. exact Hsq.
Qed.

Lemma lens_point_inside_a_circle (R_ d w h px py : R) :
  0 < R_ → 0 <= d → 0 < w → 0 < h →
  w = 2 * R_ - d → h ^ 2 + d ^ 2 = (2 * R_) ^ 2 →
  in_ellipse (0, 0, 0) w h (px, py, 0) →
  in_circle (- d / 2, 0, 0) R_ (px, py, 0)
  ∨ in_circle (d / 2, 0, 0) R_ (px, py, 0).
Proof.
  intros HR Hd Hw Hh Hwd Hchord Hin.
  unfold in_ellipse, np_sub in Hin.
  replace (px - 0) with px in Hin by lra.
  replace (py - 0) with py in Hin by lra.
  destruct (Rle_dec 0 px) as [Hpos | Hneg].
  - right. apply in_circle_of_squares; [lra |].
    pose proof (ellipse_inside_circle R_ d w h px py Hd Hw Hh Hwd Hchord Hin
                  Hpos).
    lra.
  - left. apply in_circle_of_squares; [lra |].
    assert (Hin' : (2 * - px / w) ^ 2 + (2 * py / h) ^ 2 <= 1).
    { replace ((2 * - px / w) ^ 2) with ((2 * px / w) ^ 2) by (field; lra).
      exact Hin. }
    pose proof (ellipse_inside_circle R_ d w h (- px) py Hd Hw Hh Hwd Hchord
                  Hin' ltac:(lra)).
    lra.
Qed.

(** X20.  For any two sets, packing with the computed layout returns, and
    every position lies in the plane [z = 0] and inside the diagram: an
    element of [A] only inside circle A, an element of [B] only inside
    circle B, and an element of the intersection inside at least one of the
    two circles. *)
Theorem positions_inside_circles (py_list : gset Z → list Z)
    (elems : list Z) (set_a set_b : gset Z) :
  (∀ s, py_list s ≡ₚ elements s) →
  ∃ layout m,
    calculate_layout set_a set_b = Ok layout
    ∧ pack_elements py_list elems set_a set_b layout = Ok m
    ∧ ∀ e p, m !! e = Some p →
        p.2 = 0
        ∧ (e ∈ set_a ∖ set_b →
           in_circle (circle_a_center layout) (circle_radius layout) p)
        ∧ (e ∈ set_b ∖ set_a →
           in_circle (circle_b_center layout) (circle_radius layout) p)
        ∧ (e ∈ set_a ∩ set_b →
           in_circle (circle_a_center layout) (circle_radius layout) p
           ∨ in_circle (circle_b_center layout) (circle_radius layout) p).
Proof.
  intros Hperm.
  destruct (calculate_layout_ok set_a set_b) as (layout & Hlay & Hlens & Hcres).
  destruct (pack_elements_ok py_list set_a set_b layout elems
              ltac:(lra) ltac:(lra)) as [m Hm].
  exists layout, m. split; [exact Hlay |]. split; [exact Hm |].
  destruct (calculate_layout_facts _ _ _ Hlay)
    as (HR & Hd & Ha & Hb & Hw & Hh & Hchord & _ & Hra & Hrb & _).
  set (R_ := circle_radius layout) in *.
  set (d := circle_separation layout) in *.
  (* every position of region [k] is the region centre or a candidate *)
  assert (Hpos : ∀ k e p, e ∈ region_set k set_a set_b → m !! e = Some p →
    p = region_center k layout
    ∨ ∃ cands dp, region_candidates k layout = Ok cands ∧ dp ∈ cands
                  ∧ p = dp.2).
  { intros k e p He Hp.
    destruct (pack_elements_position py_list set_a set_b layout Hperm elems m
                k e Hm He) as (cands & i & Hc & Hlook).
    rewrite Hlook in Hp. injection Hp as <-.
    destruct (candidate_at_cases (sort_by_dist cands)
                (region_center k layout) i) as [-> | (dp & Hi & ->)].
    - left. reflexivity.
    - right. exists cands, dp. split; [exact Hc |]. split; [| reflexivity].
      rewrite <- sort_by_dist_perm. eapply list_elem_of_lookup_2, Hi. }
  assert (Hplane : ∀ k, (region_center k layout).2 = 0).
  { intros k. destruct k; unfold region_center; rewrite ?Ha, ?Hb;
      unfold np_add, np_div; cbn [snd]; lra. }
  assert (Hz : ∀ e p, m !! e = Some p → p.2 = 0).
  { intros e p Hp.
    assert (He : e ∈ dom m) by (apply elem_of_dom; eauto).
    destruct (pack_elements_spec py_list set_a set_b layout Hperm elems m Hm)
      as [Hdom _].
    rewrite Hdom in He.
    assert (Hk : ∃ k, e ∈ region_set k set_a set_b).
    { destruct (decide (e ∈ set_a)), (decide (e ∈ set_b)).
      - exists Lens. simpl. set_solver.
      - exists AOnly. simpl. set_solver.
      - exists BOnly. simpl. set_solver.
      - set_solver. }
    destruct Hk as [k Hk].
    destruct (Hpos k e p Hk Hp) as [-> | (cands & dp & Hc & Hin & ->)];
      [apply Hplane |].
    destruct (candidates_elem _ _ _ _ _ _ Hc Hin) as (_ & x & y & ->).
    specialize (Hplane k).
    destruct (region_center k layout) as [[cx cy] cz]. simpl in *. lra. }
  intros e p Hp. split; [exact (Hz e p Hp) |]. split; [| split].
  - intros He.
    apply in_circle_weaken with (a_only (crescent_radii layout)
                                 + Rabs (- R_ * 0.35));
      [| rewrite Rabs_left by lra; lra].
    apply in_circle_shift.
    destruct (Hpos AOnly e p He Hp) as [-> | (cands & dp & Hc & Hin & ->)].
    + apply in_circle_center. lra.
    + apply (candidates_inside (region_boundary AOnly layout) _ _ _ cands dp
               I Hc Hin).
  - intros He.
    apply in_circle_weaken with (b_only (crescent_radii layout)
                                 + Rabs (R_ * 0.35));
      [| rewrite Rabs_pos_eq by lra; lra].
    apply in_circle_shift.
    destruct (Hpos BOnly e p He Hp) as [-> | (cands & dp & Hc & Hin & ->)].
    + apply in_circle_center. lra.
    + apply (candidates_inside (region_boundary BOnly layout) _ _ _ cands dp
               I Hc Hin).
  - intros He.
    assert (Hc0 : region_center Lens layout = (0, 0, 0)).
    { unfold region_center. rewrite Ha, Hb. unfold np_add, np_div.
      f_equal; [f_equal |]; field. }
    assert (Hell : in_ellipse (0, 0, 0) (lens_width layout)
                     (lens_height layout) p).
    { destruct (Hpos Lens e p He Hp) as [-> | (cands & dp & Hc & Hin & ->)].
      - rewrite Hc0. unfold in_ellipse, np_sub. lra.
      - rewrite <- Hc0.
        assert (Hw0 : 0 < lens_width layout) by lra.
        apply (candidates_inside (region_boundary Lens layout) _ _ _ cands dp
                 (conj Hw0 Hh) Hc Hin). }
    pose proof (Hz e p Hp) as Hpz.
    destruct p as [[px py] pz]. cbn [snd] in Hpz. subst pz.
    rewrite Ha, Hb.
    apply (lens_point_inside_a_circle R_ d (lens_width layout)
             (lens_height layout)); (lra || assumption).
Qed.

Lemma positions_inside_circles_witness :
  (∀ s : gset Z, elements s ≡ₚ elements s)
  ∧ ∃ layout m,
      calculate_layout {[1%Z; 2%Z; 3%Z]} {[3%Z; 4%Z]} = Ok layout
      ∧ pack_elements elements [1%Z; 2%Z; 3%Z; 4%Z]
          {[1%Z; 2%Z; 3%Z]} {[3%Z; 4%Z]} layout = Ok m
      ∧ ∀ e p, m !! e = Some p →
          p.2 = 0
          ∧ (e ∈ ({[1%Z; 2%Z; 3%Z]} : gset Z) ∖ {[3%Z; 4%Z]} →
             in_circle (circle_a_center layout) (circle_radius layout) p)
          ∧ (e ∈ ({[3%Z; 4%Z]} : gset Z) ∖ {[1%Z; 2%Z; 3%Z]} →
             in_circle (circle_b_center layout) (circle_radius layout) p)
          ∧ (e ∈ ({[1%Z; 2%Z; 3%Z]} : gset Z) ∩ {[3%Z; 4%Z]} →
             in_circle (circle_a_center layout) (circle_radius layout) p
             ∨ in_circle (circle_b_center layout) (circle_radius layout) p).
Proof.
  split; [intros s; reflexivity |].
  exact (positions_inside_circles elements [1%Z; 2%Z; 3%Z; 4%Z]
           {[1%Z; 2%Z; 3%Z]} {[3%Z; 4%Z]} (λ s, reflexivity _)).
Defined.

(** ** Packing engine: a circle smaller than the spacing *)

Lemma lattice_point_origin (center : ndarray) (s : R) :
  lattice_point center s 0 0 = center.
Proof.
  unfold lattice_point.
  assert (Hxy : lattice_xy s (s * 0.866) 0 0 = (0, 0)).
  { unfold lattice_xy. simpl. f_equal; lra. }
  rewrite Hxy. apply np_add_zero.
Qed.

(** With a radius below the distance between neighbours, every candidate of
    [_hexagonal_pack] is the centre. *)
Lemma hexagonal_candidates_small_radius (center : ndarray)
    (radius elem_size padding : R) (cands : list (R * ndarray))
    (dp : R * ndarray) :
  radius < 0.99997 * (elem_size + padding) →
  hexagonal_candidates center radius elem_size padding = Ok cands →
  dp ∈ cands → dp.2 = center.
Proof.
  intros Hsmall Hc Hin.
  apply hexagonal_candidates_lattice in Hc as (_ & rows & cols & ->).
  apply lattice_candidates_elem in Hin as (row & col & Hp & _ & Hkeep).
  destruct (decide ((row, col) = (0%Z, 0%Z))) as [[= -> ->] | Hne].
  - rewrite Hp. apply lattice_point_origin.
  - exfalso.
    pose proof (lattice_point_far center (elem_size + padding) row col 0 0 Hne)
      as Hfar.
    rewrite lattice_point_origin in Hfar.
    unfold in_circle in Hkeep. unfold lattice_point in Hfar.
    destruct (lattice_xy _ _ row col) as [x y]. cbn [fst snd] in Hkeep.
    lra.
Qed.

Lemma hexagonal_pack_all_at_center (elements : list Z) (center : ndarray)
    (radius elem_size padding : R) :
  elem_size + padding ≠ 0 →
  radius < 0.99997 * (elem_size + padding) →
  ∃ m,
    _hexagonal_pack elements center radius elem_size padding = Ok m
    ∧ ∀ e, e ∈ elements → m !! e = Some center.
Proof.
  intros Hs Hsmall. unfold _hexagonal_pack.
  destruct (hexagonal_candidates_ok center radius elem_size padding Hs)
    as [cands Hc].
  rewrite Hc. cbn [mbind result_bind]. eexists. split; [reflexivity |].
  intros e He.
  destruct (assign_positions_elem (sort_by_dist cands) center elements e He)
    as (i & _ & ->).
  f_equal.
  destruct (candidate_at_cases (sort_by_dist cands) center i)
    as [-> | (dp & Hi & ->)]; [reflexivity |].
  apply list_elem_of_lookup_2 in Hi. rewrite sort_by_dist_perm in Hi.
  exact (hexagonal_candidates_small_radius _ _ _ _ _ _ Hsmall Hc Hi).
Qed.

(** X21.  A circle whose radius is below 0.99997 times the spacing holds
    no lattice point other than its centre: for a spacing, a centre and a
    radius of moderate magnitude [_hexagonal_pack] returns and places every
    element at the centre, however many there are (a negative radius
    included). *)
Theorem hexagonal_pack_small_radius (elements : list Z) (center : ndarray)
    (radius elem_size padding : R) :
  moderate (Circle radius) center (elem_size + padding) →
  radius < 0.99997 * (elem_size + padding) →
  ∃ m,
    _hexagonal_pack elements center radius elem_size padding = Ok m
    ∧ ∀ e, e ∈ elements → m !! e = Some center.
Proof.
  intros Hmod Hsmall. pose proof (moderate_spacing _ _ _ Hmod) as Hs.
  apply hexagonal_pack_all_at_center; [lra | exact Hsmall].
Qed.

Lemma hexagonal_pack_small_radius_witness :
  moderate (Circle 0.5) (1, 0, 0) (0.75 + 0.25)
  ∧ 0.5 < 0.99997 * (0.75 + 0.25)
  ∧ ∃ m,
      _hexagonal_pack [7%Z; 8%Z] (1, 0, 0) 0.5 0.75 0.25 = Ok m
      ∧ ∀ e, e ∈ [7%Z; 8%Z] → m !! e = Some (1, 0, 0).
Proof.
  assert (Hmod : moderate (Circle 0.5) (1, 0, 0) (0.75 + 0.25)).
  { apply (moderate_unit (Circle 0.5)). rewrite Rabs_pos_eq; lra. }
  assert (Hsmall : 0.5 < 0.99997 * (0.75 + 0.25)) by lra.
  split; [exact Hmod |]. split; [exact Hsmall |].
  exact (hexagonal_pack_small_radius [7%Z; 8%Z] (1, 0, 0) 0.5 0.75 0.25
           Hmod Hsmall).
Defined.

(** ** Layout and packing together: crescents of two elements *)

(** The radius computed for one or two elements is below the distance
    between neighbouring lattice points. *)
Lemma calc_radius_small (s : R) (n : Z) (r : R) :
  0 < s → (1 ≤ n ≤ 2)%Z → calc_radius (s ^ 2) n = Ok r →
  r < 0.99997 * s.
Proof.
  intros Hs Hn.
  rewrite calc_radius_eq by (apply pow2_ge_0 || lia).
  destruct (decide (n = 0)%Z); [lia |]. intros [= <-].
  change (s * (s * 1)) with (s ^ 2).
  rewrite <- (sqrt_pow2 (0.99997 * s)) by lra.
  pose proof PI2_3_2 as Hpi.
  assert (Hn' : 1 <= IZR n <= 2) by (split; apply IZR_le; lia).
  assert (Hs2 : 0 < s ^ 2) by (apply pow_lt; exact Hs).
  apply sqrt_lt_1_alt. unfold PACKING_EFFICIENCY. split.
  - apply Rmult_le_pos; [| left; apply Rinv_0_lt_compat; lra].
    apply Rmult_le_pos; [| left; apply Rinv_0_lt_compat; lra].
    apply Rmult_le_pos; lra.
  - apply (Rmult_lt_reg_r (0.75 * PI)); [lra |].
    replace (IZR n * s ^ 2 / 0.75 / PI * (0.75 * PI)) with (IZR n * s ^ 2)
      by (field; lra).
    assert (Hn2 : IZR n * s ^ 2 <= 2 * s ^ 2)
      by (apply Rmult_le_compat_r; lra).
    assert (Hpi2 : 3 * s ^ 2 < PI * s ^ 2)
      by (apply Rmult_lt_compat_r; lra).
    lra.
Qed.

(** X22.  In the computed layout the radius of a crescent of one or two
    elements is below the distance between neighbouring lattice points, so
    the centre is its only candidate: all elements of an A-only or B-only
    region of at most two elements are placed at the centre of the region,
    two elements on top of each other. *)
Theorem small_crescent_collapses (py_list : gset Z → list Z)
    (elems : list Z) (set_a set_b : gset Z) (k : region) :
  (∀ s, py_list s ≡ₚ elements s) →
  k ≠ Lens → (size (region_set k set_a set_b) ≤ 2)%nat →
  ∃ layout m,
    calculate_layout set_a set_b = Ok layout
    ∧ pack_elements py_list elems set_a set_b layout = Ok m
    ∧ ∀ e, e ∈ region_set k set_a set_b →
        m !! e = Some (region_center k layout).
Proof.
  intros Hperm Hk Hsize.
  destruct (calculate_layout_ok set_a set_b) as (layout & Hlay & Hlens & Hcres).
  destruct (pack_elements_ok py_list set_a set_b layout elems
              ltac:(lra) ltac:(lra)) as [m Hm].
  exists layout, m. split; [exact Hlay |]. split; [exact Hm |].
  intros e He.
  destruct (pack_elements_position py_list set_a set_b layout Hperm elems m
              k e Hm He) as (cands & i & Hc & ->).
  f_equal.
  destruct (candidate_at_cases (sort_by_dist cands) (region_center k layout) i)
    as [-> | (dp & Hi & ->)]; [reflexivity |].
  apply list_elem_of_lookup_2 in Hi. rewrite sort_by_dist_perm in Hi.
  assert (Hpos : (1 ≤ size (region_set k set_a set_b))%nat).
  { destruct (size (region_set k set_a set_b)) eqn:Hz; [| lia].
    apply size_empty_inv in Hz. set_solver. }
  destruct (calculate_layout_inv _ _ _ Hlay)
    as (lens & crescent & _ & Hcp & _ & _ & _ & _ & _ & _ & _ & _ & _
        & _ & _ & _ & _ & _ & _ & _ & Hes & Hpad & Hradii).
  apply calculate_crescent_parameters_radii in Hcp as [Hra Hrb].
  rewrite <- Hes, <- Hpad, <- Hradii in Hra, Hrb.
  destruct k; [| contradiction |].
  - eapply hexagonal_candidates_small_radius; [| exact Hc | exact Hi].
    eapply calc_radius_small; [exact Hcres | | exact Hra].
    simpl in Hsize, Hpos. lia.
  - eapply hexagonal_candidates_small_radius; [| exact Hc | exact Hi].
    eapply calc_radius_small; [exact Hcres | | exact Hrb].
    simpl in Hsize, Hpos. lia.
Qed.

Lemma small_crescent_collapses_witness :
  (∀ s : gset Z, elements s ≡ₚ elements s)
  ∧ AOnly ≠ Lens
  ∧ (size (region_set AOnly {[1%Z; 2%Z; 3%Z]} {[3%Z; 4%Z]}) ≤ 2)%nat
  ∧ ∃ layout m,
      calculate_layout {[1%Z; 2%Z; 3%Z]} {[3%Z; 4%Z]} = Ok layout
      ∧ pack_elements elements [1%Z; 2%Z; 3%Z; 4%Z]
          {[1%Z; 2%Z; 3%Z]} {[3%Z; 4%Z]} layout = Ok m
      ∧ ∀ e, e ∈ region_set AOnly {[1%Z; 2%Z; 3%Z]} {[3%Z; 4%Z]} →
          m !! e = Some (region_center AOnly layout).
Proof.
  assert (Hperm : ∀ s : gset Z, elements s ≡ₚ elements s)
    by (intros s; reflexivity).
  assert (Hk : AOnly ≠ Lens) by discriminate.
  assert (Hsize :
    (size (region_set AOnly {[1%Z; 2%Z; 3%Z]} {[3%Z; 4%Z]}) ≤ 2)%nat)
    by (vm_compute; lia).
  split; [exact Hperm |]. split; [exact Hk |]. split; [exact Hsize |].
  exact (small_crescent_collapses elements [1%Z; 2%Z; 3%Z; 4%Z]
           {[1%Z; 2%Z; 3%Z]} {[3%Z; 4%Z]} AOnly Hperm Hk Hsize).
Defined.

(** ** Packing engine: the centre and its six neighbours *)

Lemma hexagonal_candidates_seven (center : ndarray)
    (radius elem_size padding : R) (cands : list (R * ndarray)) :
  0 < elem_size + padding → elem_size + padding <= radius →
  hexagonal_candidates center radius elem_size padding = Ok cands →
  (7 ≤ length cands)%nat.
Proof.
  intros Hs Hr. unfold hexagonal_candidates.
  rewrite !truediv_ok by lra. cbn [mbind result_bind]. intros [= <-].
  set (s := elem_size + padding) in *.
  assert (Hcols : (0 ≤ Py.int (2 * radius / s))%Z).
  { apply int_nonneg. apply Rmult_le_pos; [lra |].
    left. apply Rinv_0_lt_compat. exact Hs. }
  assert (Hrows : (0 ≤ Py.int (2 * radius / (s * 0.866)))%Z).
  { apply int_nonneg. apply Rmult_le_pos; [lra |].
    left. apply Rinv_0_lt_compat. lra. }
  set (rows := (Py.int (2 * radius / (s * 0.866)) + 1)%Z) in *.
  set (cols := (Py.int (2 * radius / s) + 1)%Z) in *.
  change (7 ≤ length (lattice_candidates center s rows cols
                        (λ x y, in_circle center radius
                                  (np_add center (x, y, 0%R)))
                        (λ x y, Rle_dec _ radius)))%nat.
  set (near := [(0, 0); (0, 1); (0, -1); (1, 0); (1, -1); (-1, 0); (-1, -1)]%Z
               : list (Z * Z)).
  set (cell := λ rc : Z * Z,
         (linalg_norm (np_sub (lattice_point center s rc.1 rc.2) center),
          lattice_point center s rc.1 rc.2)).
  change 7%nat with (length (cell <$> near)).
  apply submseteq_length, NoDup_submseteq.
  - apply NoDup_fmap_2_strong.
    + intros [r1 c1] [r2 c2] _ _ [= _ Heq].
      apply (lattice_point_inj center s) in Heq; [exact Heq | lra].
    + unfold near.
      repeat (apply NoDup_cons; split; [set_unfold; intuition congruence |]).
      apply NoDup_nil_2.
  - intros dp Hdp. apply list_elem_of_fmap in Hdp as ([row col] & -> & Hin).
    unfold cell. cbn [fst snd].
    pose proof (near_origin_within_spacing s row col Hin) as Hnear.
    apply lattice_candidates_member.
    + unfold near in Hin. set_unfold in Hin.
      unfold rows. intuition (simplify_eq; lia).
    + unfold near in Hin. set_unfold in Hin.
      unfold cols. intuition (simplify_eq; lia).
    + unfold in_circle. rewrite np_sub_add_cancel. unfold linalg_norm.
      rewrite <- (sqrt_pow2 radius) by lra.
      apply sqrt_le_1_alt.
      destruct (lattice_xy s (s * 0.866) row col) as [x y].
      cbn [fst snd] in *. nra.
Qed.

(** ** Layout and packing together: crescents of three to seven elements *)

(** The radius computed for three or more elements reaches the nearest
    neighbours of the centre. *)
Lemma calc_radius_large (s : R) (n : Z) (r : R) :
  0 < s → (3 ≤ n)%Z → calc_radius (s ^ 2) n = Ok r → s <= r.
Proof.
  intros Hs Hn.
  rewrite calc_radius_eq by (apply pow2_ge_0 || lia).
  destruct (decide (n = 0)%Z); [lia |]. intros [= <-].
  change (s * (s * 1)) with (s ^ 2).
  rewrite <- (sqrt_pow2 s) at 1 by lra.
  pose proof PI_4 as Hpi4. pose proof PI_RGT_0 as Hpi.
  assert (Hn' : 3 <= IZR n) by (apply IZR_le; lia).
  assert (Hs2 : 0 < s ^ 2) by (apply pow_lt; exact Hs).
  apply sqrt_le_1_alt. unfold PACKING_EFFICIENCY.
  apply (Rmult_le_reg_r (0.75 * PI)); [lra |].
  replace (IZR n * s ^ 2 / 0.75 / PI * (0.75 * PI)) with (IZR n * s ^ 2)
    by (field; lra).
  assert (Hn2 : 3 * s ^ 2 <= IZR n * s ^ 2)
    by (apply Rmult_le_compat_r; lra).
  assert (Hpi2 : PI * s ^ 2 <= 4 * s ^ 2)
    by (apply Rmult_le_compat_r; lra).
  lra.
Qed.

(** The elements of a crescent of three to seven elements, in a computed
    layout, get pairwise different positions. *)
Lemma medium_crescent_positions (py_list : gset Z → list Z)
    (elems : list Z) (set_a set_b : gset Z) (k : region)
    (layout : VennLayout) (m : gmap Z ndarray) :
  (∀ s, py_list s ≡ₚ elements s) →
  k ≠ Lens → (3 ≤ size (region_set k set_a set_b) ≤ 7)%nat →
  calculate_layout set_a set_b = Ok layout →
  pack_elements py_list elems set_a set_b layout = Ok m →
  ∀ e1 e2, e1 ∈ region_set k set_a set_b →
    e2 ∈ region_set k set_a set_b → e1 ≠ e2 →
    ∃ p1 p2,
      m !! e1 = Some p1 ∧ m !! e2 = Some p2 ∧ p1 ≠ p2
      ∧ 0.99997 * (crescent_element_size layout + crescent_padding layout)
          <= linalg_norm (np_sub p1 p2).
Proof.
  intros Hperm Hk Hsize Hlay Hm.
  assert (Hcres : 0 < crescent_element_size layout + crescent_padding layout).
  { destruct (calculate_layout_ok set_a set_b) as (layout' & Hlay' & _ & Hc).
    rewrite Hlay in Hlay'. injection Hlay' as <-. exact Hc. }
  assert (Hne : region_set k set_a set_b ≠ ∅).
  { intros Hempty. rewrite Hempty, size_empty in Hsize. lia. }
  destruct (pack_elements_ranked py_list set_a set_b layout Hperm elems m k Hm
              Hne) as (cands & l & Hc & Hsorted & Hnodup & Hmem & Hlook).
  assert (Hlen : length l = size (region_set k set_a set_b)).
  { unfold size, set_size. cbn [compose]. apply Permutation_length.
    apply NoDup_Permutation; [exact Hnodup | apply NoDup_elements |].
    intros x. rewrite Hmem, elem_of_elements. reflexivity. }
  destruct (calculate_layout_inv _ _ _ Hlay)
    as (lens & crescent & _ & Hcp & _ & _ & Has & Hbs & _ & _ & _ & _ & _
        & _ & _ & _ & _ & _ & _ & _ & Hes & Hpad & Hradii).
  apply calculate_crescent_parameters_radii in Hcp as [Hra Hrb].
  rewrite <- Hes, <- Hpad, <- Hradii in Hra, Hrb.
  assert (Hcap : (7 ≤ length cands)%nat).
  { destruct k; [| contradiction |].
    - eapply hexagonal_candidates_seven; [exact Hcres | | exact Hc].
      eapply calc_radius_large; [exact Hcres | | exact Hra].
      simpl in Hsize. lia.
    - eapply hexagonal_candidates_seven; [exact Hcres | | exact Hc].
      eapply calc_radius_large; [exact Hcres | | exact Hrb].
      simpl in Hsize. lia. }
  assert (Hspacing : region_elem_size k layout + region_padding k layout
                     = crescent_element_size layout + crescent_padding layout)
    by (destruct k; [reflexivity | contradiction | reflexivity]).
  destruct (candidates_lattice _ _ _ _ _ Hc)
    as (Hs & rows & cols & keep & keep_dec & Hlat).
  assert (Hndc : NoDup (sort_by_dist cands)).
  { rewrite sort_by_dist_perm, Hlat. apply lattice_candidates_NoDup. exact Hs. }
  assert (Hslot : ∀ e, e ∈ region_set k set_a set_b →
    ∃ i dp, l !! i = Some e ∧ sort_by_dist cands !! i = Some dp
            ∧ dp ∈ cands ∧ m !! e = Some dp.2).
  { intros e He. apply Hmem, list_elem_of_lookup_1 in He as [i Hi].
    assert (Hlt : (i < length (sort_by_dist cands))%nat).
    { rewrite sort_by_dist_length. apply lookup_lt_Some in Hi. lia. }
    apply lookup_lt_is_Some_2 in Hlt as [dp Hdp].
    exists i, dp. split; [exact Hi |]. split; [exact Hdp |]. split.
    - rewrite <- (sort_by_dist_perm cands).
      apply list_elem_of_lookup_2 in Hdp. exact Hdp.
    - rewrite (Hlook i e Hi). unfold candidate_at. rewrite Hdp. reflexivity. }
  intros e1 e2 He1 He2 Hdiff.
  destruct (Hslot e1 He1) as (i1 & dp1 & Hi1 & Hs1 & Hin1 & Hm1).
  destruct (Hslot e2 He2) as (i2 & dp2 & Hi2 & Hs2 & Hin2 & Hm2).
  exists dp1.2, dp2.2. split; [exact Hm1 |]. split; [exact Hm2 |].
  assert (Hdp : dp1 ≠ dp2).
  { intros ->. apply Hdiff.
    pose proof (NoDup_lookup _ _ _ _ Hndc Hs1 Hs2) as ->. congruence. }
  rewrite Hlat in Hin1, Hin2.
  rewrite <- Hspacing.
  exact (lattice_candidates_far _ _ _ _ _ _ _ _ Hs Hin1 Hin2 Hdp).
Qed.

(** X23.  In the computed layout a crescent of three to seven elements
    has the centre and its six neighbours among its candidates: the
    elements of such an A-only or B-only region get pairwise different
    positions, at least 0.99997 times the crescent spacing apart. *)
Theorem medium_crescent_separated (py_list : gset Z → list Z)
    (elems : list Z) (set_a set_b : gset Z) (k : region) :
  (∀ s, py_list s ≡ₚ elements s) →
  k ≠ Lens → (3 ≤ size (region_set k set_a set_b) ≤ 7)%nat →
  ∃ layout m,
    calculate_layout set_a set_b = Ok layout
    ∧ pack_elements py_list elems set_a set_b layout = Ok m
    ∧ ∀ e1 e2, e1 ∈ region_set k set_a set_b →
        e2 ∈ region_set k set_a set_b → e1 ≠ e2 →
        ∃ p1 p2,
          m !! e1 = Some p1 ∧ m !! e2 = Some p2 ∧ p1 ≠ p2
          ∧ 0.99997 * (crescent_element_size layout + crescent_padding layout)
              <= linalg_norm (np_sub p1 p2).
Proof.
  intros Hperm Hk Hsize.
  destruct (calculate_layout_ok set_a set_b) as (layout & Hlay & Hlens & Hcres).
  destruct (pack_elements_ok py_list set_a set_b layout elems
              ltac:(lra) ltac:(lra)) as [m Hm].
  exists layout, m. split; [exact Hlay |]. split; [exact Hm |].
  exact (medium_crescent_positions py_list elems set_a set_b k layout m
           Hperm Hk Hsize Hlay Hm).
Qed.

Lemma medium_crescent_separated_witness :
  (∀ s : gset Z, elements s ≡ₚ elements s)
  ∧ AOnly ≠ Lens
  ∧ (3 ≤ size (region_set AOnly {[1%Z; 2%Z; 3%Z; 4%Z]} {[4%Z; 5%Z]}) ≤ 7)%nat
  ∧ ∃ layout m,
      calculate_layout {[1%Z; 2%Z; 3%Z; 4%Z]} {[4%Z; 5%Z]} = Ok layout
      ∧ pack_elements elements [] {[1%Z; 2%Z; 3%Z; 4%Z]} {[4%Z; 5%Z]} layout
        = Ok m
      ∧ ∀ e1 e2,
          e1 ∈ region_set AOnly {[1%Z; 2%Z; 3%Z; 4%Z]} {[4%Z; 5%Z]} →
          e2 ∈ region_set AOnly {[1%Z; 2%Z; 3%Z; 4%Z]} {[4%Z; 5%Z]} →
          e1 ≠ e2 →
          ∃ p1 p2,
            m !! e1 = Some p1 ∧ m !! e2 = Some p2 ∧ p1 ≠ p2
            ∧ 0.99997
                * (crescent_element_size layout + crescent_padding layout)
                <= linalg_norm (np_sub p1 p2).
Proof.
  assert (Hperm : ∀ s : gset Z, elements s ≡ₚ elements s)
    by (intros s; reflexivity).
  assert (Hk : AOnly ≠ Lens) by discriminate.
  assert (Hsize :
    (3 ≤ size (region_set AOnly {[1%Z; 2%Z; 3%Z; 4%Z]} {[4%Z; 5%Z]}) ≤ 7)%nat)
    by (vm_compute; lia).
  split; [exact Hperm |]. split; [exact Hk |]. split; [exact Hsize |].
  exact (medium_crescent_separated elements [] {[1%Z; 2%Z; 3%Z; 4%Z]}
           {[4%Z; 5%Z]} AOnly Hperm Hk Hsize).
Defined.

(** ** Layout and packing together: order of assignment *)

(** X17.  In the computed layout the positions of a region are handed out
    from the centre outwards: of two elements of the same region the larger
    one is never nearer to the region centre than the smaller one, unless
    it sits at the centre itself (the candidates have run out, or it is
    the first). *)
Theorem pack_elements_nearest_first (py_list : gset Z → list Z)
    (elems : list Z) (set_a set_b : gset Z) (k : region) (e1 e2 : Z) :
  (∀ s, py_list s ≡ₚ elements s) →
  e1 ∈ region_set k set_a set_b → e2 ∈ region_set k set_a set_b →
  (e1 ≤ e2)%Z →
  ∃ layout m p1 p2,
    calculate_layout set_a set_b = Ok layout
    ∧ pack_elements py_list elems set_a set_b layout = Ok m
    ∧ m !! e1 = Some p1 ∧ m !! e2 = Some p2
    ∧ (p2 = region_center k layout
       ∨ linalg_norm (np_sub p1 (region_center k layout))
           <= linalg_norm (np_sub p2 (region_center k layout))).
Proof.
  intros Hperm He1 He2 Hle.
  destruct (calculate_layout_ok set_a set_b) as (layout & Hlay & Hlens & Hcres).
  destruct (pack_elements_ok py_list set_a set_b layout elems
              ltac:(lra) ltac:(lra)) as [m Hm].
  destruct (pack_elements_rank_order py_list elems set_a set_b layout m k
              e1 e2 Hperm Hm He1 He2 Hle) as (p1 & p2 & H1 & H2 & Hor).
  exists layout, m, p1, p2. auto.
Qed.

(** In the crescent [{1, 2, 3}] the elements 2 and 3 are both away from the
    centre, which element 1 occupies, and 3 is not nearer to it than 2. *)
Lemma pack_elements_nearest_first_witness :
  (∀ s : gset Z, elements s ≡ₚ elements s)
  ∧ 2%Z ∈ region_set AOnly {[1%Z; 2%Z; 3%Z; 4%Z]} {[4%Z; 5%Z]}
  ∧ 3%Z ∈ region_set AOnly {[1%Z; 2%Z; 3%Z; 4%Z]} {[4%Z; 5%Z]}
  ∧ (2 ≤ 3)%Z
  ∧ ∃ layout m p1 p2,
      calculate_layout {[1%Z; 2%Z; 3%Z; 4%Z]} {[4%Z; 5%Z]} = Ok layout
      ∧ pack_elements elements [] {[1%Z; 2%Z; 3%Z; 4%Z]} {[4%Z; 5%Z]} layout
        = Ok m
      ∧ m !! 2%Z = Some p1 ∧ m !! 3%Z = Some p2
      ∧ p1 ≠ region_center AOnly layout
      ∧ p2 ≠ region_center AOnly layout
      ∧ linalg_norm (np_sub p1 (region_center AOnly layout))
          <= linalg_norm (np_sub p2 (region_center AOnly layout)).
Proof.
  assert (Hperm : ∀ s : gset Z, elements s ≡ₚ elements s)
    by (intros s; reflexivity).
  assert (Hin : ∀ e, (1 ≤ e ≤ 3)%Z →
    e ∈ region_set AOnly {[1%Z; 2%Z; 3%Z; 4%Z]} {[4%Z; 5%Z]}).
  { intros e He. simpl.
    assert (e = 1 ∨ e = 2 ∨ e = 3)%Z as [-> | [-> | ->]] by lia; set_solver. }
  assert (Hmin : ∀ e,
    e ∈ region_set AOnly {[1%Z; 2%Z; 3%Z; 4%Z]} {[4%Z; 5%Z]} → (1 ≤ e)%Z).
  { simpl. intros e He. set_unfold. lia. }
  assert (Hsize :
    (3 ≤ size (region_set AOnly {[1%Z; 2%Z; 3%Z; 4%Z]} {[4%Z; 5%Z]}) ≤ 7)%nat)
    by (vm_compute; lia).
  split; [exact Hperm |]. split; [apply Hin; lia |]. split; [apply Hin; lia |].
  split; [lia |].
  destruct (pack_elements_nearest_first elements [] {[1%Z; 2%Z; 3%Z; 4%Z]}
              {[4%Z; 5%Z]} AOnly 2 3 Hperm (Hin 2%Z ltac:(lia))
              (Hin 3%Z ltac:(lia)) ltac:(lia))
    as (layout & m & p1 & p2 & Hlay & Hm & H1 & H2 & Hor).
  pose proof (region_smallest_at_center elements [] _ _ layout m AOnly 1
                Hperm Hm (Hin 1%Z ltac:(lia)) Hmin) as Hc.
  assert (Hoff : ∀ e p, (2 ≤ e ≤ 3)%Z → m !! e = Some p →
    p ≠ region_center AOnly layout).
  { intros e p He Hp.
    destruct (medium_crescent_positions elements [] _ _ AOnly layout m Hperm
                ltac:(discriminate) Hsize Hlay Hm 1%Z e (Hin 1%Z ltac:(lia))
                (Hin e ltac:(lia)) ltac:(lia))
      as (q1 & q2 & Hq1 & Hq2 & Hne & _).
    rewrite Hc in Hq1. injection Hq1 as <-.
    rewrite Hp in Hq2. injection Hq2 as <-.
    intros Heq. apply Hne. symmetry. exact Heq. }
  pose proof (Hoff 2%Z p1 ltac:(lia) H1) as Hp1.
  pose proof (Hoff 3%Z p2 ltac:(lia) H2) as Hp2.
  exists layout, m, p1, p2.
  split; [exact Hlay |]. split; [exact Hm |]. split; [exact H1 |].
  split; [exact H2 |]. split; [exact Hp1 |]. split; [exact Hp2 |].
  destruct Hor as [Heq | Hle]; [contradiction | exact Hle].
Defined.
